(** * Dashboard.tsx: geometry resolver, weather analyzer and unit table

    A shallow embedding of the pure helpers of [src/pages/Dashboard.tsx]
    ([computeCentroid], [num], [analyzeWeather], [conversionFactors] and
    the displayed-area effect), together with the properties the
    specification states about them; then of the rest of the logic of the
    page ([buildPieFromSoil], [handleMapLocationSelect], the weather
    effect, the status badges, the weather card and the map card), with
    properties read off the code.

    JavaScript numbers are IEEE 754 binary64 values.  They are modelled
    with the executable binary64 operations of [SpecFloat]; objects that
    the code mutates in place live in an explicit store. *)

From Stdlib Require Import ZArith QArith Qabs Lia Lqa Floats.SpecFloat.
From Stdlib Require Import Ascii String DecimalString DecimalPos DecimalN.
From stdpp Require Import base option list strings gmap.

Local Open Scope Z_scope.

(** * JavaScript numbers *)

Module F64.

Definition prec : Z := 53.
Definition emax : Z := 1024.

(** A JavaScript [number]. Every value built below is in canonical form
    (the mantissa of a finite value is normalised), which is what
    [SFcompare] expects. *)
Definition number : Type := spec_float.

Definition NaN : number := S754_nan.

Definition add : number -> number -> number := SFadd prec emax.
Definition sub : number -> number -> number := SFsub prec emax.
Definition mul : number -> number -> number := SFmul prec emax.
Definition div : number -> number -> number := SFdiv prec emax.
Definition abs : number -> number := SFabs.

(** [x < y], [x <= y], [x > y], [x >= y]: false as soon as one side is
    NaN. *)
Definition ltb (x y : number) : bool := SFltb x y.
Definition leb (x y : number) : bool := SFleb x y.
Definition gtb (x y : number) : bool := SFltb y x.
Definition geb (x y : number) : bool := SFleb y x.

(** The number denoted by the decimal literal [m / 10^k], correctly
    rounded to nearest, ties to even: the division is carried out on the
    integers themselves, so a single rounding takes place. *)
Definition of_decimal (neg : bool) (m : N) (k : nat) : number :=
  match m with
  | N0 => S754_zero neg
  | Npos p =>
      let '(q, e, l) :=
        SFdiv_core_binary prec emax (Zpos p) 0 (10 ^ Z.of_nat k) 0 in
      binary_round_aux prec emax neg q e l
  end.

(** A literal written in the source, e.g. [lit 92 2] for [0.92]. *)
Definition lit (m : Z) (k : nat) : number :=
  of_decimal (m <? 0) (Z.abs_N m) k.

Definition of_Z (z : Z) : number := lit z 0.

(** [Math.max(x, y)]: NaN if either argument is NaN, and [+0] is larger
    than [-0]. *)
Definition Math_max (x y : number) : number :=
  match x, y with
  | S754_nan, _ | _, S754_nan => S754_nan
  | S754_zero sx, S754_zero sy => S754_zero (sx && sy)
  | _, _ => if SFltb x y then y else x
  end.

(** The exact value of a finite number, [m * 2^e], as a rational (and 0
    for the values that have none). *)
Definition to_Q (x : number) : Q :=
  match x with
  | S754_finite s m e =>
      let v := if s then Zneg m else Zpos m in
      if 0 <=? e then inject_Z (v * 2 ^ e)
      else Qmake v (Z.to_pos (2 ^ (- e)))
  | _ => 0%Q
  end.

(** Neither NaN nor an infinity. *)
Definition is_finite (x : number) : bool :=
  match x with
  | S754_zero _ | S754_finite _ _ _ => true
  | _ => false
  end.

(** [+0] or [-0]. *)
Definition is_zero (x : number) : bool :=
  match x with
  | S754_zero _ => true
  | _ => false
  end.

End F64.

(** * JavaScript strings and number formatting *)

Module Js.
Import F64.
Local Open Scope string_scope.
Local Open Scope Z_scope.

(** [s.includes(sub)] *)
Fixpoint includes (sub s : string) : bool :=
  String.prefix sub s ||
  match s with
  | EmptyString => false
  | String _ t => includes sub t
  end.

Definition is_digit (c : ascii) : bool :=
  let n := nat_of_ascii c in (48 <=? n)%nat && (n <=? 57)%nat.

(** The longest prefix of digits of [s], and what follows it. *)
Fixpoint span_digits (s : string) : string * string :=
  match s with
  | String c t =>
      if is_digit c then
        let '(ds, rest) := span_digits t in (String c ds, rest)
      else (EmptyString, s)
  | EmptyString => (EmptyString, EmptyString)
  end.

(** [\d+(\.\d+)?] anchored at the start of [s], greedy. *)
Definition match_unsigned (s : string) : option string :=
  match span_digits s with
  | (EmptyString, _) => None
  | (ds, String "."%char rest) =>
      match span_digits rest with
      | (EmptyString, _) => Some ds
      | (fs, _) => Some (ds +:+ "." +:+ fs)
      end
  | (ds, _) => Some ds
  end.

(** [-?\d+(\.\d+)?] anchored at the start of [s]. *)
Definition match_here (s : string) : option string :=
  match s with
  | String "-"%char t =>
      match match_unsigned t with
      | Some m => Some ("-" +:+ m)
      | None => None
      end
  | _ => match_unsigned s
  end.

(** [s.match(/-?\d+(\.\d+)?/)]: the leftmost match, [m[0]]. *)
Fixpoint regex_match (s : string) : option string :=
  match match_here s with
  | Some m => Some m
  | None =>
      match s with
      | EmptyString => None
      | String _ t => regex_match t
      end
  end.

Definition digit_val (c : ascii) : N := N.of_nat (nat_of_ascii c - 48).

(** The natural number written by a string of digits. *)
Fixpoint digits_val (acc : N) (s : string) : N :=
  match s with
  | EmptyString => acc
  | String c t => digits_val (10 * acc + digit_val c)%N t
  end.

(** [parseFloat] on a string of the shape the regular expression above
    matches: sign, integer digits, optional fraction. *)
Definition parseFloat (m : string) : number :=
  let '(neg, body) :=
    match m with
    | String "-"%char t => (true, t)
    | _ => (false, m)
    end in
  let '(ds, rest) := span_digits body in
  let fs :=
    match rest with
    | String "."%char r => fst (span_digits r)
    | _ => EmptyString
    end in
  of_decimal neg (digits_val (digits_val 0 ds) fs) (String.length fs).

(** The decimal digits of a natural number. *)
Definition digits (n : N) : string := NilZero.string_of_uint (N.to_uint n).

Fixpoint zeros (k : nat) : string :=
  match k with
  | O => EmptyString
  | S k' => String "0"%char (zeros k')
  end.

(** The integer [n] for which [n / 10^f - x] is closest to zero, the
    larger one on a tie; [x] is finite and not negative. *)
Definition round_scaled (x : number) (f : nat) : N :=
  match x with
  | S754_finite _ m e =>
      let a := Zpos m * 10 ^ Z.of_nat f in
      if 0 <=? e then Z.to_N (a * 2 ^ e)
      else let d := 2 ^ (- e) in Z.to_N ((2 * a + d) / (2 * d))
  | _ => 0%N
  end.

Fixpoint strip_zeros_rev (s : list ascii) : list ascii :=
  match s with
  | "0"%char :: t => strip_zeros_rev t
  | _ => s
  end.

(** [Number::toString] for a finite [x >= 1e21] (an integer, [X]): the
    shortest digit string that reads back as [x], in exponential form. *)
Definition reads_back (x : number) (v : N) : bool :=
  SFeqb (of_decimal false v 0) x.

Fixpoint shortest (fuel k n : nat) (X : N) (x : number) : N :=
  match fuel with
  | O => X
  | S fuel' =>
      let p := (10 ^ N.of_nat (n - k))%N in
      let lo := (X / p * p)%N in
      let hi := (lo + p)%N in
      match reads_back x lo, reads_back x hi with
      | true, true =>
          match N.compare (X - lo) (hi - X) with
          | Lt => lo
          | Gt => hi
          | Eq => if N.even (X / p) then lo else hi
          end
      | true, false => lo
      | false, true => hi
      | false, false => shortest fuel' (S k) n X x
      end
  end.

Definition toString_large (x : number) : string :=
  let X := round_scaled x 0 in
  let n := String.length (digits X) in
  let v := digits (shortest 17 1 n X x) in
  let e := digits (N.of_nat (String.length v - 1)) in
  match rev (strip_zeros_rev (rev (list_ascii_of_string v))) with
  | [] => "0"
  | [d] => String d ("e+" +:+ e)
  | d :: ds => String d ("." +:+ string_of_list_ascii ds +:+ "e+" +:+ e)
  end.

(** [x.toFixed(f)] *)
Definition toFixed (x : number) (f : nat) : string :=
  match x with
  | S754_nan => "NaN"
  | S754_infinity s => if s then "-Infinity" else "Infinity"
  | _ =>
      let s := if ltb x (of_Z 0) then "-" else "" in
      let x := abs x in
      if geb x (lit 1000000000000000000000 0) then s +:+ toString_large x
      else
        let m := digits (round_scaled x f) in
        match f with
        | O => s +:+ m
        | _ =>
            let m := zeros (S f - String.length m) +:+ m in
            let k := String.length m in
            s +:+ substring 0 (k - f) m +:+ "." +:+ substring (k - f) f m
        end
  end.

End Js.

(** * Geometry resolver

    [computeCentroid] uses additions, subtractions, multiplications,
    divisions, [Math.abs] and [<] on numbers.  It is written over these
    operations, which the browser carries out on binary64 numbers
    ([F64_arith]); what is proved for any choice of the operations depends
    on the control flow of the function only. *)

Class Arith (A : Type) := {
  num_lit : Z -> nat -> A;       (* the decimal literal [m / 10^k] *)
  num_add : A -> A -> A;
  num_sub : A -> A -> A;
  num_mul : A -> A -> A;
  num_div : A -> A -> A;
  num_abs : A -> A;              (* [Math.abs] *)
  num_ltb : A -> A -> bool;      (* [<] *)
}.

Declare Scope arith_scope.
Delimit Scope arith_scope with ar.
Infix "+" := num_add : arith_scope.
Infix "-" := num_sub : arith_scope.
Infix "*" := num_mul : arith_scope.
Infix "/" := num_div : arith_scope.
Infix "<?" := num_ltb : arith_scope.

#[export] Instance F64_arith : Arith F64.number := {|
  num_lit := F64.lit;
  num_add := F64.add;
  num_sub := F64.sub;
  num_mul := F64.mul;
  num_div := F64.div;
  num_abs := F64.abs;
  num_ltb := F64.ltb;
|}.

Record LatLon (A : Type) := mkLatLon { lat : A; lon : A }.
Arguments mkLatLon {A} _ _.
Arguments lat {A} _.
Arguments lon {A} _.

Section Geometry.
Context {A : Type} `{Arith A}.
Local Open Scope arith_scope.

Notation "0" := (num_lit 0 0) : arith_scope.

(** One iteration of the [for] loop of [computeCentroid]: the running
    values of [area], [cx] and [cy] after index [i]. *)
Definition centroid_step (coords : list (A * A)) (acc : A * A * A) (i : nat)
  : A * A * A :=
  let '(area, cx, cy) := acc in
  let '(x1, y1) := nth i coords (0, 0) in
  let '(x2, y2) := nth ((i + 1) mod length coords) coords (0, 0) in
  let cross := x1 * y2 - x2 * y1 in
  (area + cross, cx + (x1 + x2) * cross, cy + (y1 + y2) * cross).

Definition computeCentroid (coords : list (A * A)) : option (LatLon A) :=
  match coords with
  | [] => None
  | (lat0, lon0) :: _ =>
      let '(area, cx, cy) :=
        fold_left (centroid_step coords) (seq 0 (length coords)) (0, 0, 0) in
      let area := area * num_lit 5 1 in
      if num_abs area <? num_lit 1 12 then Some (mkLatLon lat0 lon0)
      else
        let cx := cx / (num_lit 6 0 * area) in
        let cy := cy / (num_lit 6 0 * area) in
        Some (mkLatLon cx cy)
  end.

(** ** The shoelace formulas, as the specification words them *)

(** The closed loop: every vertex paired with its successor, the last
    one wrapping to the first. *)
Definition edges (coords : list (A * A)) : list ((A * A) * (A * A)) :=
  match coords with
  | [] => []
  | p :: rest => combine coords (rest ++ [p])
  end.

Definition cross (e : (A * A) * (A * A)) : A :=
  let '((x1, y1), (x2, y2)) := e in x1 * y2 - x2 * y1.

(** Sum of [f] over the loop, in vertex order. *)
Definition loop_sum (f : (A * A) * (A * A) -> A) (coords : list (A * A)) : A :=
  fold_left (fun s e => s + f e) (edges coords) 0.

(** [A = 1/2 * sum (x_i * y_{i+1} - x_{i+1} * y_i)] *)
Definition signed_area (coords : list (A * A)) : A :=
  loop_sum cross coords * num_lit 5 1.

(** [sum (x_i + x_{i+1}) * (x_i * y_{i+1} - x_{i+1} * y_i)] and its
    analogue in [y]. *)
Definition moment_x (coords : list (A * A)) : A :=
  loop_sum (fun e => (fst (fst e) + fst (snd e)) * cross e) coords.

Definition moment_y (coords : list (A * A)) : A :=
  loop_sum (fun e => (snd (fst e) + snd (snd e)) * cross e) coords.

(** The effect of one edge on the three running sums. *)
Definition edge_step (acc : A * A * A) (e : (A * A) * (A * A)) : A * A * A :=
  let '(area, cx, cy) := acc in
  (area + cross e,
   cx + (fst (fst e) + fst (snd e)) * cross e,
   cy + (snd (fst e) + snd (snd e)) * cross e).

End Geometry.

(** * Soil-health records and the store they live in *)

Local Open Scope string_scope.
Local Open Scope list_scope.
Local Open Scope nat_scope.

(** One [{ name, value, status }] object. *)
Record Entry := mkEntry { name : string; value : string; status : string }.

(** The content of a soil-health record: what [JSON.stringify] writes and
    [JSON.parse] reads. *)
Record Soil := mkSoil {
  general : list Entry;
  macroNutrients : list Entry;
  microNutrients : list Entry;
}.

(** The object literal of the module-level constant [detailedSoilData]. *)
Definition detailedSoilData : Soil := {|
  general := [
    mkEntry "pH Level" "5.8" "Low";
    mkEntry "Organic Carbon (OC)" "0.45%" "Low" ];
  macroNutrients := [
    mkEntry "Nitrogen (N)" "210 kg/ha" "Low";
    mkEntry "Phosphorus (P)" "15 kg/ha" "Optimal";
    mkEntry "Potassium (K)" "120 kg/ha" "Low" ];
  microNutrients := [
    mkEntry "Zinc (Zn)" "0.5 ppm" "Low";
    mkEntry "Iron (Fe)" "4.8 ppm" "Optimal" ];
|}.

(** The three arrays of a soil record. *)
Inductive field := General | Macro | Micro.

#[export] Instance field_eq_dec : EqDecision field.
Proof. solve_decision. Defined.

Definition get_field (f : field) (s : Soil) : list Entry :=
  match f with
  | General => general s
  | Macro => macroNutrients s
  | Micro => microNutrients s
  end.

Definition set_field (f : field) (es : list Entry) (s : Soil) : Soil :=
  match f with
  | General => mkSoil es (macroNutrients s) (microNutrients s)
  | Macro => mkSoil (general s) es (microNutrients s)
  | Micro => mkSoil (general s) (macroNutrients s) es
  end.

(** Objects and arrays are reference values: a variable holds a location
    of the store, and an assignment to a property writes the cell at that
    location, whoever else points to it. *)
Module Store.

Abbreviation loc := nat.

Inductive cell :=
| Obj (e : Entry)                       (* an entry object *)
| Arr (elems : list loc)                (* an array of entry objects *)
| Rec (g ma mi : loc).                  (* { general, macroNutrients, microNutrients } *)

Abbreviation heap := (list cell).

(** Computations on the store; [None] is a run that gets stuck (a
    property read on something that is not there). *)
Definition M (A : Type) : Type := heap -> option (A * heap).

#[export] Instance M_ret : MRet M := fun A a h => Some (a, h).

#[export] Instance M_bind : MBind M := fun A B k m h =>
  match m h with
  | Some (a, h') => k a h'
  | None => None
  end.

Definition fail {A} : M A := fun _ => None.

Definition alloc (c : cell) : M loc := fun h => Some (length h, h ++ [c]).

Definition load (l : loc) : M cell :=
  fun h => match h !! l with
           | Some c => Some (c, h)
           | None => None
           end.

Definition store (l : loc) (c : cell) : M unit :=
  fun h => match h !! l with
           | Some _ => Some (tt, <[l := c]> h)
           | None => None
           end.

End Store.

Import Store.

Definition load_obj (l : loc) : M Entry :=
  c ← load l; match c with Obj e => mret e | _ => fail end.

Definition load_arr (l : loc) : M (list loc) :=
  c ← load l; match c with Arr ls => mret ls | _ => fail end.

(** [r.general], [r.macroNutrients], [r.microNutrients] *)
Definition load_field (f : field) (r : loc) : M loc :=
  c ← load r ;
  match c with
  | Rec g ma mi => mret match f with General => g | Macro => ma | Micro => mi end
  | _ => fail
  end.

(** [o.value = v] and [o.status = s] *)
Definition set_value (l : loc) (v : string) : M unit :=
  e ← load_obj l; store l (Obj (mkEntry (name e) v (status e))).

Definition set_status (l : loc) (s : string) : M unit :=
  e ← load_obj l; store l (Obj (mkEntry (name e) (value e) s)).

(** [arr.find(p)] on the elements [ls] of an array: the first element
    (the object itself, not a copy) that satisfies [p]. *)
Fixpoint find_elem (p : Entry -> bool) (ls : list loc) : M (option loc) :=
  match ls with
  | [] => mret None
  | l :: ls' =>
      e ← load_obj l ;
      if p e then mret (Some l) else find_elem p ls'
  end.

Definition find (arr : loc) (p : Entry -> bool) : M (option loc) :=
  ls ← load_arr arr; find_elem p ls.

(** [JSON.stringify(r)]: the content reachable from [r]. *)
Fixpoint read_entries (ls : list loc) : M (list Entry) :=
  match ls with
  | [] => mret []
  | l :: ls' => e ← load_obj l; es ← read_entries ls'; mret (e :: es)
  end.

Definition read_array (arr : loc) : M (list Entry) :=
  ls ← load_arr arr; read_entries ls.

Definition JSON_stringify (r : loc) : M Soil :=
  g ← load_field General r; gs ← read_array g ;
  ma ← load_field Macro r; mas ← read_array ma ;
  mi ← load_field Micro r; mis ← read_array mi ;
  mret (mkSoil gs mas mis).

(** [JSON.parse(text)]: every object and array of the text is created
    anew. *)
Fixpoint alloc_entries (es : list Entry) : M (list loc) :=
  match es with
  | [] => mret []
  | e :: es' => l ← alloc (Obj e); ls ← alloc_entries es'; mret (l :: ls)
  end.

Definition alloc_array (es : list Entry) : M loc :=
  ls ← alloc_entries es; alloc (Arr ls).

Definition JSON_parse (s : Soil) : M loc :=
  g ← alloc_array (general s) ;
  ma ← alloc_array (macroNutrients s) ;
  mi ← alloc_array (microNutrients s) ;
  alloc (Rec g ma mi).

(** The soil record a location denotes in a store, if it is one. *)
Definition readSoil (r : loc) (h : heap) : option Soil :=
  fst <$> JSON_stringify r h.

(** * Weather analyzer *)

Import F64.

Module Temp.
Record t := mk { min : number; max : number }.
End Temp.

Record WeatherInfo := mkWeatherInfo {
  main : string; description : string; icon : string }.

Record WeatherDaily := mkWeatherDaily {
  dt : number;
  temp : Temp.t;
  pop : number;
  rain : option number;
  wind_speed : option number;
  humidity : option number;
  weather : option (list WeatherInfo);
}.

(** [num(s)]: a number is returned as it is; from a string, the first
    decimal numeral, or 0 when there is none. *)
Inductive StrOrNum := Str (s : string) | Num (x : number).

Definition num (s : StrOrNum) : number :=
  match s with
  | Num x => x
  | Str s =>
      match Js.regex_match s with
      | Some m => Js.parseFloat m
      | None => of_Z 0
      end
  end.

(** [x ?? 0] *)
Definition or0 (x : option number) : number := default (of_Z 0) x.

Definition alert_wind : string :=
  "High winds expected — risk of lodging and spray drift.".
Definition alert_fungal : string :=
  "Very humid & warm — fungal disease pressure likely.".
Definition alert_rain : string :=
  "Heavy rain likely — leaching of Nitrogen and Potassium expected.".
Definition alert_drought : string :=
  "Heat wave & dry spell for 3+ days — drought stress risk.".
Definition alert_none : string :=
  "No unusual weather risks detected this week.".

(** The variables the [forEach] callback of [analyzeWeather] updates.
    The three counters only ever hold small natural numbers. *)
Record Pass := mkPass {
  pushed : list string;       (* [alerts] *)
  heavyRainDays : nat;
  droughtStreak : nat;
  maxHeatStreak : nat;
}.

Definition isHeavyRain (d : WeatherDaily) : bool :=
  let rainAmount := or0 (rain d) in
  geb rainAmount (of_Z 50) || (geb (pop d) (lit 8 1) && geb rainAmount (of_Z 30)).

Definition isDryHot (d : WeatherDaily) : bool :=
  leb (pop d) (lit 2 1) && geb (Temp.max (temp d)) (of_Z 35).

Definition isWindy (d : WeatherDaily) : bool :=
  geb (or0 (wind_speed d)) (of_Z 12).

Definition isHumidWarm (d : WeatherDaily) : bool :=
  geb (or0 (humidity d)) (of_Z 90) && geb (Temp.max (temp d)) (of_Z 28).

(** The body of the [forEach] callback. *)
Definition dayStep (st : Pass) (d : WeatherDaily) : Pass :=
  let heavyRainDays := if isHeavyRain d then S (heavyRainDays st) else heavyRainDays st in
  let droughtStreak := if isDryHot d then droughtStreak st + 1 else 0 in
  let maxHeatStreak := Nat.max (maxHeatStreak st) droughtStreak in
  let alerts := if isWindy d then pushed st ++ [alert_wind] else pushed st in
  let alerts := if isHumidWarm d then alerts ++ [alert_fungal] else alerts in
  mkPass alerts heavyRainDays droughtStreak maxHeatStreak.

Definition dayPass (daily : list WeatherDaily) : Pass :=
  fold_left dayStep daily (mkPass [] 0 0 0).

(** [Array.from(new Set(alerts))]: a [Set] keeps the first insertion of
    each value, in insertion order. *)
Definition Set_add (s : list string) (x : string) : list string :=
  if existsb (String.eqb x) s then s else s ++ [x].

Definition Array_from_Set (l : list string) : list string :=
  fold_left Set_add l [].

Record Recs := mkRecs {
  fertilizer : string;
  zinc : string;
  pH : string;
  irrigation : string;
  pest : string;
}.

Record Result := mkResult {
  alerts : list string;
  adjustedSoil : loc;
  recs : Recs;
}.

Definition includesName (sub : string) (e : Entry) : bool :=
  Js.includes sub (name e).

Definition hasName (n : string) (e : Entry) : bool := String.eqb (name e) n.

(** [if (o) o.value = f(num(o.value))] *)
Definition rewrite_value (o : option loc) (f : number -> string) : M unit :=
  match o with
  | Some l => e ← load_obj l; set_value l (f (num (Str (value e))))
  | None => mret tt
  end.

(** [num(o?.value ?? 0)] *)
Definition num_of (o : option loc) : M number :=
  match o with
  | Some l => e ← load_obj l; mret (num (Str (value e)))
  | None => mret (num (Num (of_Z 0)))
  end.

Definition kg_ha (x : number) : string := Js.toFixed x 0 +:+ " kg/ha".
Definition percent (x : number) : string := Js.toFixed x 2 +:+ "%".

Definition rainAdjust (adjusted : loc) : M unit :=
  ma ← load_field Macro adjusted;
  n ← find ma (includesName "(N)");
  ma ← load_field Macro adjusted;
  k ← find ma (includesName "(K)");
  g ← load_field General adjusted;
  pH ← find g (includesName "pH");
  g ← load_field General adjusted;
  oc ← find g (includesName "Organic Carbon");
  rewrite_value n (fun v => kg_ha (Math_max (of_Z 0) (mul v (lit 9 1))));;
  rewrite_value k (fun v => kg_ha (Math_max (of_Z 0) (mul v (lit 92 2))));;
  rewrite_value pH (fun v => Js.toFixed (Math_max (of_Z 0) (sub v (lit 1 1))) 1);;
  rewrite_value oc (fun v => percent (Math_max (of_Z 0) (mul v (lit 98 2)))).

Definition heatAdjust (adjusted : loc) : M unit :=
  ma ← load_field Macro adjusted;
  k ← find ma (includesName "(K)");
  g ← load_field General adjusted;
  pH ← find g (includesName "pH");
  g ← load_field General adjusted;
  oc ← find g (includesName "Organic Carbon");
  rewrite_value k (fun v => kg_ha (Math_max (of_Z 0) (mul v (lit 95 2))));;
  rewrite_value pH (fun v => Js.toFixed (add v (lit 1 1)) 1);;
  rewrite_value oc (fun v => percent (mul v (lit 103 2))).

(** [x < lo ? 'Low' : x > hi ? 'High' : 'Optimal'] *)
Definition grade (lo hi x : number) : string :=
  if ltb x lo then "Low" else if gtb x hi then "High" else "Optimal".

(** The inner helper [set(arr, name, status)] of [setStatus]. *)
Definition set (arr : loc) (n : string) (s : string) : M unit :=
  o ← find arr (hasName n);
  match o with
  | Some _ =>
      o' ← find arr (hasName n);
      match o' with
      | Some l => set_status l s
      | None => fail
      end
  | None => mret tt
  end.

Definition setStatus (adjusted : loc) : M unit :=
  ma ← load_field Macro adjusted;
  o ← find ma (includesName "(N)"); n ← num_of o;
  ma ← load_field Macro adjusted;
  o ← find ma (includesName "(P)"); p ← num_of o;
  ma ← load_field Macro adjusted;
  o ← find ma (includesName "(K)"); k ← num_of o;
  g ← load_field General adjusted;
  o ← find g (includesName "pH"); pH ← num_of o;
  g ← load_field General adjusted;
  o ← find g (includesName "Organic Carbon"); oc ← num_of o;
  ma ← load_field Macro adjusted;
  set ma "Nitrogen (N)" (grade (of_Z 250) (of_Z 350) n);;
  ma ← load_field Macro adjusted;
  set ma "Phosphorus (P)" (grade (of_Z 12) (of_Z 30) p);;
  ma ← load_field Macro adjusted;
  set ma "Potassium (K)" (grade (of_Z 150) (of_Z 300) k);;
  g ← load_field General adjusted;
  set g "pH Level" (grade (lit 60 1) (lit 75 1) pH);;
  g ← load_field General adjusted;
  set g "Organic Carbon (OC)" (grade (lit 75 2) (lit 15 1) oc).

Definition makeRecs (heavyRainDays maxHeatStreak : nat) (daily : list WeatherDaily)
  : Recs := {|
  fertilizer :=
    if negb (heavyRainDays =? 0) then
      "Split-apply N & K (e.g., Urea + MOP) after heavy rain; add stabilizers (NBPT) to reduce N losses."
    else if 3 <=? maxHeatStreak then
      "Prefer K-rich blends (e.g., 10-5-20) to aid osmotic balance; avoid surface-applied urea before irrigation."
    else "Balanced NPK (10-5-20). Base dose with top-up based on soil test and crop stage.";
  zinc :=
    "Apply Zinc Sulphate (21%) ~10 kg/acre at soil prep or 0.5% foliar if deficiency persists.";
  pH :=
    (if negb (heavyRainDays =? 0) then
       "Consider light liming to buffer acidity from rain; "
     else "") +:+ "Use dolomitic lime if Mg is low.";
  irrigation :=
    if 3 <=? maxHeatStreak then
      "Adopt shorter, more frequent irrigation; mulch to conserve soil moisture."
    else if negb (heavyRainDays =? 0) then
      "Delay irrigation for 2–3 days post heavy rain; improve drainage if waterlogging."
    else "Irrigate 2–3 days interval based on field condition.";
  pest :=
    if existsb (fun d => geb (or0 (humidity d)) (of_Z 90)) daily then
      "High humidity: scout for late blight; preventive Mancozeb/Chlorothalonil spray window."
    else
      "Keep scouting for aphids/whiteflies; use yellow sticky traps; spot-treat with Imidacloprid if needed.";
|}.

(** The alerts pushed after the day pass. *)
Definition weekAlerts (st : Pass) : list string :=
  let alerts := pushed st in
  let alerts := if 1 <=? heavyRainDays st then alerts ++ [alert_rain] else alerts in
  let alerts := if 3 <=? maxHeatStreak st then alerts ++ [alert_drought] else alerts in
  if length alerts =? 0 then alerts ++ [alert_none] else alerts.

(** [analyzeWeather(daily)]; [base] is where the module-level constant
    [detailedSoilData] lives in the store. *)
Definition analyzeWeather (base : loc) (daily : list WeatherDaily) : M Result :=
  let st := dayPass daily in
  let alerts := weekAlerts st in
  text ← JSON_stringify base;
  adjusted ← JSON_parse text;
  (if 1 <=? heavyRainDays st then rainAdjust adjusted else mret tt);;
  (if 3 <=? maxHeatStreak st then heatAdjust adjusted else mret tt);;
  setStatus adjusted;;
  mret {| alerts := Array_from_Set alerts;
          adjustedSoil := adjusted;
          recs := makeRecs (heavyRainDays st) (maxHeatStreak st) daily |}.

(** The store right after the module is loaded: the object literal
    [detailedSoilData] has been built, and nothing else. *)
Definition initial : option (loc * heap) := JSON_parse detailedSoilData [].

(** ** The adjustment, read on the content of the record

    The same steps as [rainAdjust], [heatAdjust] and [setStatus], acting
    on the content a location denotes instead of on the store.  An element
    of an array is named by its index. *)

Fixpoint find_index (p : Entry -> bool) (es : list Entry) : option nat :=
  match es with
  | [] => None
  | e :: es' => if p e then Some 0 else S <$> find_index p es'
  end.

Definition rewrite_value_at (f : field) (o : option nat) (g : number -> string)
    (s : Soil) : Soil :=
  match o with
  | Some i =>
      match get_field f s !! i with
      | Some e =>
          set_field f
            (<[i := mkEntry (name e) (g (num (Str (value e)))) (status e)]>
               (get_field f s)) s
      | None => s
      end
  | None => s
  end.

Definition num_at (f : field) (o : option nat) (s : Soil) : number :=
  match o ≫= (fun i => get_field f s !! i) with
  | Some e => num (Str (value e))
  | None => num (Num (of_Z 0))
  end.

Definition set_at (f : field) (n : string) (st : string) (s : Soil) : Soil :=
  match find_index (hasName n) (get_field f s) with
  | Some i =>
      match get_field f s !! i with
      | Some e =>
          set_field f (<[i := mkEntry (name e) (value e) st]> (get_field f s)) s
      | None => s
      end
  | None => s
  end.

Definition rainAdjusted (s : Soil) : Soil :=
  let n := find_index (includesName "(N)") (macroNutrients s) in
  let k := find_index (includesName "(K)") (macroNutrients s) in
  let pH := find_index (includesName "pH") (general s) in
  let oc := find_index (includesName "Organic Carbon") (general s) in
  let s := rewrite_value_at Macro n
             (fun v => kg_ha (Math_max (of_Z 0) (mul v (lit 9 1)))) s in
  let s := rewrite_value_at Macro k
             (fun v => kg_ha (Math_max (of_Z 0) (mul v (lit 92 2)))) s in
  let s := rewrite_value_at General pH
             (fun v => Js.toFixed (Math_max (of_Z 0) (sub v (lit 1 1))) 1) s in
  rewrite_value_at General oc
    (fun v => percent (Math_max (of_Z 0) (mul v (lit 98 2)))) s.

Definition heatAdjusted (s : Soil) : Soil :=
  let k := find_index (includesName "(K)") (macroNutrients s) in
  let pH := find_index (includesName "pH") (general s) in
  let oc := find_index (includesName "Organic Carbon") (general s) in
  let s := rewrite_value_at Macro k
             (fun v => kg_ha (Math_max (of_Z 0) (mul v (lit 95 2)))) s in
  let s := rewrite_value_at General pH
             (fun v => Js.toFixed (add v (lit 1 1)) 1) s in
  rewrite_value_at General oc (fun v => percent (mul v (lit 103 2))) s.

Definition statusSet (s : Soil) : Soil :=
  let n := num_at Macro (find_index (includesName "(N)") (macroNutrients s)) s in
  let p := num_at Macro (find_index (includesName "(P)") (macroNutrients s)) s in
  let k := num_at Macro (find_index (includesName "(K)") (macroNutrients s)) s in
  let pH := num_at General (find_index (includesName "pH") (general s)) s in
  let oc :=
    num_at General (find_index (includesName "Organic Carbon") (general s)) s in
  let s := set_at Macro "Nitrogen (N)" (grade (of_Z 250) (of_Z 350) n) s in
  let s := set_at Macro "Phosphorus (P)" (grade (of_Z 12) (of_Z 30) p) s in
  let s := set_at Macro "Potassium (K)" (grade (of_Z 150) (of_Z 300) k) s in
  let s := set_at General "pH Level" (grade (lit 60 1) (lit 75 1) pH) s in
  set_at General "Organic Carbon (OC)" (grade (lit 75 2) (lit 15 1) oc) s.

(** The content of [adjusted] when [analyzeWeather] returns, from the
    content of the baseline and the two week-level signals. *)
Definition adjustedContent (heavyRain heat : bool) (s : Soil) : Soil :=
  let s := if heavyRain then rainAdjusted s else s in
  let s := if heat then heatAdjusted s else s in
  statusSet s.

(** ** How a soil record sits in the store *)

(** The locations a record occupies: its root, its three arrays, and the
    entry objects of each array. *)
Record shape := mkShape {
  sh_root : loc;
  sh_arr : field -> loc;
  sh_elems : field -> list loc;
}.

Definition entries_at (h : heap) (ls : list loc) (es : list Entry) : Prop :=
  Forall2 (fun l e => h !! l = Some (Obj e)) ls es.

(** [h] holds the record [s] at the locations of [sh]. *)
Definition repr (h : heap) (sh : shape) (s : Soil) : Prop :=
  h !! sh_root sh = Some (Rec (sh_arr sh General) (sh_arr sh Macro) (sh_arr sh Micro))
  /\ forall f, h !! sh_arr sh f = Some (Arr (sh_elems sh f))
               /\ entries_at h (sh_elems sh f) (get_field f s).

(** All locations of a shape. *)
Definition shape_locs (sh : shape) : list loc :=
  sh_root sh :: map (sh_arr sh) [General; Macro; Micro]
    ++ sh_elems sh General ++ sh_elems sh Macro ++ sh_elems sh Micro.

(** No entry object is shared between two positions. *)
Definition unshared (sh : shape) : Prop :=
  NoDup (sh_elems sh General ++ sh_elems sh Macro ++ sh_elems sh Micro).

(** The locations reachable from a root in a store. *)
Definition reachable (h : heap) (r : loc) (l : loc) : Prop :=
  l = r \/
  exists g ma mi, h !! r = Some (Rec g ma mi) /\
    (l = g \/ l = ma \/ l = mi \/
     exists a ls, (a = g \/ a = ma \/ a = mi) /\ h !! a = Some (Arr ls) /\ l ∈ ls).

(** * Alerts, as the specification words them *)

(** The length of the run of days satisfying [p] that starts the list. *)
Fixpoint run_length {A} (p : A -> bool) (l : list A) : nat :=
  match l with
  | x :: t => if p x then S (run_length p t) else 0
  | [] => 0
  end.

(** The maximum run of consecutive days satisfying [p]. *)
Fixpoint longest_run {A} (p : A -> bool) (l : list A) : nat :=
  match l with
  | [] => 0
  | _ :: t => Nat.max (run_length p l) (longest_run p t)
  end.

(** The alerts a single day gives rise to. *)
Definition dayAlerts (d : WeatherDaily) : list string :=
  (if isWindy d then [alert_wind] else [])
  ++ (if isHumidWarm d then [alert_fungal] else []).

(** Every alert some rule fires, in the order the rules are met. *)
Definition firedAlerts (daily : list WeatherDaily) : list string :=
  concat (map dayAlerts daily)
  ++ (if existsb isHeavyRain daily then [alert_rain] else [])
  ++ (if 3 <=? longest_run isDryHot daily then [alert_drought] else []).

(** Duplicates removed, the first occurrence of each string kept. *)
Fixpoint dedup (l : list string) : list string :=
  match l with
  | [] => []
  | x :: t => x :: filter (fun y => y ≠ x) (dedup t)
  end.

Definition specAlerts (daily : list WeatherDaily) : list string :=
  match firedAlerts daily with
  | [] => [alert_none]
  | fired => dedup fired
  end.

(** * Unit conversion *)

Definition conversionFactors : gmap string number :=
  {[ "sq_m" := of_Z 1;
     "sq_ft" := lit 107639 4;
     "acres" := lit 247105 9;
     "hectares" := lit 1 4;
     "bigha" := lit 74752 9;
     "katha" := lit 149505 8 ]}.

(** [conversionFactors[unit]]; a missing key reads [undefined], which
    turns into NaN in a product. *)
Definition factor (u : string) : number :=
  default NaN (conversionFactors !! u).

(** The value the first effect of [Dashboard] hands to [setDisplayedArea]. *)
Definition displayedArea (fieldAreaInSqM : number) (u : string) : string :=
  if gtb fieldAreaInSqM (of_Z 0)
  then Js.toFixed (mul fieldAreaInSqM (factor u)) 2
  else "0.00".

(** A positive rational rounded to six significant figures: the pair
    [(m, k)] with [100000 <= m < 1000000] stands for [m / 10^k]. *)
Fixpoint sig6_scale (fuel : nat) (q : Q) (k : Z) : Q * Z :=
  match fuel with
  | O => (q, k)
  | S fuel' =>
      if Qle_bool 1000000 q then sig6_scale fuel' (q / 10)%Q (k - 1)%Z
      else if Qle_bool 100000 q then (q, k)
      else sig6_scale fuel' (q * 10)%Q (k + 1)%Z
  end.

Definition sig6 (q : Q) : Z * Z :=
  let '(q', k) := sig6_scale 700 q 0%Z in
  let m := ((2 * Qnum q' + Zpos (Qden q')) / (2 * Zpos (Qden q')))%Z in
  if (m =? 1000000)%Z then (100000, k - 1)%Z else (m, k).

(** * Convex hulls of exact positions *)

Definition Qsum (l : list Q) : Q := fold_right Qplus 0%Q l.

(** The combination of the numbers [xs] with the weights [ws]. *)
Definition combine_with (ws xs : list Q) : Q := Qsum (zip_with Qmult ws xs).

(** [p] is a convex combination of the points [pts]. *)
Definition in_convex_hull (pts : list (Q * Q)) (p : Q * Q) : Prop :=
  exists ws : list Q,
    length ws = length pts /\
    Forall (fun w => (0 <= w)%Q) ws /\
    (Qsum ws == 1)%Q /\
    (fst p == combine_with ws (map fst pts))%Q /\
    (snd p == combine_with ws (map snd pts))%Q.

(** Twice the signed area of the triangle [p q r]. *)
Definition orient (p q r : Q * Q) : Q :=
  ((fst q - fst p) * (snd r - snd p) - (fst r - fst p) * (snd q - snd p))%Q.

(** A convex polygon listed in boundary order: every vertex lies on the
    same side of every edge. *)
Definition convex_polygon (pts : list (Q * Q)) : Prop :=
  (forall e r, e ∈ edges pts -> r ∈ pts -> (0 <= orient (fst e) (snd e) r)%Q) \/
  (forall e r, e ∈ edges pts -> r ∈ pts -> (orient (fst e) (snd e) r <= 0)%Q).

(** The exact position of a binary64 point. *)
Definition exact_point (p : LatLon number) : Q * Q := (to_Q (lat p), to_Q (lon p)).

Definition exact_coords (coords : list (number * number)) : list (Q * Q) :=
  map (fun c => (to_Q (fst c), to_Q (snd c))) coords.

(** * Auxiliary definitions for the proofs *)

(** [m] runs to completion from [h], and its result and final store
    satisfy [Q]. *)
Definition runs {A} (m : M A) (h : heap) (Q : A -> heap -> Prop) : Prop :=
  exists a h', m h = Some (a, h') /\ Q a h'.

(** The element of an array of the record at [sh] that an index names. *)
Definition ref_of (sh : shape) (f : field) (o : option nat) : option loc :=
  o ≫= (fun i => sh_elems sh f !! i).

(** The state of a call in progress: [h0] is the store at the time of the
    call and [sh] the shape of the copy; the copy holds content [s] and the
    cells of [h0] are as they were. *)
Definition Inv (h0 : heap) (sh : shape) (s : Soil) (h : heap) : Prop :=
  (exists ext, h = h0 ++ ext) /\ repr h sh s.

(** The cells [JSON.parse] appends for one array. *)
Definition array_block (n : nat) (es : list Entry) : list cell :=
  map Obj es ++ [Arr (seq n (length es))].

(** The shape and the cells of the record [JSON.parse] builds for [s] in
    a store of [n] cells. *)
Definition fresh_shape (n : nat) (s : Soil) : shape :=
  let kg := length (general s) in
  let kma := length (macroNutrients s) in
  let kmi := length (microNutrients s) in
  let n2 := n + kg + 1 in
  let n3 := n2 + kma + 1 in
  {| sh_root := n3 + kmi + 1;
     sh_arr := fun f => match f with
                        | General => n + kg
                        | Macro => n2 + kma
                        | Micro => n3 + kmi
                        end;
     sh_elems := fun f => match f with
                          | General => seq n kg
                          | Macro => seq n2 kma
                          | Micro => seq n3 kmi
                          end |}.

Definition fresh_cells (n : nat) (s : Soil) : list cell :=
  let sh := fresh_shape n s in
  array_block n (general s)
  ++ array_block (n + length (general s) + 1) (macroNutrients s)
  ++ array_block (n + length (general s) + 1 + length (macroNutrients s) + 1)
       (microNutrients s)
  ++ [Rec (sh_arr sh General) (sh_arr sh Macro) (sh_arr sh Micro)].

(** * Sample inputs *)

(** Where the baseline is, and the store, right after the module is
    loaded. *)
Definition initial_base : loc := from_option fst 0 initial.
Definition initial_store : heap := from_option snd [] initial.

Definition mkDay (p tmax : number) (r w hu : option number) : WeatherDaily :=
  mkWeatherDaily (of_Z 0) (Temp.mk (of_Z 10) tmax) p r w hu None.

(** pop 0.1, rain 0, wind 2, humidity 40, max temperature 25 *)
Definition calmDay : WeatherDaily :=
  mkDay (lit 1 1) (of_Z 25) (Some (of_Z 0)) (Some (of_Z 2)) (Some (of_Z 40)).

(** A calm day but for 55 mm of rain. *)
Definition wetDay : WeatherDaily :=
  mkDay (lit 1 1) (of_Z 25) (Some (of_Z 55)) (Some (of_Z 2)) (Some (of_Z 40)).

(** pop 0.1, max temperature 36, no rain. *)
Definition hotDay : WeatherDaily :=
  mkDay (lit 1 1) (of_Z 36) (Some (of_Z 0)) (Some (of_Z 2)) (Some (of_Z 40)).

(** A day whose optional fields are all absent. *)
Definition bareDay : WeatherDaily :=
  mkDay (lit 9 1) (of_Z 40) None None None.

Definition calmWeek : list WeatherDaily := replicate 7 calmDay.

Definition wetWeek : list WeatherDaily :=
  [calmDay; calmDay; wetDay; calmDay; calmDay; calmDay; calmDay].

Definition hotWeek : list WeatherDaily :=
  [calmDay; calmDay; hotDay; hotDay; hotDay; calmDay; calmDay].

(** The entry of a given name in an array, and what it displays. *)
Definition entryOf (n : string) (es : list Entry) : option Entry :=
  List.find (hasName n) es.

Definition valueOf (n : string) (es : list Entry) : option string :=
  value <$> entryOf n es.

(** The status of the entry called [n] is the grade of the number it
    displays. *)
Definition graded (n : string) (lo hi : number) (es : list Entry) : Prop :=
  exists e, entryOf n es = Some e /\
            status e = grade lo hi (num (Str (value e))).

(** The recommendations [Dashboard] starts with, before any forecast. *)
Definition defaultRecs : Recs := {|
  fertilizer := "Balanced NPK (10-5-20). Base dose with top-up based on soil test and crop stage.";
  zinc := "Apply Zinc Sulphate (21%) ~10 kg/acre at soil prep or 0.5% foliar if deficiency persists.";
  pH := "Use dolomitic lime if Mg is low.";
  irrigation := "Irrigate 2–3 days interval based on field condition.";
  pest := "Keep scouting for aphids/whiteflies; use yellow sticky traps; spot-treat with Imidacloprid if needed.";
|}.

(** * Sample polygons *)

(** A square of side 0.0001 (some ten metres, in degrees) with a corner
    at latitude 28.6, longitude 77.2. *)
Definition smallSquare : list (number * number) :=
  let x := lit 286 1 in
  let y := lit 772 1 in
  let s := lit 1 4 in
  [(x, y); (add x s, y); (add x s, add y s); (x, add y s)].

(** Three vertices one degree of latitude and one degree of longitude
    apart: (60.87, 169.49), (61.87, 170.49), (62.87, 171.49). *)
Definition collinearTriple : list (number * number) :=
  [(lit 6087 2, lit 16949 2); (lit 6187 2, lit 17049 2);
   (lit 6287 2, lit 17149 2)].

(** All vertices are on one line. *)
Definition collinear (pts : list (Q * Q)) : Prop :=
  forall p q r, p ∈ pts -> q ∈ pts -> r ∈ pts -> (orient p q r == 0)%Q.

(** Some three vertices are not on one line. *)
Definition not_all_collinear (pts : list (Q * Q)) : Prop :=
  exists p q r, p ∈ pts /\ q ∈ pts /\ r ∈ pts /\ ~ (orient p q r == 0)%Q.

(** * Charts, handlers and effects of the [Dashboard] component *)

(** ** Pie-chart data *)

(** One [{ name, value }] slice of a pie chart. *)
Record Slice := mkSlice { slice_name : string; slice_value : number }.

(** What [buildPieFromSoil] returns: [{ macro, general, micro }]. *)
Module Pie.
Record t := mk { macro : list Slice; general : list Slice; micro : list Slice }.
End Pie.

Definition macroPieData : list Slice := [
  mkSlice "Nitrogen (N)" (of_Z 210);
  mkSlice "Phosphorus (P)" (of_Z 15);
  mkSlice "Potassium (K)" (of_Z 120) ].

Definition generalPieData : list Slice := [
  mkSlice "pH Level" (lit 58 1);
  mkSlice "Organic Carbon (%)" (lit 45 2) ].

Definition microPieData : list Slice := [
  mkSlice "Zinc (Zn)" (lit 5 1);
  mkSlice "Iron (Fe)" (lit 48 1) ].

Definition buildPieFromSoil (soil : loc) : M Pie.t :=
  ma ← load_field Macro soil;
  o ← find ma (includesName "(N)"); n ← num_of o;
  ma ← load_field Macro soil;
  o ← find ma (includesName "(P)"); p ← num_of o;
  ma ← load_field Macro soil;
  o ← find ma (includesName "(K)"); k ← num_of o;
  let macro := [ mkSlice "Nitrogen (N)" n;
                 mkSlice "Phosphorus (P)" p;
                 mkSlice "Potassium (K)" k ] in
  g ← load_field General soil;
  o ← find g (includesName "pH"); pH ← num_of o;
  g ← load_field General soil;
  o ← find g (includesName "Organic Carbon"); oc ← num_of o;
  let general := [ mkSlice "pH Level" pH;
                   mkSlice "Organic Carbon (%)" oc ] in
  mi ← load_field Micro soil;
  o ← find mi (includesName "(Zn)"); zn ← num_of o;
  mi ← load_field Micro soil;
  o ← find mi (includesName "(Fe)"); fe ← num_of o;
  let micro := [ mkSlice "Zinc (Zn)" zn;
                 mkSlice "Iron (Fe)" fe ] in
  mret (Pie.mk macro general micro).

(** The number a chart shows for [key], read on the content of a record:
    that of the first entry of the array [f] whose name includes [key],
    and 0 when there is none. *)
Definition chartValue (f : field) (key : string) (s : Soil) : number :=
  num_at f (find_index (includesName key) (get_field f s)) s.

(** The charts of a record, from its content. *)
Definition pieOfContent (s : Soil) : Pie.t :=
  Pie.mk
    [ mkSlice "Nitrogen (N)" (chartValue Macro "(N)" s);
      mkSlice "Phosphorus (P)" (chartValue Macro "(P)" s);
      mkSlice "Potassium (K)" (chartValue Macro "(K)" s) ]
    [ mkSlice "pH Level" (chartValue General "pH" s);
      mkSlice "Organic Carbon (%)" (chartValue General "Organic Carbon" s) ]
    [ mkSlice "Zinc (Zn)" (chartValue Micro "(Zn)" s);
      mkSlice "Iron (Fe)" (chartValue Micro "(Fe)" s) ].

(** The slices of one chart, and the (lookup key, slice name) pairs
    [buildPieFromSoil] fills it from. *)
Definition slices (f : field) (p : Pie.t) : list Slice :=
  match f with
  | General => Pie.general p
  | Macro => Pie.macro p
  | Micro => Pie.micro p
  end.

Definition chartKeys (f : field) : list (string * string) :=
  match f with
  | General => [("pH", "pH Level"); ("Organic Carbon", "Organic Carbon (%)")]
  | Macro => [("(N)", "Nitrogen (N)"); ("(P)", "Phosphorus (P)");
              ("(K)", "Potassium (K)")]
  | Micro => [("(Zn)", "Zinc (Zn)"); ("(Fe)", "Iron (Fe)")]
  end.

(** The entry called [n], if there is one, has the grade of the number
    the chart [f] shows in the slice called [slice]. *)
Definition gradedAsCharted (f : field) (n slice : string) (lo hi : number)
    (s : Soil) (p : Pie.t) : Prop :=
  forall e, entryOf n (get_field f s) = Some e ->
    exists v, mkSlice slice v ∈ slices f p /\ status e = grade lo hi v.

(** Two records with the same names and values, entry by entry. *)
Definition sameValues (s s' : Soil) : Prop :=
  forall f, Forall2 (fun e e' => name e' = name e /\ value e' = value e)
              (get_field f s) (get_field f s').

(** ** Strings that [num] reads *)

Fixpoint all_digits (s : string) : bool :=
  match s with
  | EmptyString => true
  | String c t => Js.is_digit c && all_digits t
  end.

Fixpoint has_digit (s : string) : bool :=
  match s with
  | EmptyString => false
  | String c t => Js.is_digit c || has_digit t
  end.

(** What may follow a numeral without being read as part of it: nothing,
    or a character that is neither a digit nor a point. *)
Definition boundary (s : string) : bool :=
  match s with
  | EmptyString => true
  | String c _ => negb (Js.is_digit c) && negb (Ascii.eqb c ".")
  end.

(** The numbers [toFixed] writes in fixed notation: finite, and below
    1e21 in absolute value. *)
Definition fixedNotation (x : number) : bool :=
  match x with
  | S754_zero _ | S754_finite _ _ _ =>
      negb (geb (abs x) (lit 1000000000000000000000 0))
  | _ => false
  end.

(** Two days that agree on the five fields of the rules: [pop], [rain],
    [wind_speed], [humidity] and [temp.max]. *)
Definition sameSignals (d d' : WeatherDaily) : Prop :=
  pop d = pop d' /\ rain d = rain d' /\ wind_speed d = wind_speed d' /\
  humidity d = humidity d' /\ Temp.max (temp d) = Temp.max (temp d').

(** A calm day as the forecast service might send it, with a date, a
    minimum temperature and a description. *)
Definition calmDayInFull : WeatherDaily :=
  mkWeatherDaily (of_Z 1700000000) (Temp.mk (of_Z (-3)) (of_Z 25)) (lit 1 1)
    (Some (of_Z 0)) (Some (of_Z 2)) (Some (of_Z 40))
    (Some [mkWeatherInfo "Clouds" "scattered clouds" "03d"]).

(** ** Truthiness *)

(** Whether a number counts as true in a condition: neither 0 nor NaN. *)
Definition truthy (x : number) : bool :=
  match x with
  | S754_zero _ | S754_nan => false
  | _ => true
  end.

(** The same for a string that may be [undefined]: present and not empty. *)
Definition nonempty (s : option string) : bool :=
  match s with
  | Some (String _ _) => true
  | _ => false
  end.

(** And for a value that is an object, [null] or [undefined]. *)
Definition present {X} (o : option X) : bool :=
  match o with
  | Some _ => true
  | None => false
  end.

(** [x === y] on numbers. *)
Definition strict_eq (x y : number) : bool := SFeqb x y.

(** ** The field the user selected: [handleMapLocationSelect] *)

Module Field.
(** The state cells that describe the field. *)
Record t := mk {
  location : string;
  fieldAreaInSqM : number;
  fieldPolygon : list (number * number);
  coords : option (LatLon number);
}.

(** The cells of a freshly mounted component. *)
Definition init : t := mk "" (of_Z 0) [] None.
End Field.

(** [coordinates] and [areaInSqMeters] are optional arguments. *)
Definition handleMapLocationSelect (selectedLocation : string)
    (coordinates : option (list (number * number)))
    (areaInSqMeters : option number) (st : Field.t) : Field.t :=
  let st := Field.mk selectedLocation (Field.fieldAreaInSqM st)
              (Field.fieldPolygon st) (Field.coords st) in
  let st :=
    match areaInSqMeters with
    | Some a =>
        if truthy a
        then Field.mk (Field.location st) a (Field.fieldPolygon st) (Field.coords st)
        else st
    | None => st
    end in
  match coordinates with
  | Some cs =>
      if negb (length cs =? 0) then
        let st := Field.mk (Field.location st) (Field.fieldAreaInSqM st) cs
                    (Field.coords st) in
        match computeCentroid cs with
        | Some cen =>
            Field.mk (Field.location st) (Field.fieldAreaInSqM st)
              (Field.fieldPolygon st) (Some cen)
        | None => st
        end
      else st
  | None => st
  end.

(** The states the field cells can be in: the initial one, and those a
    call of the handler leads to. *)
Inductive fieldStates : Field.t -> Prop :=
  | fieldStates_init : fieldStates Field.init
  | fieldStates_select st l cs a :
      fieldStates st -> fieldStates (handleMapLocationSelect l cs a st).

(** ** The weather effect: [fetchWeather] *)

(** [data.current], as far as the page reads it. *)
Record Current := mkCurrent {
  cur_temp : number;
  cur_humidity : number;
  cur_wind_speed : number;
  cur_weather : option (list WeatherInfo);
}.

(** The body of a reply of the forecast service; either property may be
    missing.  The days are taken to have the shape [WeatherDaily]
    declares. *)
Record OneCall := mkOneCall {
  current : option Current;
  daily : option (list WeatherDaily);
}.

(** How an awaited promise settles: with a value, or by throwing [e],
    of which the handler reads [e.message]. *)
Inductive Settled (A : Type) :=
  | Resolved (a : A)
  | Thrown (message : option string).
Arguments Resolved {A} _.
Arguments Thrown {A} _.

(** A [Response]: its status, and how [res.json()] settles. *)
Record Response := mkResponse {
  res_status : N;
  res_json : Settled OneCall;
}.

(** [res.ok]: the status is in the range 200-299. *)
Definition res_ok (res : Response) : bool :=
  ((200 <=? res_status res) && (res_status res <=? 299))%N.

Module Weather.
(** The state cells [fetchWeather] writes. *)
Record t := mk {
  weatherLoading : bool;
  weatherError : option string;
  currentWeather : option Current;
  dailyForecast : list WeatherDaily;
  adaptiveSoil : loc;
  adaptiveMacroPie : list Slice;
  adaptiveGeneralPie : list Slice;
  adaptiveMicroPie : list Slice;
  weatherAlerts : list string;
  adaptiveRecs : Recs;
}.

Definition setWeatherLoading (b : bool) (st : t) : t :=
  mk b (weatherError st) (currentWeather st) (dailyForecast st)
    (adaptiveSoil st) (adaptiveMacroPie st) (adaptiveGeneralPie st)
    (adaptiveMicroPie st) (weatherAlerts st) (adaptiveRecs st).

Definition setWeatherError (e : option string) (st : t) : t :=
  mk (weatherLoading st) e (currentWeather st) (dailyForecast st)
    (adaptiveSoil st) (adaptiveMacroPie st) (adaptiveGeneralPie st)
    (adaptiveMicroPie st) (weatherAlerts st) (adaptiveRecs st).

(** The cells of a freshly mounted component; [base] is where
    [detailedSoilData] lives. *)
Definition init (base : loc) : t :=
  mk false None None [] base macroPieData generalPieData microPieData []
    defaultRecs.
End Weather.

Definition missing_key : string :=
  "Missing API key: Please add VITE_OWM_KEY to your .env file.".

(** The [try] block, once the request has settled as [reply]: the state
    it leaves, or what it throws.  Every statement that can throw comes
    before the first setter. *)
Definition fetchWeather_try (base : loc) (reply : Settled Response)
    (st : Weather.t) : M (Settled Weather.t) :=
  match reply with
  | Thrown e => mret (Thrown e)
  | Resolved res =>
      if negb (res_ok res) then
        mret (Thrown (Some (if (res_status res =? 401)%N then "Invalid API key"
                            else "Weather API error: " +:+ Js.digits (res_status res))))
      else
        match res_json res with
        | Thrown e => mret (Thrown e)
        | Resolved data =>
            let next7 := take 7 (default [] (daily data)) in
            r ← analyzeWeather base next7;
            p ← buildPieFromSoil (adjustedSoil r);
            mret (Resolved
                    (Weather.mk (Weather.weatherLoading st) (Weather.weatherError st)
                       (current data) next7 (adjustedSoil r)
                       (Pie.macro p) (Pie.general p) (Pie.micro p)
                       (alerts r) (recs r)))
        end
  end.

(** One run of [fetchWeather], from the call to its completion.
    [coords] and [fieldAreaInSqM] are the values the effect closed over,
    [apiKey] is [import.meta.env.VITE_OWM_KEY], and [reply] is how the
    request settles. *)
Definition fetchWeather (coords : option (LatLon number)) (fieldAreaInSqM : number)
    (apiKey : option string) (base : loc) (reply : Settled Response)
    (st : Weather.t) : M Weather.t :=
  if negb (present coords) || leb fieldAreaInSqM (of_Z 0) then mret st
  else
    let st := Weather.setWeatherLoading true st in
    let st := Weather.setWeatherError None st in
    if negb (nonempty apiKey) then
      let st := Weather.setWeatherError (Some missing_key) st in
      mret (Weather.setWeatherLoading false st)
    else
      r ← fetchWeather_try base reply st;
      let st :=
        match r with
        | Resolved st' => st'
        | Thrown e =>
            Weather.setWeatherError
              (Some (if nonempty e then default "" e else "Failed to fetch weather")) st
        end in
      mret (Weather.setWeatherLoading false st).

(** Whether a run of [fetchWeather] sends a request. *)
Definition requests (coords : option (LatLon number)) (fieldAreaInSqM : number)
    (apiKey : option string) : bool :=
  negb (negb (present coords) || leb fieldAreaInSqM (of_Z 0)) && nonempty apiKey.

(** The body the request delivers: the reply has an ok status and its
    JSON parses. *)
Definition replyData (reply : Settled Response) : option OneCall :=
  match reply with
  | Resolved res =>
      if res_ok res then
        match res_json res with
        | Resolved data => Some data
        | Thrown _ => None
        end
      else None
  | Thrown _ => None
  end.

(** The cells that hold what the last forecast gave. *)
Definition forecastCells (st : Weather.t) :=
  (Weather.currentWeather st, Weather.dailyForecast st, Weather.adaptiveSoil st,
   Weather.adaptiveMacroPie st, Weather.adaptiveGeneralPie st,
   Weather.adaptiveMicroPie st, Weather.weatherAlerts st, Weather.adaptiveRecs st).

(** The charts in the state. *)
Definition adaptivePies (st : Weather.t) : Pie.t :=
  Pie.mk (Weather.adaptiveMacroPie st) (Weather.adaptiveGeneralPie st)
    (Weather.adaptiveMicroPie st).

(** A field centre, an area and a key with which the effect sends a
    request. *)
Definition sampleCentre : option (LatLon number) :=
  Some (mkLatLon (lit 286 1) (lit 772 1)).

Definition sampleArea : number := of_Z 4000.

Definition sampleKey : option string := Some "0123456789abcdef".

(** A reply with status 200 and the given days. *)
Definition okReply (days : list WeatherDaily) : Settled Response :=
  Resolved (mkResponse 200 (Resolved (mkOneCall None (Some days)))).

(** ** What the weather card shows *)

Inductive Panel :=
  | Prompt                     (* "Select your field on the map ..." *)
  | Spinner                    (* "Fetching weather data..." *)
  | Failure (text : string)    (* "Failed to load weather: ..." *)
  | Forecast.                  (* current weather and the day cards *)

Definition weatherPanel (coords : option (LatLon number)) (fieldAreaInSqM : number)
    (st : Weather.t) : Panel :=
  if negb (present coords) || strict_eq fieldAreaInSqM (of_Z 0) then Prompt
  else if Weather.weatherLoading st then Spinner
  else if nonempty (Weather.weatherError st)
       then Failure ("Failed to load weather: " +:+ default "" (Weather.weatherError st))
       else Forecast.

(** [weatherAlerts[0] || 'No unusual weather risks detected this week.'] *)
Definition headline (st : Weather.t) : string :=
  match Weather.weatherAlerts st with
  | String c a :: _ => String c a
  | _ => "No unusual weather risks detected this week."
  end.

(** ** Status badges and icons *)

(** [toLowerCase], on the letters A-Z. *)
Definition lower (c : ascii) : ascii :=
  let n := nat_of_ascii c in
  if (65 <=? n) && (n <=? 90) then ascii_of_nat (n + 32) else c.

Fixpoint toLowerCase (s : string) : string :=
  match s with
  | EmptyString => EmptyString
  | String c t => String (lower c) (toLowerCase t)
  end.

(** A [<Badge>] element: its [variant], if given, and its text. *)
Record Badge := mkBadge { variant : option string; label : string }.

Inductive Icon := AlertCircle | CheckCircle | TrendingUp.

Definition getStatusBadge (status : string) : option Badge :=
  let s := toLowerCase status in
  if String.eqb s "low" then Some (mkBadge (Some "destructive") "Low")
  else if String.eqb s "optimal" then Some (mkBadge None "Optimal")
  else if String.eqb s "high" then Some (mkBadge (Some "secondary") "High")
  else None.

Definition getStatusIcon (status : string) : option Icon :=
  let s := toLowerCase status in
  if String.eqb s "low" then Some AlertCircle
  else if String.eqb s "optimal" then Some CheckCircle
  else if String.eqb s "high" then Some TrendingUp
  else None.

(** ** The zones drawn over the field map *)

Section Overlay.
Context {A : Type} `{Arith A}.

(** [[(p[0] + q[0]) / 2, (p[1] + q[1]) / 2]] *)
Definition midpoint (p q : A * A) : A * A :=
  ((fst p + fst q) / num_lit 2 0, (snd p + snd q) / num_lit 2 0)%ar.

(** What the map card evaluates to. *)
Inductive MapCard :=
  | NoMap                                        (* the placeholder icon *)
  | Zones (outline green amber : list (A * A))   (* the three polygons *)
  | TypeError.                                   (* an index of [undefined] *)

(** Indexing [fieldPolygon] beyond its end gives [undefined], and reading
    a coordinate of [undefined] throws. *)
Definition fieldMap (coords : option (LatLon A)) (fieldPolygon : list (A * A))
  : MapCard :=
  if present coords && (0 <? length fieldPolygon) then
    match fieldPolygon !! 0, fieldPolygon !! 1, fieldPolygon !! 2, fieldPolygon !! 3 with
    | Some p0, Some p1, Some p2, Some p3 =>
        Zones fieldPolygon
          [p0; midpoint p0 p1; midpoint p3 p2; p3]
          [p1; p2; midpoint p3 p2; midpoint p0 p1]
    | _, _, _, _ => TypeError
    end
  else NoMap.

End Overlay.
Arguments MapCard : clear implicits.

(** ** What an adjustment may change *)

(** The substrings by which the adjustments look an entry up, and the
    names by which [setStatus] does, for each array. *)
Definition valueKeys (f : field) : list string :=
  match f with
  | General => ["pH"; "Organic Carbon"]
  | Macro => ["(N)"; "(K)"]
  | Micro => []
  end.

Definition statusNames (f : field) : list string :=
  match f with
  | General => ["pH Level"; "Organic Carbon (OC)"]
  | Macro => ["Nitrogen (N)"; "Phosphorus (P)"; "Potassium (K)"]
  | Micro => []
  end.

(** [e'] is [e] but, possibly, for the value, should the name of [e]
    include a lookup key, and for the status, should [e] bear one of the
    graded names. *)
Definition sameBut (f : field) (e e' : Entry) : Prop :=
  name e' = name e /\
  (value e' = value e \/ exists k, k ∈ valueKeys f /\ Js.includes k (name e) = true) /\
  (status e' = status e \/ name e ∈ statusNames f).

Definition adjusts (s s' : Soil) : Prop :=
  forall f, Forall2 (sameBut f) (get_field f s) (get_field f s').

(** * Checks of the number and string model *)

(** The literals of the source denote the binary64 numbers a JavaScript
    engine reads: 0.1 is [0x1.999999999999ap-4]. *)
Example lit_tenth : lit 1 1 = S754_finite false 7205759403792794 (-56).
Proof. reflexivity. Qed.

Example lit_half : lit 5 1 = S754_finite false 4503599627370496 (-53).
Proof. reflexivity. Qed.

(** [0.1 + 0.2] is not [0.3]. *)
Example tenth_plus_fifth : add (lit 1 1) (lit 2 1) <> lit 3 1.
Proof. vm_compute. discriminate. Qed.

(** [toFixed] rounds the exact binary value, half away from zero. *)
Example toFixed_tie : Js.toFixed (lit 25 1) 0 = "3".
Proof. reflexivity. Qed.

Example toFixed_below_tie : Js.toFixed (lit 1005 3) 2 = "1.00".
Proof. reflexivity. Qed.

Example toFixed_negative : Js.toFixed (lit (-1) 3) 2 = "-0.00".
Proof. reflexivity. Qed.

Example toFixed_pads : Js.toFixed (lit 5 3) 2 = "0.01".
Proof. reflexivity. Qed.

Example toFixed_large : Js.toFixed (lit 15 0) 0 = "15"
  /\ Js.toFixed (mul (lit 1000000000000000000000 0) (lit 15 1)) 2 = "1.5e+21".
Proof. split; vm_compute; reflexivity. Qed.

Example toFixed_NaN : Js.toFixed NaN 2 = "NaN".
Proof. reflexivity. Qed.

(** [num] reads the first numeral of a display string, and 0 when there
    is none. *)
Example num_kg : num (Str "210 kg/ha") = of_Z 210.
Proof. reflexivity. Qed.

Example num_percent : num (Str "0.45%") = lit 45 2.
Proof. reflexivity. Qed.

Example num_signed : num (Str "about -12.50 units") = lit (-125) 1.
Proof. vm_compute. reflexivity. Qed.

Example num_none : num (Str "n/a") = of_Z 0.
Proof. reflexivity. Qed.

Example num_number : num (Num (lit 58 1)) = lit 58 1.
Proof. reflexivity. Qed.

Example includes_key :
  Js.includes "(N)" "Nitrogen (N)" = true /\ Js.includes "(K)" "Nitrogen (N)" = false.
Proof. split; reflexivity. Qed.

Example Set_keeps_first :
  Array_from_Set ["a"; "b"; "a"; "c"; "b"] = ["a"; "b"; "c"].
Proof. reflexivity. Qed.

(** The centroid of the square of side 100 centred at the origin is the
    origin. *)
Example square_centroid_binary64 :
  computeCentroid
    [(of_Z (-50), of_Z (-50)); (of_Z 50, of_Z (-50));
     (of_Z 50, of_Z 50); (of_Z (-50), of_Z 50)]
  = Some (mkLatLon (S754_zero false) (S754_zero false)).
Proof. vm_compute. reflexivity. Qed.

(** A run on the store the module starts with. *)
Example calm_week_run :
  exists res h',
    analyzeWeather initial_base calmWeek initial_store = Some (res, h') /\
    alerts res = [alert_none] /\
    readSoil (adjustedSoil res) h' = Some detailedSoilData /\
    recs res = defaultRecs /\
    length h' = 22.
Proof. eexists _, _. split; [vm_compute; reflexivity |]. repeat split. Qed.

(** * Reasoning about store computations *)

Lemma bind_eq {A B} (m : M A) (k : A -> M B) h :
  (m ≫= k) h = match m h with Some (a, h') => k a h' | None => None end.
Proof. reflexivity. Qed.

Lemma runs_ret {A} (a : A) h (Q : A -> heap -> Prop) : Q a h -> runs (mret a) h Q.
Proof. intros HQ. exists a, h. split; [reflexivity | exact HQ]. Qed.

Lemma runs_bind {A B} (m : M A) (k : A -> M B) h (Q : B -> heap -> Prop) :
  runs m h (fun a h1 => runs (k a) h1 Q) -> runs (m ≫= k) h Q.
Proof.
  intros (a & h1 & Hm & b & h2 & Hk & HQ).
  exists b, h2. rewrite bind_eq, Hm. auto.
Qed.

Lemma runs_mono {A} (m : M A) h (Q Q' : A -> heap -> Prop) :
  runs m h Q -> (forall a h', Q a h' -> Q' a h') -> runs m h Q'.
Proof. intros (a & h' & Hm & HQ) Himp. exists a, h'. auto. Qed.

Lemma runs_load l h c : h !! l = Some c -> runs (load l) h (fun a h' => a = c /\ h' = h).
Proof. intros Hl. exists c, h. unfold load. rewrite Hl. auto. Qed.

Lemma runs_load_obj l h e :
  h !! l = Some (Obj e) -> runs (load_obj l) h (fun a h' => a = e /\ h' = h).
Proof.
  intros Hl. apply runs_bind. eapply runs_mono; [apply runs_load, Hl |].
  intros a h' [-> ->]. apply runs_ret. auto.
Qed.

Lemma runs_load_arr l h ls :
  h !! l = Some (Arr ls) -> runs (load_arr l) h (fun a h' => a = ls /\ h' = h).
Proof.
  intros Hl. apply runs_bind. eapply runs_mono; [apply runs_load, Hl |].
  intros a h' [-> ->]. apply runs_ret. auto.
Qed.

Lemma runs_alloc c h :
  runs (alloc c) h (fun l h' => l = length h /\ h' = h ++ [c]).
Proof. exists (length h), (h ++ [c]). auto. Qed.

Lemma runs_store l c c0 h :
  h !! l = Some c0 -> runs (store l c) h (fun _ h' => h' = <[l := c]> h).
Proof. intros Hl. exists tt, (<[l := c]> h). unfold store. rewrite Hl. auto. Qed.

(** ** Entry objects of an array *)

Lemma entries_at_lookup h ls es i l :
  entries_at h ls es -> ls !! i = Some l ->
  exists e, es !! i = Some e /\ h !! l = Some (Obj e).
Proof.
  intros Hall Hl.
  destruct (Forall2_lookup_l _ _ _ _ _ Hall Hl) as (e & He & Hle). eauto.
Qed.

Lemma entries_at_length h ls es : entries_at h ls es -> length ls = length es.
Proof. apply Forall2_length. Qed.

Lemma entries_at_insert_other h ls es l c :
  l ∉ ls -> entries_at h ls es -> entries_at (<[l := c]> h) ls es.
Proof.
  intros Hnot Hall. unfold entries_at in *.
  induction Hall as [| l' e ls' es' Hl _ IH]; constructor; simpl in *.
  - rewrite list_lookup_insert_ne; [exact Hl |].
    intros ->. apply Hnot. left.
  - apply IH. intros Hin. apply Hnot. right. exact Hin.
Qed.

Lemma entries_at_insert h ls es l i e' :
  NoDup ls -> entries_at h ls es -> ls !! i = Some l ->
  entries_at (<[l := Obj e']> h) ls (<[i := e']> es).
Proof.
  intros Hnd Hall. revert i.
  induction Hall as [| l' e ls' es' Hl Hall' IH]; intros i Hi; [done |].
  apply NoDup_cons in Hnd as [Hnot Hnd].
  destruct i as [| i]; simpl in *.
  - injection Hi as ->. constructor; simpl.
    + apply list_lookup_insert_eq. apply lookup_lt_Some in Hl. exact Hl.
    + apply entries_at_insert_other; assumption.
  - constructor; simpl.
    + rewrite list_lookup_insert_ne; [exact Hl |].
      intros ->. apply Hnot. eapply list_elem_of_lookup_2. exact Hi.
    + apply IH; assumption.
Qed.

Lemma entries_at_app h ext ls es : entries_at h ls es -> entries_at (h ++ ext) ls es.
Proof.
  intros Hall. eapply Forall2_impl; [exact Hall |].
  intros l e Hl. simpl in *. apply lookup_app_l_Some. exact Hl.
Qed.

(** ** Reading is the same on the store and on the content *)

Lemma runs_find_elem p h ls es :
  entries_at h ls es ->
  runs (find_elem p ls) h
    (fun o h' => h' = h /\ o = find_index p es ≫= (fun i => ls !! i)).
Proof.
  intros Hall. induction Hall as [| l e ls' es' Hl _ IH]; simpl.
  - apply runs_ret. auto.
  - apply runs_bind. eapply runs_mono; [apply runs_load_obj, Hl |].
    intros a h' [-> ->]. simpl. destruct (p e).
    + apply runs_ret. auto.
    + eapply runs_mono; [exact IH |].
      intros o h' [-> ->]. split; [reflexivity |].
      destruct (find_index p es'); reflexivity.
Qed.

Lemma runs_read_entries h ls es :
  entries_at h ls es ->
  runs (read_entries ls) h (fun r h' => r = es /\ h' = h).
Proof.
  intros Hall. induction Hall as [| l e ls' es' Hl _ IH]; simpl.
  - apply runs_ret. auto.
  - apply runs_bind. eapply runs_mono; [apply runs_load_obj, Hl |].
    intros a h' [-> ->]. apply runs_bind. eapply runs_mono; [exact IH |].
    intros r h' [-> ->]. apply runs_ret. auto.
Qed.

Lemma get_set_field f es s : get_field f (set_field f es s) = es.
Proof. destruct f; reflexivity. Qed.

Lemma get_set_field_ne f f' es s :
  f <> f' -> get_field f' (set_field f es s) = get_field f' s.
Proof. destruct f, f'; simpl; congruence. Qed.

(** One statement of the record-adjusting code: run it, keep what its
    specification says. *)
Ltac run_step lem :=
  apply runs_bind; eapply runs_mono; [eapply lem; eassumption |];
  cbv beta.

Ltac run_read lem := run_step lem; intros ? ? [-> ->].
Ltac run_write lem := run_step lem; intros _ ? ?.

Section Simulation.
Variables (h0 : heap) (sh : shape).
Hypothesis Hunshared : unshared sh.
Hypothesis Hfresh : forall f l, l ∈ sh_elems sh f -> length h0 <= l.

Lemma unshared_field f : NoDup (sh_elems sh f).
Proof.
  unfold unshared in Hunshared.
  apply NoDup_app in Hunshared as (Hg & _ & Hrest).
  apply NoDup_app in Hrest as (Hma & _ & Hmi).
  destruct f; assumption.
Qed.

Lemma unshared_other f f' l :
  f <> f' -> l ∈ sh_elems sh f -> l ∉ sh_elems sh f'.
Proof.
  unfold unshared in Hunshared.
  apply NoDup_app in Hunshared as (_ & Hg & Hrest).
  apply NoDup_app in Hrest as (_ & Hma & _).
  intros Hne Hin Hin'.
  destruct f, f'; try congruence.
  - apply (Hg l Hin). apply elem_of_app. auto.
  - apply (Hg l Hin). apply elem_of_app. auto.
  - apply (Hg l Hin'). apply elem_of_app. auto.
  - apply (Hma l Hin Hin').
  - apply (Hg l Hin'). apply elem_of_app. auto.
  - apply (Hma l Hin' Hin).
Qed.

Lemma repr_store h s f i l e' :
  repr h sh s -> sh_elems sh f !! i = Some l ->
  repr (<[l := Obj e']> h) sh (set_field f (<[i := e']> (get_field f s)) s).
Proof.
  intros [Hroot Hfields] Hi.
  destruct (Hfields f) as [_ Hall].
  destruct (entries_at_lookup _ _ _ _ _ Hall Hi) as (e & _ & Hl).
  split.
  - rewrite list_lookup_insert_ne; [exact Hroot | congruence].
  - intros f'. destruct (Hfields f') as [Harr Hall']. split.
    + rewrite list_lookup_insert_ne; [exact Harr | congruence].
    + destruct (decide (f = f')) as [<- | Hne].
      * rewrite get_set_field.
        apply entries_at_insert; [apply unshared_field | assumption ..].
      * rewrite get_set_field_ne by exact Hne.
        apply entries_at_insert_other; [| exact Hall'].
        apply (unshared_other f f'); [exact Hne |].
        eapply list_elem_of_lookup_2. exact Hi.
Qed.

Lemma Inv_store h s f i l e' :
  Inv h0 sh s h -> sh_elems sh f !! i = Some l ->
  Inv h0 sh (set_field f (<[i := e']> (get_field f s)) s) (<[l := Obj e']> h).
Proof.
  intros [[ext ->] Hrepr] Hi. split.
  - exists (<[l - length h0 := Obj e']> ext).
    apply insert_app_r_alt. apply (Hfresh f).
    eapply list_elem_of_lookup_2. exact Hi.
  - apply repr_store; assumption.
Qed.

Lemma runs_load_field h s f :
  Inv h0 sh s h ->
  runs (load_field f (sh_root sh)) h (fun a h' => a = sh_arr sh f /\ h' = h).
Proof.
  intros [_ [Hroot _]]. apply runs_bind.
  eapply runs_mono; [apply runs_load, Hroot |].
  intros a h' [-> ->]. apply runs_ret. destruct f; auto.
Qed.

Lemma runs_find h s f p :
  Inv h0 sh s h ->
  runs (find (sh_arr sh f) p) h
    (fun o h' => h' = h /\ o = ref_of sh f (find_index p (get_field f s))).
Proof.
  intros [_ [_ Hfields]]. destruct (Hfields f) as [Harr Hall].
  apply runs_bind. eapply runs_mono; [apply runs_load_arr, Harr |].
  intros a h' [-> ->]. apply runs_find_elem, Hall.
Qed.

Lemma runs_rewrite_value h s f o g :
  Inv h0 sh s h ->
  runs (rewrite_value (ref_of sh f o) g) h
    (fun _ h' => Inv h0 sh (rewrite_value_at f o g s) h').
Proof.
  intros HInv. unfold rewrite_value, rewrite_value_at, ref_of.
  destruct o as [i |]; simpl; [| apply runs_ret, HInv].
  destruct (sh_elems sh f !! i) as [l |] eqn:Hi.
  - pose proof HInv as [_ [_ Hfields]]. destruct (Hfields f) as [_ Hall].
    destruct (entries_at_lookup _ _ _ _ _ Hall Hi) as (e & He & Hl).
    rewrite He. apply runs_bind.
    eapply runs_mono; [apply runs_load_obj, Hl |].
    intros a h' [-> ->]. apply runs_bind.
    eapply runs_mono; [apply runs_load_obj, Hl |].
    intros a h' [-> ->].
    eapply runs_mono; [eapply runs_store, Hl |].
    intros _ h' ->. eapply Inv_store; eassumption.
  - pose proof HInv as [_ [_ Hfields]]. destruct (Hfields f) as [_ Hall].
    apply entries_at_length in Hall. apply lookup_ge_None in Hi.
    rewrite (lookup_ge_None_2 (get_field f s) i) by lia.
    apply runs_ret, HInv.
Qed.

Lemma runs_num_of h s f o :
  Inv h0 sh s h ->
  runs (num_of (ref_of sh f o)) h (fun x h' => h' = h /\ x = num_at f o s).
Proof.
  intros [_ [_ Hfields]]. destruct (Hfields f) as [_ Hall].
  unfold num_of, num_at, ref_of.
  destruct o as [i |]; simpl; [| apply runs_ret; auto].
  destruct (sh_elems sh f !! i) as [l |] eqn:Hi.
  - destruct (entries_at_lookup _ _ _ _ _ Hall Hi) as (e & He & Hl).
    rewrite He. apply runs_bind.
    eapply runs_mono; [apply runs_load_obj, Hl |].
    intros a h' [-> ->]. apply runs_ret. auto.
  - apply entries_at_length in Hall. apply lookup_ge_None in Hi.
    rewrite (lookup_ge_None_2 (get_field f s) i) by lia.
    apply runs_ret. auto.
Qed.

Lemma runs_set h s f n st :
  Inv h0 sh s h ->
  runs (set (sh_arr sh f) n st) h (fun _ h' => Inv h0 sh (set_at f n st s) h').
Proof.
  intros HInv. unfold set, set_at.
  apply runs_bind. eapply runs_mono; [eapply runs_find, HInv |].
  intros o h' [-> ->]. unfold ref_of.
  pose proof HInv as [_ [_ Hfields]]. destruct (Hfields f) as [_ Hall].
  destruct (find_index (hasName n) (get_field f s)) as [i |] eqn:Hfi; simpl;
    [| apply runs_ret, HInv].
  destruct (sh_elems sh f !! i) as [l |] eqn:Hi.
  - destruct (entries_at_lookup _ _ _ _ _ Hall Hi) as (e & He & Hl).
    rewrite He. apply runs_bind.
    eapply runs_mono; [eapply runs_find, HInv |].
    intros o h' [-> ->]. unfold ref_of. rewrite Hfi. simpl. rewrite Hi.
    apply runs_bind. eapply runs_mono; [apply runs_load_obj, Hl |].
    intros a h' [-> ->].
    eapply runs_mono; [eapply runs_store, Hl |].
    intros _ h' ->. eapply Inv_store; eassumption.
  - apply entries_at_length in Hall. apply lookup_ge_None in Hi.
    rewrite (lookup_ge_None_2 (get_field f s) i) by lia.
    apply runs_ret, HInv.
Qed.

Lemma runs_rainAdjust h s :
  Inv h0 sh s h ->
  runs (rainAdjust (sh_root sh)) h (fun _ h' => Inv h0 sh (rainAdjusted s) h').
Proof.
  intros HInv. unfold rainAdjust, rainAdjusted.
  run_read runs_load_field. run_read runs_find.
  run_read runs_load_field. run_read runs_find.
  run_read runs_load_field. run_read runs_find.
  run_read runs_load_field. run_read runs_find.
  run_write runs_rewrite_value.
  run_write runs_rewrite_value.
  run_write runs_rewrite_value.
  eapply runs_rewrite_value. eassumption.
Qed.

Lemma runs_heatAdjust h s :
  Inv h0 sh s h ->
  runs (heatAdjust (sh_root sh)) h (fun _ h' => Inv h0 sh (heatAdjusted s) h').
Proof.
  intros HInv. unfold heatAdjust, heatAdjusted.
  run_read runs_load_field. run_read runs_find.
  run_read runs_load_field. run_read runs_find.
  run_read runs_load_field. run_read runs_find.
  run_write runs_rewrite_value.
  run_write runs_rewrite_value.
  eapply runs_rewrite_value. eassumption.
Qed.

Lemma runs_setStatus h s :
  Inv h0 sh s h ->
  runs (setStatus (sh_root sh)) h (fun _ h' => Inv h0 sh (statusSet s) h').
Proof.
  intros HInv. unfold setStatus, statusSet.
  run_read runs_load_field. run_read runs_find. run_read runs_num_of.
  run_read runs_load_field. run_read runs_find. run_read runs_num_of.
  run_read runs_load_field. run_read runs_find. run_read runs_num_of.
  run_read runs_load_field. run_read runs_find. run_read runs_num_of.
  run_read runs_load_field. run_read runs_find. run_read runs_num_of.
  run_read runs_load_field. run_write runs_set.
  run_read runs_load_field. run_write runs_set.
  run_read runs_load_field. run_write runs_set.
  run_read runs_load_field. run_write runs_set.
  run_read runs_load_field. eapply runs_set. eassumption.
Qed.

(** The two conditional steps after the copy. *)
Lemma runs_rain_if (rain : bool) h s :
  Inv h0 sh s h ->
  runs (if rain then rainAdjust (sh_root sh) else mret tt) h
    (fun _ h' => Inv h0 sh (if rain then rainAdjusted s else s) h').
Proof.
  intros HInv. destruct rain; [apply runs_rainAdjust, HInv | apply runs_ret, HInv].
Qed.

Lemma runs_heat_if (heat : bool) h s :
  Inv h0 sh s h ->
  runs (if heat then heatAdjust (sh_root sh) else mret tt) h
    (fun _ h' => Inv h0 sh (if heat then heatAdjusted s else s) h').
Proof.
  intros HInv. destruct heat; [apply runs_heatAdjust, HInv | apply runs_ret, HInv].
Qed.

End Simulation.

(** ** [JSON.parse] builds a fresh, unshared record *)

Lemma runs_alloc_entries es h :
  runs (alloc_entries es) h
    (fun ls h' => h' = h ++ map Obj es /\ ls = seq (length h) (length es)).
Proof.
  revert h. induction es as [| e es IH]; intros h; simpl.
  - apply runs_ret. rewrite app_nil_r. auto.
  - apply runs_bind. eapply runs_mono; [apply runs_alloc |].
    intros l h1 [-> ->]. apply runs_bind.
    eapply runs_mono; [apply IH |].
    intros ls h2 [-> ->]. apply runs_ret.
    rewrite <- app_assoc, length_app. simpl.
    rewrite Nat.add_1_r. auto.
Qed.

Lemma runs_alloc_array es h :
  runs (alloc_array es) h
    (fun a h' => a = length h + length es /\
                 h' = h ++ map Obj es ++ [Arr (seq (length h) (length es))]).
Proof.
  apply runs_bind. eapply runs_mono; [apply runs_alloc_entries |].
  intros ls h1 [-> ->]. eapply runs_mono; [apply runs_alloc |].
  intros a h2 [-> ->]. rewrite length_app, length_map, <- app_assoc. auto.
Qed.

Lemma entries_at_fresh h es ext :
  entries_at (h ++ map Obj es ++ ext) (seq (length h) (length es)) es.
Proof.
  revert h. induction es as [| e es IH]; intros h; simpl; constructor; simpl.
  - apply list_lookup_middle. reflexivity.
  - specialize (IH (h ++ [Obj e])).
    rewrite <- app_assoc, length_app in IH. simpl in IH.
    rewrite Nat.add_1_r in IH. exact IH.
Qed.

Lemma array_block_length n es : length (array_block n es) = S (length es).
Proof. unfold array_block. rewrite length_app, length_map. simpl. lia. Qed.

Lemma array_block_ok h es ext :
  let h' := h ++ array_block (length h) es ++ ext in
  h' !! (length h + length es) = Some (Arr (seq (length h) (length es)))
  /\ entries_at h' (seq (length h) (length es)) es.
Proof.
  simpl. unfold array_block. split.
  - rewrite lookup_app_r by lia.
    replace (length h + length es - length h) with (length (map Obj es))
      by (rewrite length_map; lia).
    rewrite <- app_assoc. apply list_lookup_middle. reflexivity.
  - rewrite <- app_assoc. apply entries_at_fresh.
Qed.

Lemma runs_JSON_parse s h :
  runs (JSON_parse s) h
    (fun r h' => r = sh_root (fresh_shape (length h) s)
                 /\ h' = h ++ fresh_cells (length h) s).
Proof.
  unfold JSON_parse, fresh_cells.
  apply runs_bind. eapply runs_mono; [apply runs_alloc_array |].
  intros g h1 [-> ->]. apply runs_bind.
  eapply runs_mono; [apply runs_alloc_array |].
  intros ma h2 [-> ->]. apply runs_bind.
  eapply runs_mono; [apply runs_alloc_array |].
  intros mi h3 [-> ->]. eapply runs_mono; [apply runs_alloc |].
  intros r h4 [-> ->]. simpl.
  fold (array_block (length h) (general s)).
  set (h1 := h ++ array_block (length h) (general s)).
  assert (H1 : length h1 = length h + length (general s) + 1).
  { unfold h1. rewrite length_app, array_block_length. lia. }
  fold (array_block (length h1) (macroNutrients s)).
  set (h2 := h1 ++ array_block (length h1) (macroNutrients s)).
  assert (H2 : length h2 = length h1 + length (macroNutrients s) + 1).
  { unfold h2. rewrite length_app, array_block_length. lia. }
  fold (array_block (length h2) (microNutrients s)).
  set (h3 := h2 ++ array_block (length h2) (microNutrients s)).
  assert (H3 : length h3 = length h2 + length (microNutrients s) + 1).
  { unfold h3. rewrite length_app, array_block_length. lia. }
  split; [lia |].
  unfold h3, h2, h1 in *. rewrite H2, H1. rewrite <- !app_assoc.
  reflexivity.
Qed.

Lemma fresh_shape_repr h s :
  repr (h ++ fresh_cells (length h) s) (fresh_shape (length h) s) s.
Proof.
  unfold fresh_cells.
  set (n := length h).
  set (b1 := array_block n (general s)).
  set (b2 := array_block (n + length (general s) + 1) (macroNutrients s)).
  set (b3 := array_block (n + length (general s) + 1
                          + length (macroNutrients s) + 1) (microNutrients s)).
  set (root := Rec _ _ _).
  assert (L1 : length (h ++ b1) = n + length (general s) + 1).
  { rewrite length_app. unfold b1. rewrite array_block_length. lia. }
  assert (L2 : length ((h ++ b1) ++ b2)
               = n + length (general s) + 1 + length (macroNutrients s) + 1).
  { rewrite length_app, L1. unfold b2. rewrite array_block_length. lia. }
  assert (L3 : length (((h ++ b1) ++ b2) ++ b3)
               = n + length (general s) + 1 + length (macroNutrients s) + 1
                 + length (microNutrients s) + 1).
  { rewrite length_app, L2. unfold b3. rewrite array_block_length. lia. }
  split.
  - replace (h ++ b1 ++ b2 ++ b3 ++ [root])
      with ((((h ++ b1) ++ b2) ++ b3) ++ [root])
      by (rewrite <- !app_assoc; reflexivity).
    simpl. rewrite <- L3. apply list_lookup_middle. reflexivity.
  - intros [| |]; simpl.
    + apply (array_block_ok h (general s) (b2 ++ b3 ++ [root])).
    + pose proof (array_block_ok (h ++ b1) (macroNutrients s) (b3 ++ [root]))
        as Hok.
      simpl in Hok. rewrite L1 in Hok. fold b2 in Hok.
      rewrite <- !app_assoc in Hok. exact Hok.
    + pose proof (array_block_ok ((h ++ b1) ++ b2) (microNutrients s) [root])
        as Hok.
      simpl in Hok. rewrite L2 in Hok. fold b3 in Hok.
      rewrite <- !app_assoc in Hok. exact Hok.
Qed.

Lemma fresh_shape_unshared n s : unshared (fresh_shape n s).
Proof.
  unfold unshared. simpl.
  apply NoDup_app. split; [apply NoDup_seq |]. split.
  - intros l Hl Hl'. apply elem_of_seq in Hl.
    apply elem_of_app in Hl' as [Hl' | Hl']; apply elem_of_seq in Hl'; lia.
  - apply NoDup_app. split; [apply NoDup_seq |]. split; [| apply NoDup_seq].
    intros l Hl Hl'. apply elem_of_seq in Hl, Hl'. lia.
Qed.

Lemma fresh_shape_locs n s l : l ∈ shape_locs (fresh_shape n s) -> n <= l.
Proof.
  unfold shape_locs. simpl. rewrite !elem_of_cons, !elem_of_app.
  rewrite !elem_of_seq. lia.
Qed.

Lemma shape_locs_elems sh f l : l ∈ sh_elems sh f -> l ∈ shape_locs sh.
Proof.
  intros Hl. unfold shape_locs. simpl.
  rewrite !elem_of_cons, !elem_of_app. destruct f; auto 10.
Qed.

(** ** [JSON.stringify] reads the record a shape holds, and only reads *)

Lemma Inv_nil h sh s : repr h sh s -> Inv [] sh s h.
Proof. intros Hr. split; [exists h; reflexivity | exact Hr]. Qed.

Lemma runs_read_array h sh s f :
  repr h sh s ->
  runs (read_array (sh_arr sh f)) h (fun es h' => es = get_field f s /\ h' = h).
Proof.
  intros [_ Hfields]. destruct (Hfields f) as [Harr Hall].
  apply runs_bind. eapply runs_mono; [apply runs_load_arr, Harr |].
  intros ls h' [-> ->]. apply runs_read_entries, Hall.
Qed.

Lemma repr_stringify h sh s :
  repr h sh s -> JSON_stringify (sh_root sh) h = Some (s, h).
Proof.
  intros Hr. pose proof (Inv_nil _ _ _ Hr) as HInv.
  assert (Hruns : runs (JSON_stringify (sh_root sh)) h
                    (fun t h' => t = s /\ h' = h)).
  { unfold JSON_stringify.
    run_read runs_load_field. run_read runs_read_array.
    run_read runs_load_field. run_read runs_read_array.
    run_read runs_load_field. run_read runs_read_array.
    apply runs_ret. destruct s; auto. }
  destruct Hruns as (t & h' & Heq & -> & ->). exact Heq.
Qed.

Lemma repr_readSoil h sh s : repr h sh s -> readSoil (sh_root sh) h = Some s.
Proof. intros Hr. unfold readSoil. rewrite (repr_stringify _ _ _ Hr). done. Qed.

Lemma bind_inv {A B} (m : M A) (k : A -> M B) h b h2 :
  (m ≫= k) h = Some (b, h2) ->
  exists a h1, m h = Some (a, h1) /\ k a h1 = Some (b, h2).
Proof.
  rewrite bind_eq. destruct (m h) as [[a h1] |]; [| discriminate]. eauto.
Qed.

Lemma load_inv l h c h' : load l h = Some (c, h') -> h !! l = Some c /\ h' = h.
Proof.
  unfold load. destruct (h !! l); [| discriminate].
  intros [= -> ->]. auto.
Qed.

Lemma load_obj_inv l h e h' :
  load_obj l h = Some (e, h') -> h !! l = Some (Obj e) /\ h' = h.
Proof.
  intros Hb. apply bind_inv in Hb as (c & h1 & Hl & Hk).
  apply load_inv in Hl as [Hl ->].
  destruct c; try discriminate. injection Hk as -> ->. auto.
Qed.

Lemma load_arr_inv l h ls h' :
  load_arr l h = Some (ls, h') -> h !! l = Some (Arr ls) /\ h' = h.
Proof.
  intros Hb. apply bind_inv in Hb as (c & h1 & Hl & Hk).
  apply load_inv in Hl as [Hl ->].
  destruct c; try discriminate. injection Hk as -> ->. auto.
Qed.

Lemma load_field_inv f r h a h' :
  load_field f r h = Some (a, h') ->
  h' = h /\ exists g ma mi, h !! r = Some (Rec g ma mi) /\
    a = match f with General => g | Macro => ma | Micro => mi end.
Proof.
  intros Hb. apply bind_inv in Hb as (c & h1 & Hl & Hk).
  apply load_inv in Hl as [Hl ->].
  destruct c; try discriminate. injection Hk as <- <-. eauto 10.
Qed.

Lemma read_entries_inv ls h es h' :
  read_entries ls h = Some (es, h') -> entries_at h ls es /\ h' = h.
Proof.
  revert es h'. induction ls as [| l ls IH]; intros es h'; simpl.
  - intros [= <- <-]. split; [constructor | reflexivity].
  - intros Hb. apply bind_inv in Hb as (e & h1 & Hl & Hb).
    apply load_obj_inv in Hl as [Hl ->].
    apply bind_inv in Hb as (es' & h2 & Hrest & Hk).
    apply IH in Hrest as [Hall ->]. injection Hk as <- <-.
    split; [constructor; assumption | reflexivity].
Qed.

Lemma read_array_inv a h es h' :
  read_array a h = Some (es, h') ->
  h' = h /\ exists ls, h !! a = Some (Arr ls) /\ entries_at h ls es.
Proof.
  intros Hb. apply bind_inv in Hb as (ls & h1 & Hl & Hk).
  apply load_arr_inv in Hl as [Hl ->].
  apply read_entries_inv in Hk as [Hall ->]. eauto.
Qed.

Lemma stringify_inv r h s h' :
  JSON_stringify r h = Some (s, h') ->
  h' = h /\ exists sh, sh_root sh = r /\ repr h sh s.
Proof.
  unfold JSON_stringify. intros Hb.
  apply bind_inv in Hb as (g & h1 & Hg & Hb).
  apply load_field_inv in Hg as (-> & g0 & ma0 & mi0 & Hroot & ->).
  apply bind_inv in Hb as (gs & h1 & Hgs & Hb).
  apply read_array_inv in Hgs as (-> & lg & Hlg & Hallg).
  apply bind_inv in Hb as (ma & h1 & Hma & Hb).
  apply load_field_inv in Hma as (-> & g1 & ma1 & mi1 & Hroot1 & ->).
  apply bind_inv in Hb as (mas & h1 & Hmas & Hb).
  apply read_array_inv in Hmas as (-> & lma & Hlma & Hallma).
  apply bind_inv in Hb as (mi & h1 & Hmi & Hb).
  apply load_field_inv in Hmi as (-> & g2 & ma2 & mi2 & Hroot2 & ->).
  apply bind_inv in Hb as (mis & h1 & Hmis & Hb).
  apply read_array_inv in Hmis as (-> & lmi & Hlmi & Hallmi).
  injection Hb as <- <-.
  rewrite Hroot in Hroot1, Hroot2.
  injection Hroot1 as <- <- <-. injection Hroot2 as <- <- <-.
  split; [reflexivity |].
  exists {| sh_root := r;
            sh_arr := fun f => match f with
                               | General => g0 | Macro => ma0 | Micro => mi0
                               end;
            sh_elems := fun f => match f with
                                 | General => lg | Macro => lma | Micro => lmi
                                 end |}.
  split; [reflexivity |]. split; [exact Hroot |].
  intros [| |]; simpl; auto.
Qed.

Lemma readSoil_repr r h s :
  readSoil r h = Some s -> exists sh, sh_root sh = r /\ repr h sh s.
Proof.
  unfold readSoil. destruct (JSON_stringify r h) as [[t h'] |] eqn:Heq;
    [| discriminate].
  simpl. intros [= ->]. apply stringify_inv in Heq as [_ Hsh]. exact Hsh.
Qed.

Lemma repr_app h ext sh s : repr h sh s -> repr (h ++ ext) sh s.
Proof.
  intros [Hroot Hfields]. split.
  - apply lookup_app_l_Some, Hroot.
  - intros f. destruct (Hfields f) as [Harr Hall]. split.
    + apply lookup_app_l_Some, Harr.
    + apply entries_at_app, Hall.
Qed.

(** ** What can be reached from a record *)

Lemma repr_reachable h sh s l :
  repr h sh s -> reachable h (sh_root sh) l <-> l ∈ shape_locs sh.
Proof.
  intros [Hroot Hfields]. unfold reachable, shape_locs. simpl.
  rewrite !elem_of_cons, !elem_of_app. split.
  - intros [-> | (g & ma & mi & Hr & Hl)]; [auto |].
    rewrite Hroot in Hr. injection Hr as <- <- <-.
    destruct Hl as [-> | [-> | [-> | (a & ls & Ha & Harr & Hin)]]]; auto.
    destruct Ha as [-> | [-> | ->]].
    + destruct (Hfields General) as [Hg _]. rewrite Hg in Harr.
      injection Harr as <-. auto 10.
    + destruct (Hfields Macro) as [Hg _]. rewrite Hg in Harr.
      injection Harr as <-. auto 10.
    + destruct (Hfields Micro) as [Hg _]. rewrite Hg in Harr.
      injection Harr as <-. auto 10.
  - intros [-> | Hl]; [auto |]. right.
    exists (sh_arr sh General), (sh_arr sh Macro), (sh_arr sh Micro).
    split; [exact Hroot |].
    destruct Hl as [-> | [-> | [-> | [Hl | [Hl | Hl]]]]]; auto.
    + do 3 right. exists (sh_arr sh General), (sh_elems sh General).
      destruct (Hfields General). auto.
    + do 3 right. exists (sh_arr sh Macro), (sh_elems sh Macro).
      destruct (Hfields Macro). auto.
    + do 3 right. exists (sh_arr sh Micro), (sh_elems sh Micro).
      destruct (Hfields Micro). auto.
Qed.

Lemma repr_locs_valid h sh s l : repr h sh s -> l ∈ shape_locs sh -> l < length h.
Proof.
  intros [Hroot Hfields]. unfold shape_locs. simpl.
  rewrite !elem_of_cons, !elem_of_app.
  assert (Helems : forall f, l ∈ sh_elems sh f -> l < length h).
  { intros f Hl. destruct (Hfields f) as [_ Hall].
    apply list_elem_of_lookup_1 in Hl as [i Hi].
    destruct (entries_at_lookup _ _ _ _ _ Hall Hi) as (e & _ & Hle).
    eapply lookup_lt_Some, Hle. }
  intros [-> | [-> | [-> | [-> | [Hl | [Hl | Hl]]]]]].
  - eapply lookup_lt_Some, Hroot.
  - destruct (Hfields General) as [Ha _]. eapply lookup_lt_Some, Ha.
  - destruct (Hfields Macro) as [Ha _]. eapply lookup_lt_Some, Ha.
  - destruct (Hfields Micro) as [Ha _]. eapply lookup_lt_Some, Ha.
  - apply (Helems General), Hl.
  - apply (Helems Macro), Hl.
  - apply (Helems Micro), Hl.
Qed.

(** ** The run of [analyzeWeather] on any store that holds the baseline *)

Lemma analyzeWeather_runs base daily h s :
  readSoil base h = Some s ->
  runs (analyzeWeather base daily) h (fun res h' =>
    let st := dayPass daily in
    let sh := fresh_shape (length h) s in
    alerts res = Array_from_Set (weekAlerts st) /\
    recs res = makeRecs (heavyRainDays st) (maxHeatStreak st) daily /\
    adjustedSoil res = sh_root sh /\
    (exists ext, h' = h ++ ext) /\
    repr h' sh
      (adjustedContent (1 <=? heavyRainDays st) (3 <=? maxHeatStreak st) s)).
Proof.
  intros Hread.
  destruct (readSoil_repr _ _ _ Hread) as (sh0 & <- & Hbase).
  unfold analyzeWeather. cbv zeta.
  apply runs_bind. exists s, h. split; [apply repr_stringify, Hbase |].
  apply runs_bind. eapply runs_mono; [apply runs_JSON_parse |].
  intros r h1 [-> ->].
  set (sh := fresh_shape (length h) s).
  assert (HInv : Inv h sh s (h ++ fresh_cells (length h) s)).
  { split; [eexists; reflexivity | apply fresh_shape_repr]. }
  assert (Hfresh : forall f l, l ∈ sh_elems sh f -> length h <= l).
  { intros f l Hl. apply (fresh_shape_locs _ s).
    eapply shape_locs_elems, Hl. }
  pose proof (fresh_shape_unshared (length h) s) as Hun. fold sh in Hun.
  run_write runs_rain_if. run_write runs_heat_if. run_write runs_setStatus.
  apply runs_ret. simpl. auto.
Qed.

(** * The day pass and the alert list *)

(** [longest_run] is the length of the longest block of consecutive
    elements that all satisfy [p]. *)
Lemma run_length_take {A} (p : A -> bool) l k :
  k <= run_length p l -> length (take k l) = k /\ Forall (fun x => p x = true) (take k l).
Proof.
  revert k. induction l as [| x t IH]; intros k Hk; simpl in *.
  - assert (k = 0) as -> by lia. split; [reflexivity | constructor].
  - destruct k as [| k]; [split; [reflexivity | constructor] |].
    destruct (p x) eqn:Hp; [| lia].
    destruct (IH k) as [Hlen Hall]; [lia |].
    simpl. split; [lia | constructor; assumption].
Qed.

Lemma run_length_le_longest {A} (p : A -> bool) l : run_length p l <= longest_run p l.
Proof. destruct l; simpl; lia. Qed.

Lemma run_length_block {A} (p : A -> bool) r l :
  Forall (fun x => p x = true) r -> length r <= run_length p (r ++ l).
Proof.
  induction 1 as [| x r Hx _ IH]; simpl; [lia |]. rewrite Hx. lia.
Qed.

Lemma longest_run_app_r {A} (p : A -> bool) l1 l :
  longest_run p l <= longest_run p (l1 ++ l).
Proof. induction l1 as [| x t IH]; simpl; lia. Qed.

Lemma longest_run_spec {A} (p : A -> bool) l k :
  k <= longest_run p l <->
  exists l1 r l2, l = l1 ++ r ++ l2 /\ length r = k /\ Forall (fun x => p x = true) r.
Proof.
  split.
  - induction l as [| x t IH]; intros Hk.
    + simpl in Hk. assert (k = 0) as -> by lia.
      exists [], [], []. repeat split. constructor.
    + destruct (le_lt_dec k (run_length p (x :: t))) as [Hrun | Hrun].
      * destruct (run_length_take p (x :: t) k Hrun) as [Hlen Hall].
        exists [], (take k (x :: t)), (drop k (x :: t)).
        rewrite app_nil_l, take_drop. auto.
      * destruct IH as (l1 & r & l2 & -> & Hlen & Hall).
        { change (longest_run p (x :: t))
            with (Nat.max (run_length p (x :: t)) (longest_run p t)) in Hk.
          lia. }
        exists (x :: l1), r, l2. auto.
  - intros (l1 & r & l2 & -> & <- & Hall).
    etransitivity; [apply (run_length_block p r l2 Hall) |].
    etransitivity; [apply run_length_le_longest |].
    apply longest_run_app_r.
Qed.

(** The variables of the day pass after any number of days. *)
Lemma dayPass_from l st :
  droughtStreak st <= maxHeatStreak st ->
  let st' := fold_left dayStep l st in
  pushed st' = pushed st ++ concat (map dayAlerts l) /\
  heavyRainDays st' = heavyRainDays st + length (List.filter isHeavyRain l) /\
  maxHeatStreak st' =
    Nat.max (maxHeatStreak st)
      (Nat.max (droughtStreak st + run_length isDryHot l) (longest_run isDryHot l)) /\
  droughtStreak st' <= maxHeatStreak st'.
Proof.
  revert st. induction l as [| d t IH]; intros st Hst; simpl.
  - rewrite app_nil_r. repeat split; lia.
  - destruct (IH (dayStep st d)) as (Hp & Hh & Hm & Hd).
    { unfold dayStep. simpl. lia. }
    pose proof (run_length_le_longest isDryHot t) as Hle.
    split; [| split; [| split; [| exact Hd]]].
    + rewrite Hp. unfold dayStep, dayAlerts. simpl.
      destruct (isWindy d), (isHumidWarm d); simpl;
        rewrite <- ?app_assoc; reflexivity.
    + rewrite Hh. unfold dayStep. simpl.
      destruct (isHeavyRain d); simpl; lia.
    + rewrite Hm. unfold dayStep. simpl.
      destruct (isDryHot d); simpl; lia.
Qed.

Lemma dayPass_pushed daily : pushed (dayPass daily) = concat (map dayAlerts daily).
Proof.
  destruct (dayPass_from daily (mkPass [] 0 0 0)) as (Hp & _); [simpl; lia |].
  exact Hp.
Qed.

Lemma dayPass_heavy daily :
  (1 <=? heavyRainDays (dayPass daily)) = existsb isHeavyRain daily.
Proof.
  destruct (dayPass_from daily (mkPass [] 0 0 0)) as (_ & Hh & _); [simpl; lia |].
  unfold dayPass. rewrite Hh. simpl. clear Hh.
  induction daily as [| d t IH]; simpl; [reflexivity |].
  destruct (isHeavyRain d); simpl; [reflexivity | exact IH].
Qed.

Lemma dayPass_heavy_count daily :
  heavyRainDays (dayPass daily) = length (List.filter isHeavyRain daily).
Proof.
  destruct (dayPass_from daily (mkPass [] 0 0 0)) as (_ & Hh & _); [simpl; lia |].
  exact Hh.
Qed.

Lemma dayPass_streak daily :
  maxHeatStreak (dayPass daily) = longest_run isDryHot daily.
Proof.
  destruct (dayPass_from daily (mkPass [] 0 0 0)) as (_ & _ & Hm & _);
    [simpl; lia |].
  unfold dayPass. rewrite Hm. simpl.
  pose proof (run_length_le_longest isDryHot daily). lia.
Qed.

Lemma weekAlerts_fired daily :
  weekAlerts (dayPass daily) =
    match firedAlerts daily with
    | [] => [alert_none]
    | fired => fired
    end.
Proof.
  unfold weekAlerts, firedAlerts.
  rewrite dayPass_pushed, dayPass_heavy, dayPass_streak.
  set (a := concat (map dayAlerts daily)).
  destruct (existsb isHeavyRain daily), (3 <=? longest_run isDryHot daily);
    destruct a as [| x a']; simpl; rewrite ?app_nil_r, <- ?app_assoc;
    reflexivity.
Qed.

(** ** A [Set] built from an array is the array without its repeats *)

Lemma existsb_eqb_elem (x : string) (s : list string) :
  existsb (String.eqb x) s = true <-> x ∈ s.
Proof.
  rewrite existsb_exists. split.
  - intros (y & Hin & Heq). apply String.eqb_eq in Heq as ->.
    apply list_elem_of_In, Hin.
  - intros Hin. exists x. split; [apply list_elem_of_In, Hin | apply String.eqb_refl].
Qed.

Lemma elem_of_dedup x l : x ∈ dedup l <-> x ∈ l.
Proof.
  induction l as [| y t IH]; simpl; [reflexivity |].
  rewrite !elem_of_cons, list_elem_of_filter, IH.
  destruct (decide (x = y)); tauto.
Qed.

Lemma NoDup_dedup l : NoDup (dedup l).
Proof.
  induction l as [| y t IH]; simpl; constructor.
  - rewrite list_elem_of_filter. tauto.
  - apply NoDup_filter, IH.
Qed.

Lemma dedup_snoc l x :
  dedup (l ++ [x]) = if decide (x ∈ l) then dedup l else dedup l ++ [x].
Proof.
  induction l as [| y t IH]; simpl; [reflexivity |].
  rewrite IH.
  destruct (decide (x ∈ t)) as [Hin | Hnin];
    destruct (decide (x ∈ y :: t)) as [Hin' | Hnin']; try reflexivity.
  - exfalso. apply Hnin'. right. exact Hin.
  - apply elem_of_cons in Hin' as [-> | Hin']; [| contradiction].
    rewrite filter_app, filter_cons_False by tauto.
    rewrite filter_nil, app_nil_r. reflexivity.
  - rewrite filter_app, filter_cons_True; [reflexivity |].
    intros ->. apply Hnin'. left.
Qed.

Lemma Array_from_Set_dedup l : Array_from_Set l = dedup l.
Proof.
  unfold Array_from_Set.
  induction l as [| x l IH] using rev_ind; [reflexivity |].
  rewrite fold_left_app. simpl. rewrite IH, dedup_snoc.
  unfold Set_add.
  destruct (existsb (String.eqb x) (dedup l)) eqn:Hex.
  - apply existsb_eqb_elem in Hex. rewrite elem_of_dedup in Hex.
    destruct (decide (x ∈ l)); [reflexivity | contradiction].
  - destruct (decide (x ∈ l)) as [Hin |]; [| reflexivity].
    rewrite <- elem_of_dedup in Hin. apply existsb_eqb_elem in Hin.
    congruence.
Qed.

Lemma analyze_alerts daily :
  Array_from_Set (weekAlerts (dayPass daily)) = specAlerts daily.
Proof.
  rewrite Array_from_Set_dedup, weekAlerts_fired. unfold specAlerts.
  destruct (firedAlerts daily); reflexivity.
Qed.

Lemma specAlerts_nonempty daily : specAlerts daily <> [].
Proof. unfold specAlerts. destruct (firedAlerts daily); simpl; discriminate. Qed.

Lemma specAlerts_NoDup daily : NoDup (specAlerts daily).
Proof.
  unfold specAlerts. destruct (firedAlerts daily) as [| x t].
  - apply NoDup_singleton.
  - apply NoDup_dedup.
Qed.

(** ** Summary of a call *)

Lemma analyzeWeather_result base daily h s :
  readSoil base h = Some s ->
  exists res h',
    analyzeWeather base daily h = Some (res, h') /\
    alerts res = specAlerts daily /\
    recs res = makeRecs (heavyRainDays (dayPass daily))
                 (maxHeatStreak (dayPass daily)) daily /\
    readSoil (adjustedSoil res) h'
      = Some (adjustedContent (existsb isHeavyRain daily)
                (3 <=? longest_run isDryHot daily) s) /\
    (exists ext, h' = h ++ ext) /\
    (forall l, reachable h' (adjustedSoil res) l -> length h <= l).
Proof.
  intros Hread.
  destruct (analyzeWeather_runs base daily h s Hread)
    as (res & h' & Hrun & Hal & Hrecs & Hroot & Hext & Hrepr).
  cbv zeta in *. rewrite dayPass_heavy, dayPass_streak in Hrepr.
  exists res, h'. repeat split; try assumption.
  - rewrite Hal. apply analyze_alerts.
  - rewrite Hroot. apply repr_readSoil, Hrepr.
  - intros l Hl. rewrite Hroot in Hl.
    apply (repr_reachable _ _ _ l Hrepr) in Hl.
    apply fresh_shape_locs in Hl. exact Hl.
Qed.


(** ** The four records [analyzeWeather] can produce from the baseline *)

Lemma content_calm : adjustedContent false false detailedSoilData = detailedSoilData.
Proof. vm_compute. reflexivity. Qed.

Lemma content_rain :
  adjustedContent true false detailedSoilData = {|
    general := [
      mkEntry "pH Level" "5.7" "Low";
      mkEntry "Organic Carbon (OC)" "0.44%" "Low" ];
    macroNutrients := [
      mkEntry "Nitrogen (N)" "189 kg/ha" "Low";
      mkEntry "Phosphorus (P)" "15 kg/ha" "Optimal";
      mkEntry "Potassium (K)" "110 kg/ha" "Low" ];
    microNutrients := microNutrients detailedSoilData |}.
Proof. vm_compute. reflexivity. Qed.

Lemma content_heat :
  adjustedContent false true detailedSoilData = {|
    general := [
      mkEntry "pH Level" "5.9" "Low";
      mkEntry "Organic Carbon (OC)" "0.46%" "Low" ];
    macroNutrients := [
      mkEntry "Nitrogen (N)" "210 kg/ha" "Low";
      mkEntry "Phosphorus (P)" "15 kg/ha" "Optimal";
      mkEntry "Potassium (K)" "114 kg/ha" "Low" ];
    microNutrients := microNutrients detailedSoilData |}.
Proof. vm_compute. reflexivity. Qed.

Lemma content_rain_heat :
  adjustedContent true true detailedSoilData = {|
    general := [
      mkEntry "pH Level" "5.8" "Low";
      mkEntry "Organic Carbon (OC)" "0.45%" "Low" ];
    macroNutrients := [
      mkEntry "Nitrogen (N)" "189 kg/ha" "Low";
      mkEntry "Phosphorus (P)" "15 kg/ha" "Optimal";
      mkEntry "Potassium (K)" "105 kg/ha" "Low" ];
    microNutrients := microNutrients detailedSoilData |}.
Proof. vm_compute. reflexivity. Qed.

Lemma initial_reads : readSoil initial_base initial_store = Some detailedSoilData.
Proof. vm_compute. reflexivity. Qed.

(** * The alert list *)

(** C1: on every forecast the call returns, and the alert list is the
    sequence the rules fire, in the order they are met (a high-wind and a
    fungal alert per day of the pass, then the leaching alert iff some day
    is a heavy-rain day, then the drought alert iff the longest dry-hot
    run is at least 3), with repeats removed; it is the single sentinel
    when no rule fired.  It has no duplicates and is never empty. *)
Theorem analyzeWeather_alerts base daily h :
  readSoil base h = Some detailedSoilData ->
  exists res h',
    analyzeWeather base daily h = Some (res, h') /\
    alerts res = specAlerts daily /\
    NoDup (alerts res) /\
    alerts res <> [].
Proof.
  intros Hread.
  destruct (analyzeWeather_result base daily h _ Hread)
    as (res & h' & Hrun & Hal & _).
  exists res, h'. rewrite Hal.
  auto using specAlerts_NoDup, specAlerts_nonempty.
Qed.

Lemma analyzeWeather_alerts_witness :
  exists res h',
    analyzeWeather initial_base (wetDay :: hotWeek) initial_store = Some (res, h') /\
    alerts res = specAlerts (wetDay :: hotWeek) /\
    NoDup (alerts res) /\
    alerts res <> [].
Proof. apply (analyzeWeather_alerts _ _ _ initial_reads). Defined.

(** * The adjusted record *)

Lemma existsb_filter_length {A} (p : A -> bool) l :
  existsb p l = negb (length (List.filter p l) =? 0).
Proof.
  induction l as [| x t IH]; simpl; [reflexivity |].
  destruct (p x); simpl; [reflexivity | exact IH].
Qed.

Lemma alert_rain_fired daily :
  existsb isHeavyRain daily = true -> alert_rain ∈ specAlerts daily.
Proof.
  intros Hex.
  assert (Hin : alert_rain ∈ firedAlerts daily).
  { unfold firedAlerts. rewrite Hex, !elem_of_app, list_elem_of_singleton. auto. }
  unfold specAlerts. destruct (firedAlerts daily) as [| x t] eqn:Hf.
  - apply elem_of_nil in Hin. contradiction.
  - apply elem_of_dedup, Hin.
Qed.

Lemma alert_drought_fired daily :
  3 <= longest_run isDryHot daily -> alert_drought ∈ specAlerts daily.
Proof.
  intros Hrun. apply Nat.leb_le in Hrun.
  assert (Hin : alert_drought ∈ firedAlerts daily).
  { unfold firedAlerts. rewrite Hrun, !elem_of_app, list_elem_of_singleton. auto. }
  unfold specAlerts. destruct (firedAlerts daily) as [| x t] eqn:Hf.
  - apply elem_of_nil in Hin. contradiction.
  - apply elem_of_dedup, Hin.
Qed.

(** C2: with no heavy-rain day and a longest dry-hot run below 3, the
    adjusted record has the content of the baseline: every name, every
    displayed value and every status, in the three groups. *)
Theorem adjusted_is_baseline base daily h :
  readSoil base h = Some detailedSoilData ->
  existsb isHeavyRain daily = false ->
  longest_run isDryHot daily < 3 ->
  exists res h',
    analyzeWeather base daily h = Some (res, h') /\
    readSoil (adjustedSoil res) h' = Some detailedSoilData.
Proof.
  intros Hread Hrain Hheat.
  destruct (analyzeWeather_result base daily h _ Hread)
    as (res & h' & Hrun & _ & _ & Hadj & _).
  exists res, h'. split; [exact Hrun |].
  rewrite Hadj, Hrain.
  replace (3 <=? longest_run isDryHot daily) with false
    by (symmetry; apply Nat.leb_gt, Hheat).
  rewrite content_calm. reflexivity.
Qed.

Lemma adjusted_is_baseline_witness :
  exists res h',
    analyzeWeather initial_base calmWeek initial_store = Some (res, h') /\
    readSoil (adjustedSoil res) h' = Some detailedSoilData.
Proof.
  apply (adjusted_is_baseline _ _ _ initial_reads).
  - vm_compute. reflexivity.
  - vm_compute. lia.
Defined.

(** C3: a 7-day forecast with exactly one heavy-rain day and no dry-hot
    run of 3 days gives Nitrogen "189 kg/ha", Potassium "110 kg/ha", pH
    "5.7" and Organic Carbon "0.44%", which are the baseline numbers
    times 0.9, times 0.92, minus 0.1 and times 0.98, floored at 0 and
    rendered with 0, 0, 1 and 2 decimals and the unit suffix; the leaching
    alert is in the list. *)
Theorem scenario_heavy_rain base daily h :
  readSoil base h = Some detailedSoilData ->
  length daily = 7 ->
  length (List.filter isHeavyRain daily) = 1 ->
  longest_run isDryHot daily < 3 ->
  exists res h' s',
    analyzeWeather base daily h = Some (res, h') /\
    readSoil (adjustedSoil res) h' = Some s' /\
    valueOf "Nitrogen (N)" (macroNutrients s') = Some "189 kg/ha" /\
    valueOf "Potassium (K)" (macroNutrients s') = Some "110 kg/ha" /\
    valueOf "pH Level" (general s') = Some "5.7" /\
    valueOf "Organic Carbon (OC)" (general s') = Some "0.44%" /\
    alert_rain ∈ alerts res /\
    Js.toFixed (Math_max (of_Z 0) (mul (of_Z 210) (lit 9 1))) 0 +:+ " kg/ha"
      = "189 kg/ha" /\
    Js.toFixed (Math_max (of_Z 0) (mul (of_Z 120) (lit 92 2))) 0 +:+ " kg/ha"
      = "110 kg/ha" /\
    Js.toFixed (Math_max (of_Z 0) (sub (lit 58 1) (lit 1 1))) 1 = "5.7" /\
    Js.toFixed (Math_max (of_Z 0) (mul (lit 45 2) (lit 98 2))) 2 +:+ "%"
      = "0.44%".
Proof.
  intros Hread _ Hone Hheat.
  destruct (analyzeWeather_result base daily h _ Hread)
    as (res & h' & Hrun & Hal & _ & Hadj & _).
  assert (Hrain : existsb isHeavyRain daily = true).
  { rewrite existsb_filter_length, Hone. reflexivity. }
  rewrite Hrain in Hadj.
  replace (3 <=? longest_run isDryHot daily) with false in Hadj
    by (symmetry; apply Nat.leb_gt, Hheat).
  rewrite content_rain in Hadj.
  exists res, h'. eexists. split; [exact Hrun |]. split; [exact Hadj |].
  rewrite Hal.
  split; [reflexivity |]. split; [reflexivity |].
  split; [reflexivity |]. split; [reflexivity |].
  split; [apply alert_rain_fired, Hrain |].
  repeat split; vm_compute; reflexivity.
Qed.

Lemma scenario_heavy_rain_witness :
  exists res h' s',
    analyzeWeather initial_base wetWeek initial_store = Some (res, h') /\
    readSoil (adjustedSoil res) h' = Some s' /\
    valueOf "Nitrogen (N)" (macroNutrients s') = Some "189 kg/ha" /\
    valueOf "Potassium (K)" (macroNutrients s') = Some "110 kg/ha" /\
    valueOf "pH Level" (general s') = Some "5.7" /\
    valueOf "Organic Carbon (OC)" (general s') = Some "0.44%" /\
    alert_rain ∈ alerts res /\
    Js.toFixed (Math_max (of_Z 0) (mul (of_Z 210) (lit 9 1))) 0 +:+ " kg/ha"
      = "189 kg/ha" /\
    Js.toFixed (Math_max (of_Z 0) (mul (of_Z 120) (lit 92 2))) 0 +:+ " kg/ha"
      = "110 kg/ha" /\
    Js.toFixed (Math_max (of_Z 0) (sub (lit 58 1) (lit 1 1))) 1 = "5.7" /\
    Js.toFixed (Math_max (of_Z 0) (mul (lit 45 2) (lit 98 2))) 2 +:+ "%"
      = "0.44%".
Proof.
  apply (scenario_heavy_rain _ _ _ initial_reads).
  - reflexivity.
  - vm_compute. reflexivity.
  - vm_compute. lia.
Defined.

Lemma dryHot_run l1 d1 d2 d3 l2 :
  Forall (fun d => pop d = lit 1 1 /\ Temp.max (temp d) = of_Z 36) [d1; d2; d3] ->
  3 <= longest_run isDryHot (l1 ++ [d1; d2; d3] ++ l2).
Proof.
  intros Hall. apply longest_run_spec.
  exists l1, [d1; d2; d3], l2. repeat split.
  eapply Forall_impl; [exact Hall |].
  intros d [Hp Ht]. unfold isDryHot. rewrite Hp, Ht. reflexivity.
Qed.

(** C4: a 7-day forecast with 3 consecutive days of pop 0.1 and max
    temperature 36 and no heavy-rain day gives Potassium "114 kg/ha"
    (120 x 0.95, floored at 0, 0 decimals), pH "5.9" (5.8 + 0.1, 1
    decimal) and Organic Carbon "0.46%" (0.45 x 1.03, 2 decimals); the
    drought alert is in the list and the irrigation text is the
    shorter-and-more-frequent one, which a streak of 3 selects whatever
    the heavy-rain count is. *)
Theorem scenario_heat_streak base daily h :
  readSoil base h = Some detailedSoilData ->
  length daily = 7 ->
  (exists l1 d1 d2 d3 l2,
     daily = l1 ++ [d1; d2; d3] ++ l2 /\
     Forall (fun d => pop d = lit 1 1 /\ Temp.max (temp d) = of_Z 36)
       [d1; d2; d3]) ->
  existsb isHeavyRain daily = false ->
  exists res h' s',
    analyzeWeather base daily h = Some (res, h') /\
    readSoil (adjustedSoil res) h' = Some s' /\
    valueOf "Potassium (K)" (macroNutrients s') = Some "114 kg/ha" /\
    valueOf "pH Level" (general s') = Some "5.9" /\
    valueOf "Organic Carbon (OC)" (general s') = Some "0.46%" /\
    alert_drought ∈ alerts res /\
    irrigation (recs res)
      = "Adopt shorter, more frequent irrigation; mulch to conserve soil moisture." /\
    (forall heavy,
        irrigation (makeRecs heavy (maxHeatStreak (dayPass daily)) daily)
        = "Adopt shorter, more frequent irrigation; mulch to conserve soil moisture.") /\
    Js.toFixed (Math_max (of_Z 0) (mul (of_Z 120) (lit 95 2))) 0 +:+ " kg/ha"
      = "114 kg/ha" /\
    Js.toFixed (add (lit 58 1) (lit 1 1)) 1 = "5.9" /\
    Js.toFixed (mul (lit 45 2) (lit 103 2)) 2 +:+ "%" = "0.46%".
Proof.
  intros Hread _ (l1 & d1 & d2 & d3 & l2 & -> & Hall) Hrain.
  pose proof (dryHot_run l1 d1 d2 d3 l2 Hall) as Hheat.
  set (daily := l1 ++ [d1; d2; d3] ++ l2) in *.
  destruct (analyzeWeather_result base daily h _ Hread)
    as (res & h' & Hrun & Hal & Hrecs & Hadj & _).
  rewrite Hrain in Hadj.
  replace (3 <=? longest_run isDryHot daily) with true in Hadj
    by (symmetry; apply Nat.leb_le, Hheat).
  rewrite content_heat in Hadj.
  assert (Hirr : forall heavy,
    irrigation (makeRecs heavy (maxHeatStreak (dayPass daily)) daily)
    = "Adopt shorter, more frequent irrigation; mulch to conserve soil moisture.").
  { intros heavy. unfold makeRecs, irrigation. rewrite dayPass_streak.
    replace (3 <=? longest_run isDryHot daily) with true
      by (symmetry; apply Nat.leb_le, Hheat).
    reflexivity. }
  exists res, h'. eexists. split; [exact Hrun |]. split; [exact Hadj |].
  rewrite Hal, Hrecs.
  split; [reflexivity |]. split; [reflexivity |]. split; [reflexivity |].
  split; [apply alert_drought_fired, Hheat |].
  split; [apply Hirr |]. split; [exact Hirr |].
  repeat split; vm_compute; reflexivity.
Qed.

Lemma scenario_heat_streak_witness :
  exists res h' s',
    analyzeWeather initial_base hotWeek initial_store = Some (res, h') /\
    readSoil (adjustedSoil res) h' = Some s' /\
    valueOf "Potassium (K)" (macroNutrients s') = Some "114 kg/ha" /\
    valueOf "pH Level" (general s') = Some "5.9" /\
    valueOf "Organic Carbon (OC)" (general s') = Some "0.46%" /\
    alert_drought ∈ alerts res /\
    irrigation (recs res)
      = "Adopt shorter, more frequent irrigation; mulch to conserve soil moisture." /\
    (forall heavy,
        irrigation (makeRecs heavy (maxHeatStreak (dayPass hotWeek)) hotWeek)
        = "Adopt shorter, more frequent irrigation; mulch to conserve soil moisture.") /\
    Js.toFixed (Math_max (of_Z 0) (mul (of_Z 120) (lit 95 2))) 0 +:+ " kg/ha"
      = "114 kg/ha" /\
    Js.toFixed (add (lit 58 1) (lit 1 1)) 1 = "5.9" /\
    Js.toFixed (mul (lit 45 2) (lit 103 2)) 2 +:+ "%" = "0.46%".
Proof.
  apply (scenario_heat_streak _ _ _ initial_reads).
  - reflexivity.
  - exists [calmDay; calmDay], hotDay, hotDay, hotDay, [calmDay; calmDay].
    split; [reflexivity |].
    repeat constructor.
  - vm_compute. reflexivity.
Defined.

(** C5: in every adjusted record each macro-nutrient and general-metric
    status is the grade of the number the entry displays (Nitrogen Low
    below 250 and High above 350, Phosphorus 12 and 30, Potassium 150 and
    300, pH 6.0 and 7.5, Organic Carbon 0.75 and 1.5, Optimal in between),
    and the micro-nutrient entries are those of the baseline, value and
    status. *)
Theorem adjusted_statuses base daily h :
  readSoil base h = Some detailedSoilData ->
  exists res h' s',
    analyzeWeather base daily h = Some (res, h') /\
    readSoil (adjustedSoil res) h' = Some s' /\
    graded "Nitrogen (N)" (of_Z 250) (of_Z 350) (macroNutrients s') /\
    graded "Phosphorus (P)" (of_Z 12) (of_Z 30) (macroNutrients s') /\
    graded "Potassium (K)" (of_Z 150) (of_Z 300) (macroNutrients s') /\
    graded "pH Level" (lit 60 1) (lit 75 1) (general s') /\
    graded "Organic Carbon (OC)" (lit 75 2) (lit 15 1) (general s') /\
    length (macroNutrients s') = 3 /\
    length (general s') = 2 /\
    microNutrients s' = microNutrients detailedSoilData.
Proof.
  intros Hread.
  destruct (analyzeWeather_result base daily h _ Hread)
    as (res & h' & Hrun & _ & _ & Hadj & _).
  exists res, h'. eexists. split; [exact Hrun |]. split; [exact Hadj |].
  destruct (existsb isHeavyRain daily), (3 <=? longest_run isDryHot daily);
    rewrite ?content_calm, ?content_rain, ?content_heat, ?content_rain_heat;
    repeat split;
    try (eexists; split; [reflexivity | vm_compute; reflexivity]).
Qed.

Lemma adjusted_statuses_witness :
  exists res h' s',
    analyzeWeather initial_base (wetDay :: hotWeek) initial_store = Some (res, h') /\
    readSoil (adjustedSoil res) h' = Some s' /\
    graded "Nitrogen (N)" (of_Z 250) (of_Z 350) (macroNutrients s') /\
    graded "Phosphorus (P)" (of_Z 12) (of_Z 30) (macroNutrients s') /\
    graded "Potassium (K)" (of_Z 150) (of_Z 300) (macroNutrients s') /\
    graded "pH Level" (lit 60 1) (lit 75 1) (general s') /\
    graded "Organic Carbon (OC)" (lit 75 2) (lit 15 1) (general s') /\
    length (macroNutrients s') = 3 /\
    length (general s') = 2 /\
    microNutrients s' = microNutrients detailedSoilData.
Proof. apply (adjusted_statuses _ _ _ initial_reads). Defined.

(** * The baseline is left alone *)



(** * Forecasts of any length, days with absent fields *)

(** C10: the call returns on a forecast of any length.  An absent
    optional field reads as 0, so a day without
    [rain] is not a heavy-rain day and leaves the count as it is; a day
    without [wind_speed] pushes no high-wind alert and a day without
    [humidity] no fungal alert.  On the empty forecast the alerts are the
    single sentinel, the adjusted record has the content of the baseline
    and the recommendations are the default texts. *)
Theorem analyzeWeather_total base h :
  readSoil base h = Some detailedSoilData ->
  (forall daily, exists res h', analyzeWeather base daily h = Some (res, h')) /\
  or0 None = of_Z 0 /\
  (forall d st, rain d = None ->
     isHeavyRain d = false /\ heavyRainDays (dayStep st d) = heavyRainDays st) /\
  (forall d st, wind_speed d = None ->
     isWindy d = false /\
     exists more, pushed (dayStep st d) = pushed st ++ more /\ alert_wind ∉ more) /\
  (forall d st, humidity d = None ->
     isHumidWarm d = false /\
     exists more, pushed (dayStep st d) = pushed st ++ more /\ alert_fungal ∉ more) /\
  (exists res h',
     analyzeWeather base [] h = Some (res, h') /\
     alerts res = [alert_none] /\
     readSoil (adjustedSoil res) h' = Some detailedSoilData /\
     recs res = defaultRecs).
Proof.
  intros Hread.
  assert (Hrain : forall d, rain d = None -> isHeavyRain d = false).
  { intros d Hd. unfold isHeavyRain. rewrite Hd. simpl.
    change (geb (of_Z 0) (of_Z 50)) with false.
    change (geb (of_Z 0) (of_Z 30)) with false.
    rewrite andb_false_r. reflexivity. }
  assert (Hwind : forall d, wind_speed d = None -> isWindy d = false).
  { intros d Hd. unfold isWindy. rewrite Hd. reflexivity. }
  assert (Hhum : forall d, humidity d = None -> isHumidWarm d = false).
  { intros d Hd. unfold isHumidWarm. rewrite Hd. reflexivity. }
  split; [| split; [| split; [| split; [| split]]]].
  - intros daily.
    destruct (analyzeWeather_result base daily h _ Hread)
      as (res & h' & Hrun & _). eauto.
  - reflexivity.
  - intros d st Hd. split; [apply Hrain, Hd |].
    unfold dayStep. simpl. rewrite (Hrain d Hd). reflexivity.
  - intros d st Hd. split; [apply Hwind, Hd |].
    unfold dayStep. simpl. rewrite (Hwind d Hd).
    destruct (isHumidWarm d).
    + exists [alert_fungal]. split; [reflexivity |].
      rewrite list_elem_of_singleton. discriminate.
    + exists []. rewrite app_nil_r. split; [reflexivity | apply not_elem_of_nil].
  - intros d st Hd. split; [apply Hhum, Hd |].
    unfold dayStep. simpl. rewrite (Hhum d Hd).
    destruct (isWindy d).
    + exists [alert_wind]. split; [reflexivity |].
      rewrite list_elem_of_singleton. discriminate.
    + exists []. rewrite app_nil_r. split; [reflexivity | apply not_elem_of_nil].
  - destruct (analyzeWeather_result base [] h _ Hread)
      as (res & h' & Hrun & Hal & Hrecs & Hadj & _).
    exists res, h'. rewrite Hal, Hrecs, Hadj. simpl existsb.
    change (3 <=? longest_run isDryHot []) with false.
    rewrite content_calm. auto.
Qed.

Lemma analyzeWeather_total_witness :
  (forall daily, exists res h',
      analyzeWeather initial_base daily initial_store = Some (res, h')) /\
  or0 None = of_Z 0 /\
  (forall d st, rain d = None ->
     isHeavyRain d = false /\ heavyRainDays (dayStep st d) = heavyRainDays st) /\
  (forall d st, wind_speed d = None ->
     isWindy d = false /\
     exists more, pushed (dayStep st d) = pushed st ++ more /\ alert_wind ∉ more) /\
  (forall d st, humidity d = None ->
     isHumidWarm d = false /\
     exists more, pushed (dayStep st d) = pushed st ++ more /\ alert_fungal ∉ more) /\
  (exists res h',
     analyzeWeather initial_base [] initial_store = Some (res, h') /\
     alerts res = [alert_none] /\
     readSoil (adjustedSoil res) h' = Some detailedSoilData /\
     recs res = defaultRecs).
Proof. apply (analyzeWeather_total _ _ initial_reads). Defined.

(** * The centroid loop computes the shoelace sums *)

Section Loop.
Context {A : Type} `{Arith A}.

Lemma centroid_step_edge (coords : list (A * A)) acc i d :
  centroid_step coords acc i
  = edge_step acc (nth i coords d, nth ((i + 1) mod length coords) coords d)
  \/ length coords <= i \/ length coords = 0.
Proof.
  destruct (le_lt_dec (length coords) i) as [Hge | Hlt]; [auto |].
  left. unfold centroid_step, edge_step.
  destruct acc as [[area cx] cy].
  assert (Hn : (i + 1) mod length coords < length coords)
    by (apply Nat.mod_upper_bound; lia).
  rewrite (nth_indep coords _ d Hlt), (nth_indep coords _ d Hn).
  destruct (nth i coords d) as [x1 y1].
  destruct (nth ((i + 1) mod length coords) coords d) as [x2 y2].
  reflexivity.
Qed.

Lemma edges_nth (coords : list (A * A)) d :
  map (fun i => (nth i coords d, nth ((i + 1) mod length coords) coords d))
    (seq 0 (length coords))
  = edges coords.
Proof.
  destruct coords as [| p rest]; [reflexivity |].
  unfold edges.
  set (coords := p :: rest).
  assert (Hlen : length (rest ++ [p]) = length coords).
  { rewrite length_app. simpl. lia. }
  set (f := fun i => (nth i coords d, nth ((i + 1) mod length coords) coords d)).
  apply (nth_ext _ _ (f 0) (d, d)).
  - rewrite length_map, length_seq, length_combine, Hlen. lia.
  - intros i Hi. rewrite length_map, length_seq in Hi.
    rewrite map_nth, seq_nth by exact Hi. simpl Nat.add.
    rewrite combine_nth by (symmetry; exact Hlen).
    unfold f. f_equal.
    destruct (decide (i = length rest)) as [-> | Hne].
    + replace (length rest + 1) with (length coords) by (simpl; lia).
      rewrite Nat.Div0.mod_same. rewrite app_nth2 by lia.
      rewrite Nat.sub_diag. reflexivity.
    + simpl in Hi. rewrite Nat.mod_small by (simpl; lia).
      rewrite app_nth1 by lia.
      replace (i + 1) with (S i) by lia. reflexivity.
Qed.

Lemma fold_centroid_step (coords : list (A * A)) acc :
  fold_left (centroid_step coords) (seq 0 (length coords)) acc
  = fold_left edge_step (edges coords) acc.
Proof.
  rewrite <- (edges_nth coords (num_lit 0 0, num_lit 0 0)).
  assert (Hgen : forall (l : list nat) acc,
    Forall (fun i => i < length coords) l ->
    fold_left (centroid_step coords) l acc
    = fold_left edge_step
        (map (fun i => (nth i coords (num_lit 0 0, num_lit 0 0),
                        nth ((i + 1) mod length coords) coords
                          (num_lit 0 0, num_lit 0 0))) l) acc).
  { induction l as [| i l IH]; intros acc' Hall; [reflexivity |].
    apply Forall_cons in Hall as [Hi Hall]. simpl.
    destruct (centroid_step_edge coords acc' i (num_lit 0 0, num_lit 0 0))
      as [-> | [Hbad | Hbad]]; [apply IH, Hall | lia | lia]. }
  apply Hgen. apply Forall_forall. intros i Hi.
  apply elem_of_seq in Hi. lia.
Qed.

Lemma fold_edge_step es (a b c : A) :
  fold_left edge_step es (a, b, c)
  = (fold_left (fun s e => s + cross e)%ar es a,
     fold_left (fun s e => s + (fst (fst e) + fst (snd e)) * cross e)%ar es b,
     fold_left (fun s e => s + (snd (fst e) + snd (snd e)) * cross e)%ar es c).
Proof.
  revert a b c. induction es as [| e es IH]; intros a b c; [reflexivity |].
  simpl. apply IH.
Qed.

(** What [computeCentroid] returns, in terms of the shoelace sums. *)
Lemma computeCentroid_unfold (coords : list (A * A)) :
  computeCentroid coords =
    match coords with
    | [] => None
    | (lat0, lon0) :: _ =>
        if num_ltb (num_abs (signed_area coords)) (num_lit 1 12)
        then Some (mkLatLon lat0 lon0)
        else Some (mkLatLon
                     (num_div (moment_x coords)
                        (num_mul (num_lit 6 0) (signed_area coords)))
                     (num_div (moment_y coords)
                        (num_mul (num_lit 6 0) (signed_area coords))))
    end.
Proof.
  destruct coords as [| [lat0 lon0] rest]; [reflexivity |].
  unfold computeCentroid.
  rewrite fold_centroid_step, fold_edge_step.
  reflexivity.
Qed.

End Loop.

(** * Convex combinations *)

Section Hull.
Local Open Scope Q_scope.

(** No convex combination lies beyond a bound that holds at every point. *)
Lemma hull_below pts p (bound : Q) :
  (forall q, q ∈ pts -> snd q <= bound) ->
  in_convex_hull pts p -> snd p <= bound.
Proof.
  intros Hb (ws & Hlen & Hpos & Hsum & _ & Hy).
  rewrite Hy. clear Hy.
  assert (Hle : combine_with ws (map snd pts) <= bound * Qsum ws).
  { clear Hsum. unfold combine_with.
    revert ws Hlen Hpos. induction pts as [| q pts IH]; intros ws Hlen Hpos.
    - destruct ws; [simpl; lra | discriminate].
    - destruct ws as [| w ws]; [discriminate |].
      injection Hlen as Hlen. apply Forall_cons in Hpos as [Hw Hpos].
      simpl.
      assert (Hq : snd q <= bound) by (apply Hb; left).
      assert (IH' : Qsum (zip_with Qmult ws (map snd pts)) <= bound * Qsum ws).
      { apply IH; [| exact Hlen | exact Hpos].
        intros q' Hq'. apply Hb. right. exact Hq'. }
      nra. }
  rewrite Hsum in Hle. lra.
Qed.

End Hull.

(** * The centroid in binary64 *)

Section Binary64.
Local Open Scope Z_scope.

(** ** Rounding never turns a non-zero product into a zero *)

Lemma shr_1_digits r p :
  shr_m r = Zpos p -> (1 < digits2_pos p)%positive ->
  exists p', shr_m (shr_1 r) = Zpos p' /\
             Pos.succ (digits2_pos p') = digits2_pos p.
Proof.
  destruct r as [m b s]. simpl. intros -> Hd.
  destruct p as [q | q |]; simpl in *; [eexists; split; reflexivity .. | lia].
Qed.

Lemma iter_shr_1 (n : nat) r p :
  shr_m r = Zpos p -> (n < Pos.to_nat (digits2_pos p))%nat ->
  exists p', shr_m (Nat.iter n shr_1 r) = Zpos p'.
Proof.
  revert r p. induction n as [| n IH]; intros r p Hm Hn.
  - exists p. exact Hm.
  - rewrite Nat.iter_succ_r.
    destruct (shr_1_digits r p Hm) as (p' & Hm' & Hd); [lia |].
    apply (IH _ p' Hm'). lia.
Qed.

Lemma iter_pos_nat {X} (f : X -> X) (k : positive) (x : X) :
  SpecFloat.iter_pos f k x = Nat.iter (Pos.to_nat k) f x.
Proof.
  revert x. induction k as [k IH | k IH |]; intros x; cbn [SpecFloat.iter_pos].
  - rewrite !IH, <- Nat.iter_add, <- Nat.iter_succ_r. f_equal. lia.
  - rewrite !IH, <- Nat.iter_add. f_equal. lia.
  - reflexivity.
Qed.

(** Shifting a positive mantissa right by fewer places than it has digits
    leaves a positive mantissa. *)
Lemma shr_pos r (p : positive) (E n : Z) :
  shr_m r = Zpos p -> n < Zpos (digits2_pos p) ->
  exists p', shr_m (fst (shr r E n)) = Zpos p' /\ E <= snd (shr r E n).
Proof.
  intros Hm Hn. unfold shr. destruct n as [| k | k]; cbn [fst snd].
  - exists p. split; [exact Hm | lia].
  - rewrite iter_pos_nat.
    destruct (iter_shr_1 (Pos.to_nat k) r p Hm) as (p' & Hp'); [lia |].
    exists p'. split; [exact Hp' | lia].
  - exists p. split; [exact Hm | lia].
Qed.

Lemma shr_fexp_pos (p : positive) (E : Z) l :
  3 - emax - prec <= E ->
  exists p', shr_m (fst (shr_fexp prec emax (Zpos p) E l)) = Zpos p' /\
             3 - emax - prec <= snd (shr_fexp prec emax (Zpos p) E l).
Proof.
  intros HE. unfold shr_fexp.
  destruct (shr_pos (shr_record_of_loc (Zpos p) l) p E
             (fexp prec emax (Zdigits2 (Zpos p) + E) - E)) as (p' & Hm & HE').
  { destruct l as [| []]; reflexivity. }
  { unfold fexp, emin, Zdigits2, prec, emax in *. lia. }
  exists p'. split; [exact Hm | lia].
Qed.

Lemma round_nearest_even_pos (p : positive) l :
  exists p', round_nearest_even (Zpos p) l = Zpos p'.
Proof.
  unfold round_nearest_even.
  destruct l as [| c]; [eexists; reflexivity |].
  destruct c; [destruct (Z.even (Zpos p)) | |];
    try (eexists; reflexivity);
    exists (p + 1)%positive; reflexivity.
Qed.

(** Rounding a positive integer times a power of two gives a non-zero
    number or an infinity, as long as the exponent is not below the least
    one. *)
Lemma binary_round_aux_pos sx (p : positive) (E : Z) l :
  3 - emax - prec <= E ->
  is_zero (binary_round_aux prec emax sx (Zpos p) E l) = false.
Proof.
  intros HE. unfold binary_round_aux.
  destruct (shr_fexp_pos p E l HE) as (p1 & Hp1 & HE1).
  destruct (shr_fexp prec emax (Zpos p) E l) as [r1 E1]. cbn [fst snd] in *.
  rewrite Hp1.
  destruct (round_nearest_even_pos p1 (loc_of_shr_record r1)) as (p2 & ->).
  destruct (shr_fexp_pos p2 E1 loc_Exact HE1) as (p3 & Hp3 & HE2).
  destruct (shr_fexp prec emax (Zpos p2) E1 loc_Exact) as [r2 E2].
  cbn [fst snd] in *. rewrite Hp3.
  destruct (E2 <=? emax - prec); reflexivity.
Qed.

Lemma lit_epsilon : lit 1 12 = S754_finite false 4951760157141521 (-92).
Proof. vm_compute. reflexivity. Qed.

Lemma lit_six : lit 6 0 = S754_finite false 6755399441055744 (-50).
Proof. vm_compute. reflexivity. Qed.

(** An area that fails the test [Math.abs(area) < 1e-12] is NaN, an
    infinity, or a number whose exponent is at least that of [1e-12]; six
    times it is then not a zero. *)
Lemma mul_six_nonzero (a : number) :
  ltb (abs a) (lit 1 12) = false -> is_zero (mul (lit 6 0) a) = false.
Proof.
  rewrite lit_epsilon, lit_six. intros Hguard.
  destruct a as [s | s | | s m e]; try reflexivity.
  - discriminate Hguard.
  - assert (He : -92 <= e).
    { destruct (Z_lt_le_dec e (-92)) as [Hlt | Hle]; [| exact Hle].
      exfalso. revert Hguard.
      unfold ltb, SFltb, abs, SFabs, SFcompare.
      apply Z.compare_lt_iff in Hlt. rewrite Hlt. discriminate. }
    unfold mul, SFmul.
    apply binary_round_aux_pos. unfold emax, prec. lia.
Qed.

(** ** Copies of one point *)

Lemma sub_diag (z : number) : is_finite z = true -> sub z z = S754_zero false.
Proof.
  destruct z as [s | s | | s m e]; try discriminate; intros _.
  - destruct s; reflexivity.
  - unfold sub, SFsub. rewrite Z.sub_diag. reflexivity.
Qed.

Lemma combine_replicate {X Y} (n : nat) (a : X) (b : Y) :
  combine (replicate n a) (replicate n b) = replicate n (a, b).
Proof.
  induction n as [| n IH]; [reflexivity |]. simpl. rewrite IH. reflexivity.
Qed.

Lemma edges_copies {X} (n : nat) (p : X * X) :
  edges (replicate (S n) p) = replicate (S n) (p, p).
Proof.
  unfold edges. cbn [replicate].
  change (p :: replicate n p) with (replicate (S n) p).
  rewrite <- replicate_cons_app. apply (combine_replicate (S n)).
Qed.

Lemma signed_area_copies (n : nat) (x y : number) :
  is_finite (mul x y) = true ->
  signed_area (replicate (S n) (x, y)) = S754_zero false.
Proof.
  intros Hf. unfold signed_area, loop_sum. rewrite edges_copies.
  assert (Hsum : forall k,
    fold_left (fun s e => num_add s (cross e)) (replicate k ((x, y), (x, y)))
      (S754_zero false) = S754_zero false).
  { induction k as [| k IH]; [reflexivity |].
    cbn [replicate fold_left].
    change (cross ((x, y), (x, y))) with (sub (mul x y) (mul x y)).
    rewrite (sub_diag _ Hf). exact IH. }
  change (num_lit 0 0) with (S754_zero false).
  rewrite Hsum. vm_compute. reflexivity.
Qed.

End Binary64.

(** C6: what [computeCentroid] does, and where it leaves the claim.  It
    returns no result on the empty list; on a non-empty list it returns
    the first vertex as it is when the absolute value of the computed
    signed area [A = 1/2 * sum (x_i * y_{i+1} - x_{i+1} * y_i)] is below
    1e-12, and otherwise the quotients of
    [sum (x_i + x_{i+1}) * (x_i * y_{i+1} - x_{i+1} * y_i)] and of its
    analogue in [y] by [6 * A], the sums running over the closed loop.  In
    binary64: a single point, or any number of copies of one point whose
    coordinates have a finite product, takes the first-vertex branch; and
    whenever the division takes place the divisor [6 * A] is not a zero.
    But the test is made on the computed area, which rounding can keep
    away from zero: the three vertices of [collinearTriple] lie exactly on
    one line, their computed area is 2^-39, about 1.8e-12, and the point
    returned is (41.333333, 113.333333), not the first vertex
    (60.87, 169.49). *)
Theorem computeCentroid_shoelace :
  (forall (A : Type) (HA : Arith A) (coords : list (A * A)),
     computeCentroid coords =
       match coords with
       | [] => None
       | (lat0, lon0) :: _ =>
           if num_ltb (num_abs (signed_area coords)) (num_lit 1 12)
           then Some (mkLatLon lat0 lon0)
           else Some (mkLatLon
                        (num_div (moment_x coords)
                           (num_mul (num_lit 6 0) (signed_area coords)))
                        (num_div (moment_y coords)
                           (num_mul (num_lit 6 0) (signed_area coords))))
       end) /\
  (forall (n : nat) (x y : number),
     is_finite (mul x y) = true ->
     computeCentroid (replicate (S n) (x, y)) = Some (mkLatLon x y)) /\
  (forall coords : list (number * number),
     ltb (abs (signed_area coords)) (lit 1 12) = false ->
     is_zero (mul (lit 6 0) (signed_area coords)) = false) /\
  (collinear (exact_coords collinearTriple) /\
   signed_area collinearTriple = S754_finite false 4503599627370496 (-91) /\
   ltb (abs (signed_area collinearTriple)) (lit 1 12) = false /\
   exists c,
     computeCentroid collinearTriple = Some c /\
     Js.toFixed (lat c) 6 = "41.333333" /\
     Js.toFixed (lon c) 6 = "113.333333" /\
     c <> mkLatLon (lit 6087 2) (lit 16949 2)).
Proof.
  split; [| split; [| split]].
  - intros A HA coords. apply computeCentroid_unfold.
  - intros n x y Hf.
    rewrite computeCentroid_unfold, (signed_area_copies n x y Hf).
    change (num_lit 1 12) with (lit 1 12). rewrite lit_epsilon. reflexivity.
  - intros coords. apply mul_six_nonzero.
  - split.
    { intros p q r Hp Hq Hr. revert r Hr. apply Forall_forall.
      revert q Hq. apply Forall_forall. revert p Hp. apply Forall_forall.
      repeat constructor. }
    split; [vm_compute; reflexivity |].
    split; [vm_compute; reflexivity |].
    eexists. split; [vm_compute; reflexivity |].
    split; [vm_compute; reflexivity |].
    split; [vm_compute; reflexivity |].
    vm_compute. discriminate.
Qed.

(** C7: where [computeCentroid] leaves the claim.  [smallSquare] is a
    convex polygon of four vertices, not all collinear; its products
    [x_i * y_{i+1}] are near 2208 and differ by about 1e-2, so each
    difference of two of them keeps few correct digits, and the sums of
    the loop cancel further.  The point returned is (28.60015, 77.20032):
    its longitude is beyond that of every vertex, so it is outside the
    convex hull of the vertices. *)
Theorem smallSquare_centroid_outside_hull :
  3 <= length smallSquare /\
  not_all_collinear (exact_coords smallSquare) /\
  convex_polygon (exact_coords smallSquare) /\
  exists c,
    computeCentroid smallSquare = Some c /\
    Js.toFixed (lat c) 5 = "28.60015" /\
    Js.toFixed (lon c) 5 = "77.20032" /\
    ~ in_convex_hull (exact_coords smallSquare) (exact_point c).
Proof.
  split; [simpl; lia |]. split.
  { eexists _, _, _. repeat split;
      [apply (list_elem_of_lookup_2 _ 0); reflexivity
      | apply (list_elem_of_lookup_2 _ 1); reflexivity
      | apply (list_elem_of_lookup_2 _ 2); reflexivity |].
    vm_compute. discriminate. }
  split.
  { left. intros e r He Hr. revert r Hr. apply Forall_forall.
    revert e He. apply Forall_forall.
    repeat constructor; vm_compute; discriminate. }
  eexists. split; [vm_compute; reflexivity |].
  split; [vm_compute; reflexivity |].
  split; [vm_compute; reflexivity |].
  intros Hin.
  apply (hull_below _ _ (to_Q (add (lit 772 1) (lit 1 4)))) in Hin.
  - revert Hin. vm_compute. intros Hle. apply Hle. reflexivity.
  - apply Forall_forall. repeat constructor; vm_compute; discriminate.
Qed.

(** * The unit table *)

(** C9: the table holds the six factors, the binary64 numbers nearest to
    1, 10.7639, 0.000247105, 0.0001, 0.000074752 and 0.00149505; rounded
    to six significant figures the acre, hectare, bigha and katha factors
    are exactly these decimals (and, for the acre of 4046.8564224 square
    metres and the hectare of 10000, the true factor to six significant
    figures); and 10000 square metres in hectares, rendered with two
    decimals, is "1.00". *)
Theorem conversion_table :
  conversionFactors !! "sq_m" = Some (lit 1 0) /\
  conversionFactors !! "sq_ft" = Some (lit 107639 4) /\
  conversionFactors !! "acres" = Some (lit 247105 9) /\
  conversionFactors !! "hectares" = Some (lit 1 4) /\
  conversionFactors !! "bigha" = Some (lit 74752 9) /\
  conversionFactors !! "katha" = Some (lit 149505 8) /\
  size conversionFactors = 6 /\
  sig6 (to_Q (factor "acres")) = sig6 (247105 # 1000000000) /\
  sig6 (to_Q (factor "hectares")) = sig6 (1 # 10000) /\
  sig6 (to_Q (factor "bigha")) = sig6 (74752 # 1000000000) /\
  sig6 (to_Q (factor "katha")) = sig6 (149505 # 100000000) /\
  sig6 (to_Q (factor "acres")) = (247105, 9)%Z /\
  sig6 (to_Q (factor "hectares")) = (100000, 9)%Z /\
  sig6 (to_Q (factor "bigha")) = (747520, 10)%Z /\
  sig6 (to_Q (factor "katha")) = (149505, 8)%Z /\
  sig6 (to_Q (factor "acres")) = sig6 (10000000 # 40468564224) /\
  sig6 (to_Q (factor "hectares")) = sig6 (1 # 10000) /\
  displayedArea (of_Z 10000) "hectares" = "1.00".
Proof. repeat split; vm_compute; reflexivity. Qed.

(** * The adjustment on an arbitrary record *)

Lemma find_index_Some p es i :
  find_index p es = Some i -> exists e, es !! i = Some e /\ p e = true.
Proof.
  revert i. induction es as [|e es IH]; intros i; simpl; [discriminate |].
  destruct (p e) eqn:Hp.
  - intros [= <-]. exists e. auto.
  - destruct (find_index p es) as [j|]; simpl; [|discriminate].
    intros [= <-]. apply (IH j). reflexivity.
Qed.

Lemma find_index_None p es :
  find_index p es = None -> forall e, e ∈ es -> p e = false.
Proof.
  induction es as [|e es IH]; simpl; intros Hf x Hx.
  - inversion Hx.
  - destruct (p e) eqn:Hp; [discriminate |].
    destruct (find_index p es); [discriminate |].
    apply elem_of_cons in Hx as [-> | Hx]; auto.
Qed.

Lemma sameBut_refl f e : sameBut f e e.
Proof. repeat split; auto. Qed.

Lemma sameBut_trans f e1 e2 e3 : sameBut f e1 e2 -> sameBut f e2 e3 -> sameBut f e1 e3.
Proof.
  intros (Hn & Hv & Hs) (Hn' & Hv' & Hs'). rewrite Hn in *.
  split; [assumption |]. split.
  - destruct Hv' as [Hv' | Hv']; [rewrite Hv'; exact Hv | right; exact Hv'].
  - destruct Hs' as [Hs' | Hs']; [rewrite Hs'; exact Hs | right; exact Hs'].
Qed.

Lemma adjusts_refl s : adjusts s s.
Proof. intros f. apply Forall_Forall2_diag, Forall_forall. intros. apply sameBut_refl. Qed.

Lemma adjusts_trans s1 s2 s3 : adjusts s1 s2 -> adjusts s2 s3 -> adjusts s1 s3.
Proof.
  intros H12 H23 f. specialize (H12 f). specialize (H23 f).
  revert H23. generalize (get_field f s3).
  induction H12 as [|e1 e2 l1 l2 He Hl IH]; intros l3 H23; inversion H23; subst.
  - constructor.
  - constructor; [eapply sameBut_trans; eassumption | apply IH; assumption].
Qed.

Lemma adjusts_names s s' f :
  adjusts s s' -> map name (get_field f s') = map name (get_field f s).
Proof.
  intros Hadj. specialize (Hadj f).
  induction Hadj as [|e e' l l' (Hn & _) _ IH]; simpl; [reflexivity |].
  rewrite Hn, IH. reflexivity.
Qed.

Lemma adjusts_micro s s' : adjusts s s' -> microNutrients s' = microNutrients s.
Proof.
  intros Hadj. specialize (Hadj Micro). simpl in Hadj.
  induction Hadj as [|e e' l l' (Hn & Hv & Hs) _ IH]; [reflexivity |].
  rewrite IH. f_equal.
  destruct Hv as [Hv | (k & Hk & _)]; [| inversion Hk].
  destruct Hs as [Hs | Hs]; [| inversion Hs].
  destruct e, e'; simpl in *; congruence.
Qed.

(** Replacing one entry of one array by a permitted variant. *)
Lemma adjusts_insert s f i e e' :
  get_field f s !! i = Some e -> sameBut f e e' ->
  adjusts s (set_field f (<[i := e']> (get_field f s)) s).
Proof.
  intros Hi He f'. destruct (decide (f = f')) as [<- | Hne].
  - rewrite get_set_field.
    rewrite <- (list_insert_id (get_field f s) i e Hi) at 1.
    apply Forall2_insert; [| exact He].
    apply Forall_Forall2_diag, Forall_forall. intros. apply sameBut_refl.
  - rewrite get_set_field_ne by assumption.
    apply Forall_Forall2_diag, Forall_forall. intros. apply sameBut_refl.
Qed.

Lemma adjusts_rewrite s0 s f key g :
  adjusts s0 s -> key ∈ valueKeys f ->
  adjusts s0
    (rewrite_value_at f (find_index (includesName key) (get_field f s0)) g s).
Proof.
  intros Hadj Hkey. unfold rewrite_value_at.
  destruct (find_index _ _) as [i|] eqn:Hfind; [| exact Hadj].
  destruct (get_field f s !! i) as [e|] eqn:Hi; [| exact Hadj].
  apply find_index_Some in Hfind as (e0 & Hi0 & Hp).
  destruct (Forall2_lookup_lr _ _ _ _ _ _ (Hadj f) Hi0 Hi) as (Hn & _).
  eapply adjusts_trans; [exact Hadj |].
  eapply adjusts_insert; [exact Hi |].
  split; [reflexivity |]. split; [| left; reflexivity].
  right. exists key. split; [exact Hkey |].
  unfold includesName in Hp. simpl. rewrite Hn. exact Hp.
Qed.

Lemma adjusts_set s0 s f n st :
  adjusts s0 s -> n ∈ statusNames f -> adjusts s0 (set_at f n st s).
Proof.
  intros Hadj Hn. unfold set_at.
  destruct (find_index _ _) as [i|] eqn:Hfind; [| exact Hadj].
  destruct (get_field f s !! i) as [e|] eqn:Hi; [| exact Hadj].
  apply find_index_Some in Hfind as (e1 & Hi1 & Hp).
  assert (e1 = e) as -> by congruence.
  unfold hasName in Hp. apply String.eqb_eq in Hp.
  eapply adjusts_trans; [exact Hadj |].
  eapply adjusts_insert; [exact Hi |].
  split; [reflexivity |]. split; [left; reflexivity |].
  right. rewrite Hp. exact Hn.
Qed.

Lemma adjusts_rain s : adjusts s (rainAdjusted s).
Proof.
  unfold rainAdjusted.
  apply (adjusts_rewrite s _ General "Organic Carbon"); [| set_solver].
  apply (adjusts_rewrite s _ General "pH"); [| set_solver].
  apply (adjusts_rewrite s _ Macro "(K)"); [| set_solver].
  apply (adjusts_rewrite s _ Macro "(N)"); [| set_solver].
  apply adjusts_refl.
Qed.

Lemma adjusts_heat s : adjusts s (heatAdjusted s).
Proof.
  unfold heatAdjusted.
  apply (adjusts_rewrite s _ General "Organic Carbon"); [| set_solver].
  apply (adjusts_rewrite s _ General "pH"); [| set_solver].
  apply (adjusts_rewrite s _ Macro "(K)"); [| set_solver].
  apply adjusts_refl.
Qed.

Lemma adjusts_status s : adjusts s (statusSet s).
Proof.
  unfold statusSet. cbv zeta.
  apply adjusts_set; [| set_solver].
  apply adjusts_set; [| set_solver].
  apply adjusts_set; [| set_solver].
  apply adjusts_set; [| set_solver].
  apply adjusts_set; [| set_solver].
  apply adjusts_refl.
Qed.

Lemma adjusts_content b1 b2 s : adjusts s (adjustedContent b1 b2 s).
Proof.
  unfold adjustedContent. cbv zeta.
  eapply adjusts_trans; [| apply adjusts_status].
  eapply adjusts_trans; [| destruct b2; [apply adjusts_heat | apply adjusts_refl]].
  destruct b1; [apply adjusts_rain | apply adjusts_refl].
Qed.

Lemma readSoil_app r h s ext :
  readSoil r h = Some s -> readSoil r (h ++ ext) = Some s.
Proof.
  intros Hr. apply readSoil_repr in Hr as (sh & <- & Hrepr).
  apply repr_readSoil, repr_app, Hrepr.
Qed.

(** X1: whatever record the baseline holds and whatever the forecast, the
    adjusted record has the entries of the baseline, in the same order and
    under the same names; a value differs only where the name includes one
    of the keys "(N)", "(K)" (macro-nutrients), "pH", "Organic Carbon"
    (general), a status only under one of the five graded names, and the
    micro-nutrients are those of the baseline. *)
Theorem adjustment_is_local base daily h s :
  readSoil base h = Some s ->
  exists res h' s',
    analyzeWeather base daily h = Some (res, h') /\
    readSoil (adjustedSoil res) h' = Some s' /\
    adjusts s s' /\
    (forall f, map name (get_field f s') = map name (get_field f s)) /\
    microNutrients s' = microNutrients s.
Proof.
  intros Hread.
  destruct (analyzeWeather_result base daily h s Hread)
    as (res & h' & Hrun & _ & _ & Hcontent & _).
  eexists res, h', _. split; [exact Hrun |]. split; [exact Hcontent |].
  pose proof (adjusts_content (existsb isHeavyRain daily)
                (3 <=? longest_run isDryHot daily) s) as Hadj.
  split; [exact Hadj |]. split.
  - intros f. apply adjusts_names, Hadj.
  - apply adjusts_micro, Hadj.
Qed.

Lemma adjustment_is_local_witness :
  exists res h' s',
    analyzeWeather initial_base (wetDay :: hotWeek) initial_store = Some (res, h') /\
    readSoil (adjustedSoil res) h' = Some s' /\
    adjusts detailedSoilData s' /\
    (forall f, map name (get_field f s') = map name (get_field f detailedSoilData)) /\
    microNutrients s' = microNutrients detailedSoilData.
Proof. exact (adjustment_is_local _ _ _ _ initial_reads). Defined.

(** X2: calls do not build on one another.  A second call, on the store
    the first one left, starts again from the baseline: its record is the
    one a first call with that forecast produces, as are its alerts and
    recommendations; it is a record of its own, and the record the first
    call returned still reads as it did. *)
Theorem analyzeWeather_again base daily1 daily2 h s :
  readSoil base h = Some s ->
  exists r1 h1 r2 h2,
    analyzeWeather base daily1 h = Some (r1, h1) /\
    analyzeWeather base daily2 h1 = Some (r2, h2) /\
    readSoil base h2 = Some s /\
    readSoil (adjustedSoil r2) h2
      = Some (adjustedContent (existsb isHeavyRain daily2)
                (3 <=? longest_run isDryHot daily2) s) /\
    readSoil (adjustedSoil r1) h2 = readSoil (adjustedSoil r1) h1 /\
    adjustedSoil r1 < adjustedSoil r2 /\
    (forall l, reachable h2 (adjustedSoil r2) l -> ~ reachable h1 (adjustedSoil r1) l) /\
    alerts r2 = specAlerts daily2 /\
    recs r2 = makeRecs (heavyRainDays (dayPass daily2))
                (maxHeatStreak (dayPass daily2)) daily2.
Proof.
  intros Hread.
  destruct (analyzeWeather_result base daily1 h s Hread)
    as (r1 & h1 & Hrun1 & Hal1 & Hrecs1 & Hc1 & (ext1 & ->) & _).
  pose proof (readSoil_app _ _ _ ext1 Hread) as Hread1.
  destruct (analyzeWeather_result base daily2 _ s Hread1)
    as (r2 & h2 & Hrun2 & Hal2 & Hrecs2 & Hc2 & (ext2 & ->) & Hfresh2).
  exists r1, (h ++ ext1), r2, ((h ++ ext1) ++ ext2).
  split; [exact Hrun1 |]. split; [exact Hrun2 |].
  split; [apply readSoil_app, Hread1 |].
  split; [exact Hc2 |].
  split; [rewrite Hc1; apply readSoil_app, Hc1 |].
  apply readSoil_repr in Hc1 as (sh1 & Hroot1 & Hrepr1).
  assert (Hvalid : forall l, reachable (h ++ ext1) (adjustedSoil r1) l ->
                             l < length (h ++ ext1)).
  { intros l Hl. rewrite <- Hroot1 in Hl.
    apply (repr_reachable _ _ _ l Hrepr1) in Hl.
    eapply repr_locs_valid; eassumption. }
  split.
  { assert (adjustedSoil r1 < length (h ++ ext1))
      by (apply Hvalid; left; reflexivity).
    assert (length (h ++ ext1) <= adjustedSoil r2)
      by (apply Hfresh2; left; reflexivity).
    lia. }
  split.
  { intros l Hl2 Hl1. apply Hfresh2 in Hl2. apply Hvalid in Hl1. lia. }
  split; assumption.
Qed.

Lemma analyzeWeather_again_witness :
  exists r1 h1 r2 h2,
    analyzeWeather initial_base wetWeek initial_store = Some (r1, h1) /\
    analyzeWeather initial_base hotWeek h1 = Some (r2, h2) /\
    readSoil initial_base h2 = Some detailedSoilData /\
    readSoil (adjustedSoil r2) h2
      = Some (adjustedContent (existsb isHeavyRain hotWeek)
                (3 <=? longest_run isDryHot hotWeek) detailedSoilData) /\
    readSoil (adjustedSoil r1) h2 = readSoil (adjustedSoil r1) h1 /\
    adjustedSoil r1 < adjustedSoil r2 /\
    (forall l, reachable h2 (adjustedSoil r2) l -> ~ reachable h1 (adjustedSoil r1) l) /\
    alerts r2 = specAlerts hotWeek /\
    recs r2 = makeRecs (heavyRainDays (dayPass hotWeek))
                (maxHeatStreak (dayPass hotWeek)) hotWeek.
Proof. exact (analyzeWeather_again _ wetWeek hotWeek _ _ initial_reads). Defined.

(** * The alerts, rule by rule *)

Lemma dayAlerts_elem a daily :
  a ∈ concat (map dayAlerts daily) <->
    (a = alert_wind /\ existsb isWindy daily = true) \/
    (a = alert_fungal /\ existsb isHumidWarm daily = true).
Proof.
  induction daily as [|d l IH]; simpl.
  - split; [intros Hin; inversion Hin | intros [[_ [=]] | [_ [=]]]].
  - rewrite elem_of_app, IH. unfold dayAlerts.
    rewrite !orb_true_iff, elem_of_app.
    destruct (isWindy d), (isHumidWarm d);
      rewrite ?list_elem_of_singleton; split; intros Hx;
      repeat match goal with
             | H : _ \/ _ |- _ => destruct H
             | H : _ /\ _ |- _ => destruct H
             | H : _ ∈ [] |- _ => inversion H
             end; subst; auto 6; try discriminate.
Qed.

Lemma firedAlerts_elem a daily :
  a ∈ firedAlerts daily <->
    (a = alert_wind /\ existsb isWindy daily = true) \/
    (a = alert_fungal /\ existsb isHumidWarm daily = true) \/
    (a = alert_rain /\ existsb isHeavyRain daily = true) \/
    (a = alert_drought /\ 3 <= longest_run isDryHot daily).
Proof.
  unfold firedAlerts. rewrite !elem_of_app, dayAlerts_elem.
  destruct (existsb isHeavyRain daily);
    destruct (Nat.leb_spec 3 (longest_run isDryHot daily));
    rewrite ?list_elem_of_singleton; split; intros Hx;
    repeat match goal with
           | H : _ \/ _ |- _ => destruct H
           | H : _ /\ _ |- _ => destruct H
           | H : _ ∈ [] |- _ => inversion H
           end; subst; auto 8; try discriminate; try lia.
Qed.

Lemma specAlerts_elem a daily :
  a ∈ specAlerts daily <->
    (a = alert_wind /\ existsb isWindy daily = true) \/
    (a = alert_fungal /\ existsb isHumidWarm daily = true) \/
    (a = alert_rain /\ existsb isHeavyRain daily = true) \/
    (a = alert_drought /\ 3 <= longest_run isDryHot daily) \/
    (a = alert_none /\ existsb isWindy daily = false
                    /\ existsb isHumidWarm daily = false
                    /\ existsb isHeavyRain daily = false
                    /\ longest_run isDryHot daily < 3).
Proof.
  pose proof (firedAlerts_elem a daily) as Hfired.
  pose proof (firedAlerts_elem alert_wind daily) as Hw.
  pose proof (firedAlerts_elem alert_fungal daily) as Hf.
  pose proof (firedAlerts_elem alert_rain daily) as Hr.
  pose proof (firedAlerts_elem alert_drought daily) as Hd.
  unfold specAlerts. destruct (firedAlerts daily) as [|x fired] eqn:Hfd.
  - rewrite list_elem_of_singleton. split.
    + intros ->. right; right; right; right. split; [reflexivity |].
      repeat split.
      * destruct (existsb isWindy daily); [| reflexivity].
        exfalso. eapply not_elem_of_nil. apply Hw. auto.
      * destruct (existsb isHumidWarm daily); [| reflexivity].
        exfalso. eapply not_elem_of_nil. apply Hf. auto.
      * destruct (existsb isHeavyRain daily); [| reflexivity].
        exfalso. eapply not_elem_of_nil. apply Hr. auto.
      * destruct (Nat.lt_ge_cases (longest_run isDryHot daily) 3); [assumption |].
        exfalso. eapply not_elem_of_nil. apply Hd. auto 6.
    + intros [Hx | [Hx | [Hx | [Hx | [Hx _]]]]]; [| | | | exact Hx];
        exfalso; eapply not_elem_of_nil; apply Hfired; auto 6.
  - rewrite elem_of_dedup, Hfired. split.
    + intros [Hx | [Hx | [Hx | Hx]]]; auto 6.
    + intros [Hx | [Hx | [Hx | [Hx | (-> & Hnw & Hnf & Hnr & Hnd)]]]]; auto 6.
      exfalso.
      assert (Hin : x ∈ x :: fired) by left.
      rewrite <- Hfd in Hin. apply firedAlerts_elem in Hin.
      destruct Hin as [[_ Hy] | [[_ Hy] | [[_ Hy] | [_ Hy]]]];
        try congruence; lia.
Qed.

Lemma longest_run_app_mid {A} (p : A -> bool) l1 l l2 :
  longest_run p l <= longest_run p (l1 ++ l ++ l2).
Proof.
  destruct (proj1 (longest_run_spec p l (longest_run p l)) (le_n _))
    as (k1 & r & k2 & -> & Hlen & Hall).
  apply longest_run_spec. exists (l1 ++ k1), r, (k2 ++ l2).
  split; [| split; assumption].
  rewrite <- !app_assoc. reflexivity.
Qed.

Lemma existsb_app_mid {A} (p : A -> bool) l1 l l2 :
  existsb p l = true -> existsb p (l1 ++ l ++ l2) = true.
Proof.
  intros Hl. rewrite !existsb_app, Hl. rewrite orb_true_r. reflexivity.
Qed.

(** X3: which alerts a call returns, rule by rule.  The wind, fungal and
    leaching alerts are returned exactly when some day of the forecast
    meets the rule, the drought alert exactly when three days in a row are
    dry and hot, the sentinel exactly when none of the four rules is met;
    nothing else is ever returned. *)
Theorem alerts_by_rule base daily h s :
  readSoil base h = Some s ->
  exists res h',
    analyzeWeather base daily h = Some (res, h') /\
    forall a, a ∈ alerts res <->
      (a = alert_wind /\ existsb isWindy daily = true) \/
      (a = alert_fungal /\ existsb isHumidWarm daily = true) \/
      (a = alert_rain /\ existsb isHeavyRain daily = true) \/
      (a = alert_drought /\ 3 <= longest_run isDryHot daily) \/
      (a = alert_none /\ existsb isWindy daily = false
                      /\ existsb isHumidWarm daily = false
                      /\ existsb isHeavyRain daily = false
                      /\ longest_run isDryHot daily < 3).
Proof.
  intros Hread.
  destruct (analyzeWeather_result base daily h s Hread)
    as (res & h' & Hrun & Hal & _).
  exists res, h'. split; [exact Hrun |].
  intros a. rewrite Hal. apply specAlerts_elem.
Qed.

Lemma alerts_by_rule_witness :
  exists res h',
    analyzeWeather initial_base (wetDay :: hotWeek) initial_store = Some (res, h') /\
    forall a, a ∈ alerts res <->
      (a = alert_wind /\ existsb isWindy (wetDay :: hotWeek) = true) \/
      (a = alert_fungal /\ existsb isHumidWarm (wetDay :: hotWeek) = true) \/
      (a = alert_rain /\ existsb isHeavyRain (wetDay :: hotWeek) = true) \/
      (a = alert_drought /\ 3 <= longest_run isDryHot (wetDay :: hotWeek)) \/
      (a = alert_none /\ existsb isWindy (wetDay :: hotWeek) = false
                      /\ existsb isHumidWarm (wetDay :: hotWeek) = false
                      /\ existsb isHeavyRain (wetDay :: hotWeek) = false
                      /\ longest_run isDryHot (wetDay :: hotWeek) < 3).
Proof. exact (alerts_by_rule _ _ _ _ initial_reads). Defined.

(** X4: a longer forecast never loses a warning.  Every alert but the
    sentinel that a forecast raises is raised as well by any forecast that
    contains it as a block of consecutive days. *)
Theorem alerts_monotone base before daily after h s :
  readSoil base h = Some s ->
  exists r1 h1 r2 h2,
    analyzeWeather base daily h = Some (r1, h1) /\
    analyzeWeather base (before ++ daily ++ after) h = Some (r2, h2) /\
    forall a, a ∈ alerts r1 -> a <> alert_none -> a ∈ alerts r2.
Proof.
  intros Hread.
  destruct (analyzeWeather_result base daily h s Hread)
    as (r1 & h1 & Hrun1 & Hal1 & _).
  destruct (analyzeWeather_result base (before ++ daily ++ after) h s Hread)
    as (r2 & h2 & Hrun2 & Hal2 & _).
  exists r1, h1, r2, h2. split; [exact Hrun1 |]. split; [exact Hrun2 |].
  intros a. rewrite Hal1, Hal2, !specAlerts_elem.
  intros [[-> Hx] | [[-> Hx] | [[-> Hx] | [[-> Hx] | [-> _]]]]] Hne.
  - left. split; [reflexivity |]. apply existsb_app_mid, Hx.
  - right; left. split; [reflexivity |]. apply existsb_app_mid, Hx.
  - right; right; left. split; [reflexivity |]. apply existsb_app_mid, Hx.
  - right; right; right; left. split; [reflexivity |].
    etransitivity; [exact Hx |]. apply longest_run_app_mid.
  - congruence.
Qed.

Lemma alerts_monotone_witness :
  exists r1 h1 r2 h2,
    analyzeWeather initial_base [hotDay; hotDay; hotDay] initial_store = Some (r1, h1) /\
    analyzeWeather initial_base ([calmDay] ++ [hotDay; hotDay; hotDay] ++ [wetDay])
      initial_store = Some (r2, h2) /\
    forall a, a ∈ alerts r1 -> a <> alert_none -> a ∈ alerts r2.
Proof. exact (alerts_monotone _ [calmDay] _ [wetDay] _ _ initial_reads). Defined.

(** * The charts *)

Lemma runs_buildPie h sh s :
  repr h sh s ->
  runs (buildPieFromSoil (sh_root sh)) h (fun p h' => h' = h /\ p = pieOfContent s).
Proof.
  intros Hrepr. pose proof (Inv_nil _ _ _ Hrepr) as HInv.
  unfold buildPieFromSoil, pieOfContent, chartValue. cbv zeta.
  run_read runs_load_field. run_read runs_find. run_read runs_num_of.
  run_read runs_load_field. run_read runs_find. run_read runs_num_of.
  run_read runs_load_field. run_read runs_find. run_read runs_num_of.
  run_read runs_load_field. run_read runs_find. run_read runs_num_of.
  run_read runs_load_field. run_read runs_find. run_read runs_num_of.
  run_read runs_load_field. run_read runs_find. run_read runs_num_of.
  run_read runs_load_field. run_read runs_find. run_read runs_num_of.
  apply runs_ret. split; reflexivity.
Qed.

Lemma buildPie_content soil h s :
  readSoil soil h = Some s -> buildPieFromSoil soil h = Some (pieOfContent s, h).
Proof.
  intros Hread. apply readSoil_repr in Hread as (sh & <- & Hrepr).
  destruct (runs_buildPie h sh s Hrepr) as (p & h' & Hrun & -> & ->).
  exact Hrun.
Qed.

Lemma slices_content f s :
  slices f (pieOfContent s)
  = map (fun kn => mkSlice (snd kn) (chartValue f (fst kn) s)) (chartKeys f).
Proof. destruct f; reflexivity. Qed.

Lemma chartValue_missing f key s :
  (forall e, e ∈ get_field f s -> Js.includes key (name e) = false) ->
  chartValue f key s = of_Z 0.
Proof.
  intros Hnone. unfold chartValue, num_at.
  destruct (find_index _ _) as [i|] eqn:Hfind; [| reflexivity].
  apply find_index_Some in Hfind as (e & Hi & Hp).
  apply list_elem_of_lookup_2 in Hi. apply Hnone in Hi.
  unfold includesName in Hp. congruence.
Qed.

Lemma chartValue_first f key s l1 e l2 :
  get_field f s = l1 ++ e :: l2 ->
  (forall e', e' ∈ l1 -> Js.includes key (name e') = false) ->
  Js.includes key (name e) = true ->
  chartValue f key s = num (Str (value e)).
Proof.
  intros Hsplit Hbefore Hhit. unfold chartValue, num_at.
  assert (Hfind : find_index (includesName key) (get_field f s) = Some (length l1)).
  { rewrite Hsplit. clear Hsplit.
    induction l1 as [|x l1 IH]; simpl.
    - unfold includesName at 1. rewrite Hhit. reflexivity.
    - unfold includesName at 1. rewrite (Hbefore x) by left.
      rewrite IH; [reflexivity |]. intros e' He'. apply Hbefore. right. exact He'. }
  rewrite Hfind. simpl. rewrite Hsplit.
  rewrite lookup_app_r by lia. rewrite Nat.sub_diag. reflexivity.
Qed.

(** X5: [buildPieFromSoil] returns on every record, whatever arrays it
    holds, and leaves the store as it was.  Each chart has its fixed
    slices, in order; a slice shows the number read from the value of the
    first entry whose name includes the slice's key, and 0 when no entry
    does. *)
Theorem buildPieFromSoil_reads soil h s :
  readSoil soil h = Some s ->
  exists p,
    buildPieFromSoil soil h = Some (p, h) /\
    (forall f, map slice_name (slices f p) = map snd (chartKeys f)) /\
    (forall f i key n,
        chartKeys f !! i = Some (key, n) ->
        exists v, slices f p !! i = Some (mkSlice n v) /\
          (forall l1 e l2,
              get_field f s = l1 ++ e :: l2 ->
              (forall e', e' ∈ l1 -> Js.includes key (name e') = false) ->
              Js.includes key (name e) = true ->
              v = num (Str (value e))) /\
          ((forall e, e ∈ get_field f s -> Js.includes key (name e) = false) ->
           v = of_Z 0)).
Proof.
  intros Hread. exists (pieOfContent s).
  split; [apply buildPie_content, Hread |]. split.
  - intros f. destruct f; reflexivity.
  - intros f i key n Hi. exists (chartValue f key s). split.
    + rewrite slices_content, list_lookup_fmap, Hi. reflexivity.
    + split.
      * intros l1 e l2. apply chartValue_first.
      * apply chartValue_missing.
Qed.

Lemma buildPieFromSoil_reads_witness :
  exists p,
    buildPieFromSoil initial_base initial_store = Some (p, initial_store) /\
    (forall f, map slice_name (slices f p) = map snd (chartKeys f)) /\
    (forall f i key n,
        chartKeys f !! i = Some (key, n) ->
        exists v, slices f p !! i = Some (mkSlice n v) /\
          (forall l1 e l2,
              get_field f detailedSoilData = l1 ++ e :: l2 ->
              (forall e', e' ∈ l1 -> Js.includes key (name e') = false) ->
              Js.includes key (name e) = true ->
              v = num (Str (value e))) /\
          ((forall e, e ∈ get_field f detailedSoilData ->
                      Js.includes key (name e) = false) ->
           v = of_Z 0)).
Proof. exact (buildPieFromSoil_reads _ _ _ initial_reads). Defined.

(** * Statuses and charts agree *)

Lemma sameValues_refl s : sameValues s s.
Proof. intros f. apply Forall_Forall2_diag, Forall_forall. auto. Qed.

Lemma sameValues_trans s1 s2 s3 : sameValues s1 s2 -> sameValues s2 s3 -> sameValues s1 s3.
Proof.
  intros H12 H23 f. specialize (H12 f). specialize (H23 f).
  revert H23. generalize (get_field f s3).
  induction H12 as [|e1 e2 l1 l2 [Hn Hv] Hl IH]; intros l3 H23; inversion H23; subst.
  - constructor.
  - constructor; [| apply IH; assumption].
    destruct H1 as [Hn' Hv']. split; congruence.
Qed.

Lemma sameValues_set f n st s : sameValues s (set_at f n st s).
Proof.
  unfold set_at.
  destruct (find_index _ _) as [i|]; [| apply sameValues_refl].
  destruct (get_field f s !! i) as [e|] eqn:Hi; [| apply sameValues_refl].
  intros f'. destruct (decide (f = f')) as [<- | Hne].
  - rewrite get_set_field.
    rewrite <- (list_insert_id (get_field f s) i e Hi) at 1.
    apply Forall2_insert; [| split; reflexivity].
    apply Forall_Forall2_diag, Forall_forall. auto.
  - rewrite get_set_field_ne by assumption.
    apply Forall_Forall2_diag, Forall_forall. auto.
Qed.

Lemma sameValues_status s : sameValues s (statusSet s).
Proof.
  unfold statusSet. cbv zeta.
  repeat (eapply sameValues_trans; [| apply sameValues_set]).
  apply sameValues_refl.
Qed.

Lemma find_index_names p es es' :
  Forall2 (fun e e' => name e' = name e /\ value e' = value e) es es' ->
  (forall e e', name e' = name e -> p e' = p e) ->
  find_index p es' = find_index p es.
Proof.
  intros Hall Hp. induction Hall as [|e e' l l' [Hn _] _ IH]; simpl; [reflexivity |].
  rewrite (Hp e e' Hn), IH. reflexivity.
Qed.

Lemma chartValue_sameValues f key s s' :
  sameValues s s' -> chartValue f key s' = chartValue f key s.
Proof.
  intros Hsame. unfold chartValue, num_at. specialize (Hsame f).
  rewrite (find_index_names _ _ _ Hsame)
    by (intros e e' Hn; unfold includesName; rewrite Hn; reflexivity).
  destruct (find_index _ (get_field f s)) as [i|]; simpl; [| reflexivity].
  destruct (get_field f s !! i) as [e|] eqn:Hi.
  - destruct (Forall2_lookup_l _ _ _ _ _ Hsame Hi) as (e' & -> & _ & ->).
    reflexivity.
  - destruct (get_field f s' !! i) as [e'|] eqn:Hi'; [| reflexivity].
    destruct (Forall2_lookup_r _ _ _ _ _ Hsame Hi') as (e & He & _). congruence.
Qed.

Lemma find_insert_hit p (es : list Entry) i e1 :
  find_index p es = Some i -> p e1 = true ->
  List.find p (<[i := e1]> es) = Some e1.
Proof.
  revert i. induction es as [|e es IH]; intros i; simpl; [discriminate |].
  destruct (p e) eqn:Hp.
  - intros [= <-] H1. simpl. rewrite H1. reflexivity.
  - destruct (find_index p es) as [j|]; simpl; [| discriminate].
    intros [= <-] H1. simpl. rewrite Hp. apply IH; auto.
Qed.

Lemma find_insert_miss p (es : list Entry) i e0 e1 :
  es !! i = Some e0 -> p e0 = false -> p e1 = false ->
  List.find p (<[i := e1]> es) = List.find p es.
Proof.
  revert i. induction es as [|e es IH]; intros [|i]; simpl; try discriminate.
  - intros [= ->] -> ->. reflexivity.
  - intros Hi H0 H1. rewrite (IH i) by assumption. reflexivity.
Qed.

Lemma find_index_find p (es : list Entry) :
  find_index p es = None -> List.find p es = None.
Proof.
  induction es as [|e es IH]; simpl; [reflexivity |].
  destruct (p e); [discriminate |].
  destruct (find_index p es); [discriminate |]. intros _. apply IH. reflexivity.
Qed.

Lemma entryOf_set_eq f n st s e :
  entryOf n (get_field f (set_at f n st s)) = Some e -> status e = st.
Proof.
  unfold set_at, entryOf.
  destruct (find_index _ _) as [i|] eqn:Hfind.
  - pose proof Hfind as Hfind'.
    apply find_index_Some in Hfind' as (e0 & Hi & Hp). rewrite Hi.
    rewrite get_set_field.
    rewrite (find_insert_hit _ _ _ _ Hfind) by exact Hp.
    intros [= <-]. reflexivity.
  - rewrite (find_index_find _ _ Hfind). discriminate.
Qed.

Lemma entryOf_set_ne f f' n n' st s :
  f <> f' \/ n <> n' ->
  entryOf n (get_field f (set_at f' n' st s)) = entryOf n (get_field f s).
Proof.
  intros Hne. unfold set_at.
  destruct (find_index _ _) as [i|] eqn:Hfind; [| reflexivity].
  apply find_index_Some in Hfind as (e0 & Hi & Hp). rewrite Hi.
  destruct (decide (f' = f)) as [-> | Hf].
  - rewrite get_set_field. unfold entryOf.
    destruct Hne as [Hne | Hne]; [congruence |].
    unfold hasName in Hp. apply String.eqb_eq in Hp.
    apply (find_insert_miss _ _ _ e0); [exact Hi | |];
      unfold hasName; simpl; rewrite Hp; apply String.eqb_neq; congruence.
  - rewrite get_set_field_ne by assumption. reflexivity.
Qed.

Ltac pick_slice :=
  first [ apply list_elem_of_here
        | apply list_elem_of_further; pick_slice ].

Ltac other_entry H :=
  rewrite entryOf_set_ne in H by ((left; discriminate) || (right; discriminate)).

Lemma statusSet_graded s :
  let p := pieOfContent (statusSet s) in
  gradedAsCharted Macro "Nitrogen (N)" "Nitrogen (N)" (of_Z 250) (of_Z 350)
    (statusSet s) p /\
  gradedAsCharted Macro "Phosphorus (P)" "Phosphorus (P)" (of_Z 12) (of_Z 30)
    (statusSet s) p /\
  gradedAsCharted Macro "Potassium (K)" "Potassium (K)" (of_Z 150) (of_Z 300)
    (statusSet s) p /\
  gradedAsCharted General "pH Level" "pH Level" (lit 60 1) (lit 75 1)
    (statusSet s) p /\
  gradedAsCharted General "Organic Carbon (OC)" "Organic Carbon (%)"
    (lit 75 2) (lit 15 1) (statusSet s) p.
Proof.
  cbv zeta. unfold gradedAsCharted.
  pose proof (chartValue_sameValues Macro "(N)" _ _ (sameValues_status s)) as HN.
  pose proof (chartValue_sameValues Macro "(P)" _ _ (sameValues_status s)) as HP.
  pose proof (chartValue_sameValues Macro "(K)" _ _ (sameValues_status s)) as HK.
  pose proof (chartValue_sameValues General "pH" _ _ (sameValues_status s)) as HpH.
  pose proof (chartValue_sameValues General "Organic Carbon" _ _
                (sameValues_status s)) as HOC.
  repeat split; intros e He; eexists; (split; [simpl; pick_slice |]).
  - rewrite HN. unfold statusSet in He. cbv zeta in He.
    do 4 (other_entry He). apply entryOf_set_eq in He. exact He.
  - rewrite HP. unfold statusSet in He. cbv zeta in He.
    do 3 (other_entry He). apply entryOf_set_eq in He. exact He.
  - rewrite HK. unfold statusSet in He. cbv zeta in He.
    do 2 (other_entry He). apply entryOf_set_eq in He. exact He.
  - rewrite HpH. unfold statusSet in He. cbv zeta in He.
    do 1 (other_entry He). apply entryOf_set_eq in He. exact He.
  - rewrite HOC. unfold statusSet in He. cbv zeta in He.
    apply entryOf_set_eq in He. exact He.
Qed.

(** X6: the statuses shown and the charts never disagree.  Whatever the
    baseline holds and whatever the forecast, in the record a call
    returns each of the five graded entries, when present, has the grade
    of the very number that [buildPieFromSoil] charts for it. *)
Theorem statuses_match_charts base daily h s :
  readSoil base h = Some s ->
  exists res h1 s' p,
    analyzeWeather base daily h = Some (res, h1) /\
    readSoil (adjustedSoil res) h1 = Some s' /\
    buildPieFromSoil (adjustedSoil res) h1 = Some (p, h1) /\
    gradedAsCharted Macro "Nitrogen (N)" "Nitrogen (N)" (of_Z 250) (of_Z 350) s' p /\
    gradedAsCharted Macro "Phosphorus (P)" "Phosphorus (P)" (of_Z 12) (of_Z 30) s' p /\
    gradedAsCharted Macro "Potassium (K)" "Potassium (K)" (of_Z 150) (of_Z 300) s' p /\
    gradedAsCharted General "pH Level" "pH Level" (lit 60 1) (lit 75 1) s' p /\
    gradedAsCharted General "Organic Carbon (OC)" "Organic Carbon (%)"
      (lit 75 2) (lit 15 1) s' p.
Proof.
  intros Hread.
  destruct (analyzeWeather_result base daily h s Hread)
    as (res & h1 & Hrun & _ & _ & Hcontent & _).
  eexists res, h1, _, _. split; [exact Hrun |]. split; [exact Hcontent |].
  split; [apply buildPie_content, Hcontent |].
  unfold adjustedContent. cbv zeta. apply statusSet_graded.
Qed.

Lemma statuses_match_charts_witness :
  exists res h1 s' p,
    analyzeWeather initial_base wetWeek initial_store = Some (res, h1) /\
    readSoil (adjustedSoil res) h1 = Some s' /\
    buildPieFromSoil (adjustedSoil res) h1 = Some (p, h1) /\
    gradedAsCharted Macro "Nitrogen (N)" "Nitrogen (N)" (of_Z 250) (of_Z 350) s' p /\
    gradedAsCharted Macro "Phosphorus (P)" "Phosphorus (P)" (of_Z 12) (of_Z 30) s' p /\
    gradedAsCharted Macro "Potassium (K)" "Potassium (K)" (of_Z 150) (of_Z 300) s' p /\
    gradedAsCharted General "pH Level" "pH Level" (lit 60 1) (lit 75 1) s' p /\
    gradedAsCharted General "Organic Carbon (OC)" "Organic Carbon (%)"
      (lit 75 2) (lit 15 1) s' p.
Proof. exact (statuses_match_charts _ wetWeek _ _ initial_reads). Defined.

(** * The weather effect *)

Lemma leb_zero_eq x : leb x (of_Z 0) = false -> strict_eq x (of_Z 0) = false.
Proof. destruct x as [[]| [] | | [] m e]; try reflexivity; discriminate. Qed.

Lemma gtb_zero x : gtb x (of_Z 0) = true -> truthy x = true /\ leb x (of_Z 0) = false.
Proof. destruct x as [[]| [] | | [] m e]; try discriminate; split; reflexivity. Qed.

Lemma nonempty_Some e : nonempty e = true -> exists c m, e = Some (String c m).
Proof. destruct e as [[|c m]|]; try discriminate. eauto. Qed.

Lemma fetchWeather_skipped coords area apiKey base reply st h :
  present coords = false \/ leb area (of_Z 0) = true ->
  fetchWeather coords area apiKey base reply st h = Some (st, h).
Proof.
  intros Hskip. unfold fetchWeather.
  destruct (present coords); [destruct Hskip as [[=] | ->] |]; reflexivity.
Qed.

Lemma fetchWeather_no_key coords area apiKey base reply st h :
  present coords = true -> leb area (of_Z 0) = false -> nonempty apiKey = false ->
  fetchWeather coords area apiKey base reply st h
  = Some (Weather.setWeatherLoading false
            (Weather.setWeatherError (Some missing_key)
               (Weather.setWeatherError None (Weather.setWeatherLoading true st))),
          h).
Proof. intros Hc Ha Hk. unfold fetchWeather. rewrite Hc, Ha, Hk. reflexivity. Qed.

Lemma fetchWeather_requested coords area apiKey base reply st h :
  present coords = true -> leb area (of_Z 0) = false -> nonempty apiKey = true ->
  fetchWeather coords area apiKey base reply st h
  = let st0 := Weather.setWeatherError None (Weather.setWeatherLoading true st) in
    match fetchWeather_try base reply st0 h with
    | Some (r, h') =>
        Some (Weather.setWeatherLoading false
                match r with
                | Resolved st' => st'
                | Thrown e =>
                    Weather.setWeatherError
                      (Some (if nonempty e then default "" e
                             else "Failed to fetch weather")) st0
                end, h')
    | None => None
    end.
Proof.
  intros Hc Ha Hk. unfold fetchWeather. rewrite Hc, Ha, Hk. cbn [negb orb].
  cbv zeta. rewrite bind_eq.
  destruct (fetchWeather_try _ _ _ _) as [[r h']|]; reflexivity.
Qed.

(** X7: a run of [fetchWeather] that fails - no API key, a request that
    is rejected, a status outside 200-299, or a body that does not parse -
    touches nothing but the two flags: the store and every cell holding
    forecast data are as before, [weatherLoading] is false, and
    [weatherError] is a non-empty message, which the card then shows.
    Status 401 reads "Invalid API key" whatever else the reply holds. *)
Theorem fetchWeather_failure coords area apiKey base reply st h :
  present coords = true ->
  leb area (of_Z 0) = false ->
  nonempty apiKey = false \/ replyData reply = None ->
  exists st' msg,
    fetchWeather coords area apiKey base reply st h = Some (st', h) /\
    Weather.weatherLoading st' = false /\
    Weather.weatherError st' = Some msg /\
    msg <> "" /\
    forecastCells st' = forecastCells st /\
    weatherPanel coords area st' = Failure ("Failed to load weather: " +:+ msg) /\
    (nonempty apiKey = false -> msg = missing_key) /\
    (nonempty apiKey = true ->
     forall res, reply = Resolved res -> res_ok res = false ->
       msg = if (res_status res =? 401)%N then "Invalid API key"
             else "Weather API error: " +:+ Js.digits (res_status res)).
Proof.
  intros Hc Ha Hfail. pose proof (leb_zero_eq _ Ha) as Hz.
  destruct (nonempty apiKey) eqn:Hkey.
  - rewrite (fetchWeather_requested _ _ _ _ _ _ _ Hc Ha Hkey). cbv zeta.
    destruct Hfail as [[=] | Hnone].
    assert (Htry : exists e c m,
               fetchWeather_try base reply
                 (Weather.setWeatherError None (Weather.setWeatherLoading true st)) h
               = Some (Thrown e, h) /\
               (if nonempty e then default "" e else "Failed to fetch weather")
               = String c m /\
               (forall res, reply = Resolved res -> res_ok res = false ->
                  String c m
                  = if (res_status res =? 401)%N then "Invalid API key"
                    else "Weather API error: " +:+ Js.digits (res_status res))).
    { unfold fetchWeather_try, replyData in *.
      destruct reply as [res | e].
      - destruct (res_ok res) eqn:Hok; simpl negb; cbv iota.
        + destruct (res_json res) as [data | e]; [discriminate |].
          destruct (nonempty e) eqn:He.
          * destruct (nonempty_Some _ He) as (c & m & ->).
            exists (Some (String c m)), c, m. repeat split; [idtac].
            intros res' [= <-] Hok'. congruence.
          * exists e. eexists _, _. rewrite He. repeat split; [idtac].
            intros res' [= <-] Hok'. congruence.
        + destruct (res_status res =? 401)%N eqn:H401.
          * eexists _, _, _. split; [reflexivity |]. split; [reflexivity |].
            intros res' [= <-] _. rewrite H401. reflexivity.
          * eexists _, _, _. split; [reflexivity |]. split; [reflexivity |].
            intros res' [= <-] _. rewrite H401. reflexivity.
      - destruct (nonempty e) eqn:He.
        + destruct (nonempty_Some _ He) as (c & m & ->).
          exists (Some (String c m)), c, m. repeat split; [idtac].
          intros res' [=].
        + exists e. eexists _, _. rewrite He. repeat split; [idtac].
          intros res' [=]. }
    destruct Htry as (e & c & m & Htry & Hmsg & Hstatus).
    rewrite Htry, Hmsg.
    eexists _, (String c m). split; [reflexivity |].
    split; [reflexivity |]. split; [reflexivity |].
    split; [discriminate |]. split; [reflexivity |]. split.
    + unfold weatherPanel. rewrite Hc, Hz. reflexivity.
    + split; [discriminate |]. intros _. exact Hstatus.
  - rewrite (fetchWeather_no_key _ _ _ _ _ _ _ Hc Ha Hkey).
    eexists _, missing_key. split; [reflexivity |].
    split; [reflexivity |]. split; [reflexivity |].
    split; [discriminate |]. split; [reflexivity |]. split.
    + unfold weatherPanel. rewrite Hc, Hz. reflexivity.
    + split; [reflexivity |]. discriminate.
Qed.

Lemma fetchWeather_failure_witness :
  exists st' msg,
    fetchWeather sampleCentre sampleArea sampleKey initial_base
      (Resolved (mkResponse 401 (Thrown None))) (Weather.init initial_base)
      initial_store = Some (st', initial_store) /\
    Weather.weatherLoading st' = false /\
    Weather.weatherError st' = Some msg /\
    msg <> "" /\
    forecastCells st' = forecastCells (Weather.init initial_base) /\
    weatherPanel sampleCentre sampleArea st'
      = Failure ("Failed to load weather: " +:+ msg) /\
    (nonempty sampleKey = false -> msg = missing_key) /\
    (nonempty sampleKey = true ->
     forall res, Resolved (mkResponse 401 (Thrown None)) = Resolved res ->
       res_ok res = false ->
       msg = if (res_status res =? 401)%N then "Invalid API key"
             else "Weather API error: " +:+ Js.digits (res_status res)).
Proof.
  apply (fetchWeather_failure sampleCentre sampleArea sampleKey initial_base
           (Resolved (mkResponse 401 (Thrown None))) (Weather.init initial_base)
           initial_store); [reflexivity | reflexivity | right; reflexivity].
Defined.


(** A run whose request succeeds, step by step: the call of
    [analyzeWeather] on the first seven days, and the state the run ends
    in. *)
Lemma fetchWeather_run coords area apiKey base reply data st h s :
  present coords = true ->
  leb area (of_Z 0) = false ->
  nonempty apiKey = true ->
  replyData reply = Some data ->
  readSoil base h = Some s ->
  let next7 := take 7 (default [] (daily data)) in
  let s' := adjustedContent (existsb isHeavyRain next7)
              (3 <=? longest_run isDryHot next7) s in
  exists res ext,
    analyzeWeather base next7 h = Some (res, h ++ ext) /\
    alerts res = specAlerts next7 /\
    recs res = makeRecs (heavyRainDays (dayPass next7))
                 (maxHeatStreak (dayPass next7)) next7 /\
    readSoil (adjustedSoil res) (h ++ ext) = Some s' /\
    (forall l, reachable (h ++ ext) (adjustedSoil res) l -> length h <= l) /\
    fetchWeather coords area apiKey base reply st h
    = Some (Weather.mk false None (current data) next7 (adjustedSoil res)
              (Pie.macro (pieOfContent s')) (Pie.general (pieOfContent s'))
              (Pie.micro (pieOfContent s')) (alerts res) (recs res),
            h ++ ext).
Proof.
  intros Hc Ha Hkey Hdata Hread next7 s'.
  destruct (analyzeWeather_result base next7 h s Hread)
    as (res & h' & Hrun & Hal & Hrecs & Hcontent & (ext & ->) & Hfresh).
  fold s' in Hcontent.
  pose proof (buildPie_content _ _ _ Hcontent) as Hpie.
  exists res, ext. split; [exact Hrun |]. split; [exact Hal |].
  split; [exact Hrecs |]. split; [exact Hcontent |]. split; [exact Hfresh |].
  rewrite (fetchWeather_requested _ _ _ _ _ _ _ Hc Ha Hkey). cbv zeta.
  unfold fetchWeather_try, replyData in *.
  destruct reply as [r | e]; [| discriminate].
  destruct (res_ok r); [| discriminate]. cbn [negb].
  destruct (res_json r) as [d | e]; [| discriminate].
  injection Hdata as ->. fold next7.
  rewrite bind_eq, Hrun, bind_eq, Hpie. reflexivity.
Qed.



(** * Selecting the field *)

Lemma computeCentroid_Some {A} `{Arith A} (cs : list (A * A)) :
  cs <> [] -> exists cen, computeCentroid cs = Some cen.
Proof.
  intros Hne. rewrite computeCentroid_unfold.
  destruct cs as [|[lat0 lon0] rest]; [congruence |].
  destruct (num_ltb _ _); eauto.
Qed.

Lemma select_polygon l cs area st :
  cs <> [] ->
  let st' := handleMapLocationSelect l (Some cs) area st in
  Field.fieldPolygon st' = cs /\
  Field.coords st' = computeCentroid cs /\
  present (Field.coords st') = true.
Proof.
  intros Hcs. cbv zeta. unfold handleMapLocationSelect.
  destruct cs as [|c cs]; [congruence |].
  destruct (computeCentroid_Some (c :: cs)) as [cen Hcen]; [discriminate |].
  cbn [length Nat.eqb negb]. rewrite Hcen.
  destruct area as [a|]; [destruct (truthy a) |]; repeat split; reflexivity.
Qed.

Lemma select_area l coordinates a st :
  truthy a = true ->
  Field.fieldAreaInSqM (handleMapLocationSelect l coordinates (Some a) st) = a.
Proof.
  intros Ha. unfold handleMapLocationSelect. rewrite Ha.
  destruct coordinates as [[|c cs]|]; [reflexivity | | reflexivity].
  destruct (computeCentroid (c :: cs)); reflexivity.
Qed.

(** X9: what one selection on the map changes.  The location is always
    replaced.  A non-empty vertex list replaces the polygon and, with it,
    the centre, which becomes the centroid of that list; an absent or
    empty list leaves both.  The area is replaced only by a number that
    is neither 0 nor NaN: with an absent, zero or NaN area the previous
    area stays, next to the new polygon. *)
Theorem handleMapLocationSelect_cells l coordinates area st :
  let st' := handleMapLocationSelect l coordinates area st in
  Field.location st' = l /\
  (forall cs, coordinates = Some cs -> cs <> [] ->
     Field.fieldPolygon st' = cs /\
     Field.coords st' = computeCentroid cs /\
     present (Field.coords st') = true) /\
  (coordinates = None \/ coordinates = Some [] ->
     Field.fieldPolygon st' = Field.fieldPolygon st /\
     Field.coords st' = Field.coords st) /\
  (forall a, area = Some a -> truthy a = true -> Field.fieldAreaInSqM st' = a) /\
  (area = None \/ area = Some NaN \/ (exists sg, area = Some (S754_zero sg)) ->
     Field.fieldAreaInSqM st' = Field.fieldAreaInSqM st).
Proof.
  cbv zeta. unfold handleMapLocationSelect.
  split; [| split; [| split; [| split]]].
  - destruct area as [a|]; [destruct (truthy a) |];
      (destruct coordinates as [[|c cs]|]; [reflexivity | | reflexivity];
       destruct (computeCentroid (c :: cs)); reflexivity).
  - intros cs -> Hcs. destruct cs as [|c cs]; [congruence |].
    destruct (computeCentroid_Some (c :: cs)) as [cen Hcen]; [discriminate |].
    cbn [length Nat.eqb negb]. rewrite Hcen.
    destruct area as [a|]; [destruct (truthy a) |]; repeat split; reflexivity.
  - intros [-> | ->];
      (destruct area as [a|]; [destruct (truthy a) |]; split; reflexivity).
  - intros a -> Ha. rewrite Ha.
    destruct coordinates as [[|c cs]|]; [reflexivity | | reflexivity].
    destruct (computeCentroid (c :: cs)); reflexivity.
  - intros [-> | [-> | [sg ->]]]; cbn [truthy];
      (destruct coordinates as [[|c cs]|]; [reflexivity | | reflexivity];
       destruct (computeCentroid (c :: cs)); reflexivity).
Qed.

(** X10: in every state the handler can lead to, the centre is the
    centroid of the polygon on display, and there is a centre exactly when
    there is a polygon; the area is the initial 0 or a number that is
    neither zero nor NaN, so that it is never NaN. *)
Theorem centre_follows_polygon st :
  fieldStates st ->
  Field.coords st = computeCentroid (Field.fieldPolygon st) /\
  present (Field.coords st) = negb (length (Field.fieldPolygon st) =? 0) /\
  (Field.fieldAreaInSqM st = of_Z 0 \/ truthy (Field.fieldAreaInSqM st) = true) /\
  Field.fieldAreaInSqM st <> NaN.
Proof.
  intros Hst.
  assert (Hinv : Field.coords st = computeCentroid (Field.fieldPolygon st)).
  { induction Hst as [|st l cs a Hst IH]; [reflexivity |].
    unfold handleMapLocationSelect.
    destruct cs as [[|c cs]|]; cbn [length Nat.eqb negb].
    - destruct a as [a|]; [destruct (truthy a) |]; exact IH.
    - destruct (computeCentroid_Some (c :: cs)) as [cen Hcen]; [discriminate |].
      rewrite Hcen.
      destruct a as [a|]; [destruct (truthy a) |];
        cbn [Field.coords Field.fieldPolygon]; symmetry; exact Hcen.
    - destruct a as [a|]; [destruct (truthy a) |]; exact IH. }
  assert (Harea : Field.fieldAreaInSqM st = of_Z 0
                  \/ truthy (Field.fieldAreaInSqM st) = true).
  { clear Hinv. induction Hst as [|st l cs a Hst IH]; [left; reflexivity |].
    unfold handleMapLocationSelect.
    destruct a as [a|]; [destruct (truthy a) eqn:Ha |];
      (destruct cs as [[|c cs]|]; [| destruct (computeCentroid (c :: cs)) |]);
      cbn [Field.fieldAreaInSqM length Nat.eqb negb]; auto. }
  split; [exact Hinv |]. split.
  - rewrite Hinv.
    destruct (Field.fieldPolygon st) as [|c cs]; [reflexivity |].
    destruct (computeCentroid_Some (c :: cs)) as [cen ->]; [discriminate |].
    reflexivity.
  - split; [exact Harea |].
    destruct Harea as [-> | Ht]; [discriminate |].
    intros Hnan. rewrite Hnan in Ht. discriminate.
Qed.

Lemma centre_follows_polygon_witness :
  let st := handleMapLocationSelect "North field" (Some smallSquare) (Some NaN)
              Field.init in
  Field.coords st = computeCentroid (Field.fieldPolygon st) /\
  present (Field.coords st) = negb (length (Field.fieldPolygon st) =? 0) /\
  (Field.fieldAreaInSqM st = of_Z 0 \/ truthy (Field.fieldAreaInSqM st) = true) /\
  Field.fieldAreaInSqM st <> NaN.
Proof.
  apply (centre_follows_polygon
           (handleMapLocationSelect "North field" (Some smallSquare) (Some NaN)
              Field.init)).
  apply fieldStates_select, fieldStates_init.
Defined.

(** X11: a selection with a non-empty vertex list and a positive area
    always makes the weather effect send a request, provided a key is
    configured: the effect is skipped neither for want of a centre nor for
    the area. *)
Theorem select_then_request l cs a st apiKey :
  cs <> [] -> gtb a (of_Z 0) = true -> nonempty apiKey = true ->
  let st' := handleMapLocationSelect l (Some cs) (Some a) st in
  requests (Field.coords st') (Field.fieldAreaInSqM st') apiKey = true.
Proof.
  intros Hcs Ha Hkey. cbv zeta.
  destruct (select_polygon l cs (Some a) st Hcs) as (_ & _ & Hpresent).
  destruct (gtb_zero a Ha) as [Htruthy Hleb].
  rewrite (select_area l (Some cs) a st Htruthy).
  unfold requests. rewrite Hpresent, Hleb, Hkey. reflexivity.
Qed.

Lemma select_then_request_witness :
  let st' := handleMapLocationSelect "North field" (Some smallSquare)
               (Some sampleArea) Field.init in
  requests (Field.coords st') (Field.fieldAreaInSqM st') sampleKey = true.
Proof.
  apply (select_then_request "North field" smallSquare sampleArea Field.init sampleKey);
    [discriminate | reflexivity | reflexivity].
Defined.

(** * The map card *)

Lemma fieldMap_cases_small {A} `{Arith A} (coords : option (LatLon A))
    (fieldPolygon : list (A * A)) :
  present coords = true -> 1 <= length fieldPolygon <= 3 ->
  fieldMap coords fieldPolygon = TypeError.
Proof.
  intros Hc Hlen. unfold fieldMap. rewrite Hc.
  destruct fieldPolygon as [|p0 [|p1 [|p2 [|p3 rest]]]]; simpl in *;
    try reflexivity; lia.
Qed.

(** X12: the map card needs four vertices.  Whatever the arithmetic, the
    card is the placeholder when there is no centre or no vertex, it is
    drawn when there are at least four vertices (and then both zones are
    quadrilaterals built from the first four alone), and with one, two or
    three vertices evaluating it throws. *)
Theorem fieldMap_needs_four (A : Type) (HA : Arith A)
    (coords : option (LatLon A)) (fieldPolygon : list (A * A)) :
  (fieldMap coords fieldPolygon = NoMap <->
     present coords = false \/ fieldPolygon = []) /\
  (fieldMap coords fieldPolygon = TypeError <->
     present coords = true /\ 1 <= length fieldPolygon <= 3) /\
  ((exists outline green amber,
       fieldMap coords fieldPolygon = Zones outline green amber) <->
     present coords = true /\ 4 <= length fieldPolygon) /\
  (forall outline green amber,
     fieldMap coords fieldPolygon = Zones outline green amber ->
     outline = fieldPolygon /\ length green = 4 /\ length amber = 4 /\
     fieldMap coords (take 4 fieldPolygon) = Zones (take 4 fieldPolygon) green amber).
Proof.
  assert (Hnone : present coords = false -> fieldMap coords fieldPolygon = NoMap).
  { intros Hc. unfold fieldMap. rewrite Hc. reflexivity. }
  assert (Hnil : fieldPolygon = [] -> fieldMap coords fieldPolygon = NoMap).
  { intros ->. unfold fieldMap. destruct (present coords); reflexivity. }
  assert (Hsmall := fieldMap_cases_small coords fieldPolygon).
  assert (Hbig : present coords = true -> 4 <= length fieldPolygon ->
                 exists p0 p1 p2 p3 rest,
                   fieldPolygon = p0 :: p1 :: p2 :: p3 :: rest /\
                   fieldMap coords fieldPolygon
                   = Zones fieldPolygon [p0; midpoint p0 p1; midpoint p3 p2; p3]
                       [p1; p2; midpoint p3 p2; midpoint p0 p1]).
  { intros Hc Hlen. unfold fieldMap. rewrite Hc.
    destruct fieldPolygon as [|p0 [|p1 [|p2 [|p3 rest]]]]; simpl in Hlen; try lia.
    exists p0, p1, p2, p3, rest. split; reflexivity. }
  assert (Hcases : present coords = false \/ fieldPolygon = [] \/
                   (present coords = true /\ 1 <= length fieldPolygon <= 3) \/
                   (present coords = true /\ 4 <= length fieldPolygon)).
  { destruct (present coords); [| auto]. right.
    destruct fieldPolygon as [|p l]; [auto |]. right. simpl.
    destruct (Nat.le_gt_cases 4 (S (length l))); [right | left];
      (split; [reflexivity | lia]). }
  split; [| split; [| split]].
  - split; [| intros [Hc | Hp]; auto].
    destruct Hcases as [Hc | [Hp | [[Hc Hl] | [Hc Hl]]]]; auto.
    + rewrite (Hsmall Hc Hl). discriminate.
    + destruct (Hbig Hc Hl) as (p0 & p1 & p2 & p3 & rest & _ & ->). discriminate.
  - split; [| intros [Hc Hl]; auto].
    destruct Hcases as [Hc | [Hp | [[Hc Hl] | [Hc Hl]]]]; auto.
    + rewrite (Hnone Hc). discriminate.
    + rewrite (Hnil Hp). discriminate.
    + destruct (Hbig Hc Hl) as (p0 & p1 & p2 & p3 & rest & _ & ->). discriminate.
  - split.
    + intros (o & g & a & Hz).
      destruct Hcases as [Hc | [Hp | [[Hc Hl] | [Hc Hl]]]]; auto.
      * rewrite (Hnone Hc) in Hz. discriminate.
      * rewrite (Hnil Hp) in Hz. discriminate.
      * rewrite (Hsmall Hc Hl) in Hz. discriminate.
    + intros [Hc Hl].
      destruct (Hbig Hc Hl) as (p0 & p1 & p2 & p3 & rest & _ & ->). eauto.
  - intros o g a Hz.
    destruct Hcases as [Hc | [Hp | [[Hc Hl] | [Hc Hl]]]].
    + rewrite (Hnone Hc) in Hz. discriminate.
    + rewrite (Hnil Hp) in Hz. discriminate.
    + rewrite (Hsmall Hc Hl) in Hz. discriminate.
    + destruct (Hbig Hc Hl) as (p0 & p1 & p2 & p3 & rest & -> & Heq).
      rewrite Heq in Hz. injection Hz as <- <- <-.
      split; [reflexivity |]. split; [reflexivity |]. split; [reflexivity |].
      unfold fieldMap. rewrite Hc. reflexivity.
Qed.

(** X13: selecting a field with one, two or three vertices - a triangle,
    say, which [computeCentroid] and the weather effect handle - leads to
    a state whose map card cannot be drawn: evaluating it throws. *)
Theorem small_polygon_breaks_map l cs a st :
  1 <= length cs <= 3 ->
  let st' := handleMapLocationSelect l (Some cs) a st in
  Field.fieldPolygon st' = cs /\
  present (Field.coords st') = true /\
  fieldMap (Field.coords st') (Field.fieldPolygon st') = TypeError.
Proof.
  intros Hlen. cbv zeta.
  destruct (select_polygon l cs a st) as (Hp & _ & Hc).
  { destruct cs; [simpl in Hlen; lia | discriminate]. }
  split; [exact Hp |]. split; [exact Hc |].
  apply fieldMap_cases_small; [exact Hc | rewrite Hp; exact Hlen].
Qed.

Lemma small_polygon_breaks_map_witness :
  let st' := handleMapLocationSelect "North field"
               (Some [(lit 286 1, lit 772 1); (lit 287 1, lit 772 1);
                      (lit 287 1, lit 773 1)])
               (Some sampleArea) Field.init in
  Field.fieldPolygon st'
    = [(lit 286 1, lit 772 1); (lit 287 1, lit 772 1); (lit 287 1, lit 773 1)] /\
  present (Field.coords st') = true /\
  fieldMap (Field.coords st') (Field.fieldPolygon st') = TypeError.
Proof.
  apply (small_polygon_breaks_map "North field"
           [(lit 286 1, lit 772 1); (lit 287 1, lit 772 1); (lit 287 1, lit 773 1)]
           (Some sampleArea) Field.init).
  simpl. lia.
Defined.

(** * What [num] reads *)

Section Reading.
Import Js.

Lemma str_app_nil s : "" +:+ s = s.
Proof. reflexivity. Qed.

Lemma str_app_cons c s t : String c s +:+ t = String c (s +:+ t).
Proof. reflexivity. Qed.

Lemma str_app_assoc (a b c : string) : (a +:+ b) +:+ c = a +:+ (b +:+ c).
Proof. induction a as [|x a IH]; [reflexivity |]. rewrite !str_app_cons, IH. reflexivity. Qed.

Lemma str_app_length (a b : string) : String.length (a +:+ b) = String.length a + String.length b.
Proof. induction a as [|x a IH]; [reflexivity |]. rewrite str_app_cons. simpl. rewrite IH. reflexivity. Qed.

Lemma digits_val_uint d acc :
  digits_val acc (NilEmpty.string_of_uint d)
  = match acc with
    | N0 => Pos.of_uint d
    | Npos a => Npos (Pos.of_uint_acc d a)
    end.
Proof.
  revert acc. induction d; intros acc; cbn [NilEmpty.string_of_uint digits_val];
    [destruct acc; reflexivity | ..];
    rewrite IHd; destruct acc as [|a]; try reflexivity;
    vm_compute (digit_val _);
    change (10 * N.pos a)%N with (N.pos (10 * a)); cbn [N.add Pos.of_uint_acc];
    rewrite Pos.add_comm; reflexivity.
Qed.

Lemma digits_uint n : digits n = NilEmpty.string_of_uint (N.to_uint n) /\ N.to_uint n <> Decimal.Nil.
Proof.
  unfold digits.
  assert (Hnil : N.to_uint n <> Decimal.Nil).
  { destruct n; [discriminate | apply DecimalPos.Unsigned.to_uint_nonnil]. }
  split; [| exact Hnil].
  destruct (N.to_uint n); [congruence | reflexivity ..].
Qed.

Lemma digits_val_digits n : digits_val 0 (digits n) = n.
Proof.
  rewrite (proj1 (digits_uint n)), digits_val_uint. apply DecimalN.Unsigned.of_to.
Qed.

Lemma all_digits_uint d : all_digits (NilEmpty.string_of_uint d) = true.
Proof. induction d; simpl; auto. Qed.

Lemma all_digits_digits n : all_digits (digits n) = true.
Proof. rewrite (proj1 (digits_uint n)). apply all_digits_uint. Qed.

Lemma digits_nonempty n : digits n <> "".
Proof.
  destruct (digits_uint n) as [-> Hnil].
  destruct (N.to_uint n); try discriminate. congruence.
Qed.

Lemma all_digits_app a b : all_digits (a +:+ b) = all_digits a && all_digits b.
Proof.
  induction a as [|c a IH]; [reflexivity |].
  rewrite str_app_cons. simpl. rewrite IH, andb_assoc. reflexivity.
Qed.

Lemma all_digits_zeros k : all_digits (zeros k) = true.
Proof. induction k; simpl; auto. Qed.

Lemma all_digits_substring s n m :
  all_digits s = true -> all_digits (substring n m s) = true.
Proof.
  revert n m. induction s as [|c s IH]; intros n m Hs.
  - destruct n, m; reflexivity.
  - simpl in Hs. apply andb_true_iff in Hs as [Hc Hs].
    destruct n as [|n]; [destruct m as [|m] |]; simpl; auto.
    rewrite Hc. simpl. auto.
Qed.

Lemma span_digits_all ds rest :
  all_digits ds = true ->
  match rest with String c _ => is_digit c = false | EmptyString => True end ->
  span_digits (ds +:+ rest) = (ds, rest).
Proof.
  intros Hds Hrest. induction ds as [|c ds IH].
  - rewrite str_app_nil. destruct rest as [|c t]; [reflexivity |].
    simpl. rewrite Hrest. reflexivity.
  - simpl in Hds. apply andb_true_iff in Hds as [Hc Hds].
    rewrite str_app_cons. simpl. rewrite Hc, (IH Hds). reflexivity.
Qed.

Lemma digits_val_app acc a b : digits_val acc (a +:+ b) = digits_val (digits_val acc a) b.
Proof.
  revert acc. induction a as [|c a IH]; intros acc; [reflexivity |].
  rewrite str_app_cons. simpl. apply IH.
Qed.

Lemma digits_val_zeros k : digits_val 0 (zeros k) = 0%N.
Proof. induction k; [reflexivity |]. simpl. exact IHk. Qed.

Lemma substring_all s : substring 0 (String.length s) s = s.
Proof. induction s as [|c s IH]; [reflexivity |]. simpl. rewrite IH. reflexivity. Qed.

Lemma substring_split s a :
  a <= String.length s ->
  substring 0 a s +:+ substring a (String.length s - a) s = s.
Proof.
  revert s. induction a as [|a IH]; intros s Ha.
  - rewrite Nat.sub_0_r, substring_all.
    destruct s; reflexivity.
  - destruct s as [|c s]; [simpl in Ha; lia |].
    simpl in Ha. simpl. rewrite str_app_cons, IH by lia. reflexivity.
Qed.

Lemma substring_length0 s a : a <= String.length s -> String.length (substring 0 a s) = a.
Proof.
  revert s. induction a as [|a IH]; intros s Ha.
  - destruct s; reflexivity.
  - destruct s as [|c s]; [simpl in Ha; lia |].
    simpl in *. rewrite IH by lia. reflexivity.
Qed.

Lemma is_digit_not_minus c t :
  is_digit c = true -> match_here (String c t) = match_unsigned (String c t).
Proof.
  destruct c as [b0 b1 b2 b3 b4 b5 b6 b7].
  destruct b0, b1, b2, b3, b4, b5, b6, b7; try discriminate; reflexivity.
Qed.

Lemma is_digit_not_point c : is_digit c = true -> Ascii.eqb c "." = false.
Proof.
  destruct c as [b0 b1 b2 b3 b4 b5 b6 b7].
  destruct b0, b1, b2, b3, b4, b5, b6, b7; try discriminate; reflexivity.
Qed.

Lemma zeros_length k : String.length (zeros k) = k.
Proof. induction k; simpl; auto. Qed.

Lemma not_point_match {X} c t (a : string -> X) (b : X) :
  Ascii.eqb c "." = false ->
  match String c t with
  | String "."%char r => a r
  | _ => b
  end = b.
Proof.
  destruct c as [b0 b1 b2 b3 b4 b5 b6 b7].
  destruct b0, b1, b2, b3, b4, b5, b6, b7; try discriminate; reflexivity.
Qed.

Lemma boundary_digit rest :
  boundary rest = true ->
  match rest with String c _ => is_digit c = false | EmptyString => True end.
Proof.
  destruct rest as [|c t]; [auto |]. simpl.
  intros H. apply andb_true_iff in H as [H _]. apply negb_true_iff in H. exact H.
Qed.

Lemma match_unsigned_int ip rest :
  all_digits ip = true -> ip <> "" -> boundary rest = true ->
  match_unsigned (ip +:+ rest) = Some ip.
Proof.
  intros Hip Hne Hb. unfold match_unsigned.
  rewrite (span_digits_all ip rest Hip (boundary_digit _ Hb)).
  destruct ip as [|c ip]; [congruence |].
  destruct rest as [|c' t]; [reflexivity |].
  simpl in Hb. apply andb_true_iff in Hb as [_ Hb]. apply negb_true_iff in Hb.
  apply (not_point_match c' t
           (fun r => match span_digits r with
                     | (EmptyString, _) => Some (String c ip)
                     | (fs, _) => Some (String c ip +:+ "." +:+ fs)
                     end) (Some (String c ip)) Hb).
Qed.

Lemma match_unsigned_frac ip fp rest :
  all_digits ip = true -> ip <> "" -> all_digits fp = true -> fp <> "" ->
  match rest with String c _ => is_digit c = false | EmptyString => True end ->
  match_unsigned (ip +:+ "." +:+ fp +:+ rest) = Some (ip +:+ "." +:+ fp).
Proof.
  intros Hip Hne Hfp Hnf Hrest. unfold match_unsigned.
  rewrite (span_digits_all ip ("." +:+ fp +:+ rest) Hip) by reflexivity.
  destruct ip as [|c ip]; [congruence |].
  rewrite str_app_cons, str_app_nil.
  rewrite (span_digits_all fp rest Hfp Hrest).
  destruct fp as [|c' fp]; [congruence |]. reflexivity.
Qed.

Lemma parseFloat_digit c t :
  is_digit c = true ->
  parseFloat (String c t)
  = let '(ds, rest) := span_digits (String c t) in
    let fs := match rest with
              | String "."%char r => fst (span_digits r)
              | _ => EmptyString
              end in
    of_decimal false (digits_val (digits_val 0 ds) fs) (String.length fs).
Proof.
  destruct c as [b0 b1 b2 b3 b4 b5 b6 b7].
  destruct b0, b1, b2, b3, b4, b5, b6, b7; try discriminate; reflexivity.
Qed.

Lemma span_digits_only ds : all_digits ds = true -> span_digits ds = (ds, "").
Proof.
  intros Hds. induction ds as [|c ds IH]; [reflexivity |].
  simpl in Hds. apply andb_true_iff in Hds as [Hc Hds].
  simpl. rewrite Hc, (IH Hds). reflexivity.
Qed.

Lemma parseFloat_body neg m ip fs :
  (m = ip /\ fs = "") \/ (m = ip +:+ "." +:+ fs /\ all_digits fs = true /\ fs <> "") ->
  all_digits ip = true -> ip <> "" ->
  parseFloat (if neg : bool then "-" +:+ m else m)
  = of_decimal neg (digits_val 0 (ip +:+ fs)) (String.length fs).
Proof.
  intros Hm Hip Hne.
  assert (Hbody :
            (let '(ds, rest) := span_digits m in
             let fs := match rest with
                       | String "."%char r => fst (span_digits r)
                       | _ => EmptyString
                       end in
             of_decimal neg (digits_val (digits_val 0 ds) fs) (String.length fs))
            = of_decimal neg (digits_val 0 (ip +:+ fs)) (String.length fs)).
  { rewrite digits_val_app. destruct Hm as [[-> ->] | (-> & Hfs & Hnf)].
    - rewrite (span_digits_only ip Hip). reflexivity.
    - rewrite (span_digits_all ip ("." +:+ fs) Hip) by reflexivity.
      rewrite str_app_cons, str_app_nil. cbv beta iota zeta.
      rewrite (span_digits_only fs Hfs). reflexivity. }
  destruct neg.
  - rewrite str_app_cons, str_app_nil. exact Hbody.
  - destruct m as [|c t] eqn:Em.
    + destruct Hm as [[<- _] | (Hm & _)]; [congruence |].
      destruct ip; [congruence | discriminate].
    + rewrite parseFloat_digit; [exact Hbody |].
      destruct ip as [|c' ip']; [congruence |].
      simpl in Hip. apply andb_true_iff in Hip as [Hc _].
      destruct Hm as [[Hm _] | (Hm & _)]; rewrite ?str_app_cons in Hm; congruence.
Qed.

Lemma regex_match_here s m : match_here s = Some m -> regex_match s = Some m.
Proof. intros Hm. destruct s; cbn [regex_match]; rewrite Hm; reflexivity. Qed.

Lemma match_here_signed neg body m :
  match_unsigned body = Some m ->
  match body with String c _ => is_digit c = true | EmptyString => False end ->
  match_here (if neg : bool then "-" +:+ body else body)
  = Some (if neg then "-" +:+ m else m).
Proof.
  intros Hm Hd. destruct neg.
  - rewrite str_app_cons, str_app_nil. simpl. rewrite Hm. reflexivity.
  - destruct body as [|c t]; [contradiction |].
    rewrite is_digit_not_minus by exact Hd. exact Hm.
Qed.

Lemma round_scaled_abs x f : round_scaled (abs x) f = round_scaled x f.
Proof. destruct x; reflexivity. Qed.

Lemma toFixed_shape x f :
  fixedNotation x = true ->
  exists m ip fs,
    toFixed x f = (if ltb x (of_Z 0) then "-" +:+ m else m) /\
    ((m = ip /\ fs = "") \/ (m = ip +:+ "." +:+ fs /\ all_digits fs = true /\ fs <> "")) /\
    all_digits ip = true /\ ip <> "" /\
    String.length fs = f /\
    digits_val 0 (ip +:+ fs) = round_scaled x f.
Proof.
  intros Hfix.
  assert (Hgeb : geb (abs x) (lit 1000000000000000000000 0) = false).
  { destruct x; try discriminate; apply negb_true_iff in Hfix; exact Hfix. }
  assert (Hunf : toFixed x f =
                 (if ltb x (of_Z 0) then "-" else "") +:+
                 match f with
                 | O => digits (round_scaled x f)
                 | S _ =>
                     let m := zeros (S f - String.length (digits (round_scaled x f)))
                              +:+ digits (round_scaled x f) in
                     let k := String.length m in
                     substring 0 (k - f) m +:+ "." +:+ substring (k - f) f m
                 end).
  { unfold toFixed. rewrite Hgeb, round_scaled_abs.
    destruct x; try discriminate; destruct f; reflexivity. }
  rewrite Hunf. clear Hunf.
  set (n := round_scaled x f).
  destruct f as [|f'].
  - exists (digits n), (digits n), "".
    split; [destruct (ltb x (of_Z 0)); reflexivity |].
    split; [left; split; reflexivity |].
    split; [apply all_digits_digits |]. split; [apply digits_nonempty |].
    split; [reflexivity |].
    rewrite digits_val_app. simpl. apply digits_val_digits.
  - cbv zeta.
    set (m := zeros (S (S f') - String.length (digits n)) +:+ digits n).
    set (k := String.length m).
    assert (Hk : S (S f') <= k).
    { unfold k, m. rewrite str_app_length, zeros_length. lia. }
    assert (Hall : all_digits m = true).
    { unfold m. rewrite all_digits_app, all_digits_zeros, all_digits_digits. reflexivity. }
    assert (Hsplit : substring 0 (k - S f') m +:+ substring (k - S f') (S f') m = m).
    { pose proof (substring_split m (k - S f')) as Hs. fold k in Hs.
      replace (k - (k - S f')) with (S f') in Hs by lia.
      apply Hs. lia. }
    assert (Hlen0 : String.length (substring 0 (k - S f') m) = k - S f').
    { apply substring_length0. fold k. lia. }
    assert (Hlen1 : String.length (substring (k - S f') (S f') m) = S f').
    { pose proof (f_equal String.length Hsplit) as Hl.
      rewrite str_app_length, Hlen0 in Hl. fold k in Hl. lia. }
    exists (substring 0 (k - S f') m +:+ "." +:+ substring (k - S f') (S f') m),
      (substring 0 (k - S f') m), (substring (k - S f') (S f') m).
    split; [destruct (ltb x (of_Z 0)); reflexivity |].
    split.
    { right. split; [reflexivity |].
      split; [apply all_digits_substring, Hall |].
      intros Hempty. rewrite Hempty in Hlen1. discriminate. }
    split; [apply all_digits_substring, Hall |].
    split.
    { intros Hempty. rewrite Hempty in Hlen0. simpl in Hlen0. lia. }
    split; [exact Hlen1 |].
    rewrite Hsplit. unfold m. rewrite digits_val_app, digits_val_zeros.
    apply digits_val_digits.
Qed.

Lemma num_toFixed x f suffix :
  fixedNotation x = true -> boundary suffix = true ->
  num (Str (toFixed x f +:+ suffix))
  = of_decimal (ltb x (of_Z 0)) (round_scaled x f) f.
Proof.
  intros Hfix Hb.
  destruct (toFixed_shape x f Hfix) as (m & ip & fs & -> & Hm & Hip & Hne & Hlen & Hval).
  set (neg := ltb x (of_Z 0)).
  assert (Hmatch : match_unsigned (m +:+ suffix) = Some m).
  { destruct Hm as [[-> ->] | (-> & Hfs & Hnf)].
    - apply match_unsigned_int; assumption.
    - rewrite !str_app_assoc. apply match_unsigned_frac; try assumption.
      apply boundary_digit, Hb. }
  assert (Hstart : match m +:+ suffix with
                   | String c _ => is_digit c = true
                   | EmptyString => False
                   end).
  { destruct ip as [|c ip]; [congruence |].
    simpl in Hip. apply andb_true_iff in Hip as [Hc _].
    destruct Hm as [[-> _] | (-> & _)]; rewrite !str_app_cons; exact Hc. }
  assert (Hre : regex_match ((if neg then "-" +:+ m else m) +:+ suffix)
                = Some (if neg then "-" +:+ m else m)).
  { apply regex_match_here.
    replace ((if neg then "-" +:+ m else m) +:+ suffix)
      with (if neg then "-" +:+ (m +:+ suffix) else m +:+ suffix)
      by (destruct neg; [rewrite str_app_assoc |]; reflexivity).
    apply match_here_signed; assumption. }
  unfold num. rewrite Hre.
  rewrite (parseFloat_body neg m ip fs Hm Hip Hne), Hval, Hlen. reflexivity.
Qed.

Lemma str_app_nil_r s : s +:+ "" = s.
Proof. induction s as [|c s IH]; [reflexivity |]. rewrite str_app_cons, IH. reflexivity. Qed.

(** X19: a value the analyzer writes reads back as the decimal it
    shows.  For a finite number below 1e21 in absolute value, [num] applied
    to the text [toFixed] gives for it, followed by any text that starts
    with neither a digit nor a point, is the binary64 number nearest the
    decimal displayed: the rounded digits over [10^f], with the sign of the
    number.  The strings written as kg/ha, as a percentage and as pH are of
    this form. *)
Theorem num_reads_toFixed x :
  fixedNotation x = true ->
  (forall f suffix, boundary suffix = true ->
     num (Str (toFixed x f +:+ suffix))
     = of_decimal (ltb x (of_Z 0)) (round_scaled x f) f) /\
  num (Str (kg_ha x)) = of_decimal (ltb x (of_Z 0)) (round_scaled x 0) 0 /\
  num (Str (percent x)) = of_decimal (ltb x (of_Z 0)) (round_scaled x 2) 2 /\
  num (Str (toFixed x 1)) = of_decimal (ltb x (of_Z 0)) (round_scaled x 1) 1.
Proof.
  intros Hfix.
  split; [intros f suffix Hb; apply num_toFixed; assumption |].
  split; [apply (num_toFixed x 0 " kg/ha" Hfix); reflexivity |].
  split; [apply (num_toFixed x 2 "%" Hfix); reflexivity |].
  rewrite <- (str_app_nil_r (toFixed x 1)).
  apply (num_toFixed x 1 "" Hfix). reflexivity.
Qed.

Lemma num_reads_toFixed_witness :
  (forall f suffix, boundary suffix = true ->
     num (Str (toFixed (lit (-11345) 2) f +:+ suffix))
     = of_decimal true (round_scaled (lit (-11345) 2) f) f) /\
  num (Str (kg_ha (lit (-11345) 2))) = of_decimal true 113 0 /\
  num (Str (percent (lit (-11345) 2))) = of_decimal true 11345 2 /\
  num (Str (toFixed (lit (-11345) 2) 1)) = of_decimal true 1135 1.
Proof. exact (num_reads_toFixed (lit (-11345) 2) eq_refl). Defined.

Lemma match_here_digit c t :
  is_digit c = true -> exists m, match_here (String c t) = Some m.
Proof.
  intros Hc. rewrite (is_digit_not_minus c t Hc).
  unfold match_unsigned. cbn [span_digits]. rewrite Hc.
  destruct (span_digits t) as [ds rest].
  destruct rest as [|c' r]; [eauto |].
  destruct (Ascii.eqb c' ".") eqn:Hp.
  - apply Ascii.eqb_eq in Hp. subst c'.
    destruct (span_digits r) as [[|d fs] rest']; eauto.
  - rewrite (not_point_match c' r
               (fun r0 => match span_digits r0 with
                          | (EmptyString, _) => Some (String c ds)
                          | (fs, _) => Some (String c ds +:+ "." +:+ fs)
                          end) (Some (String c ds)) Hp).
    eauto.
Qed.

Lemma match_unsigned_None s :
  match s with String c _ => is_digit c = false | EmptyString => True end ->
  match_unsigned s = None.
Proof.
  intros Hs. unfold match_unsigned.
  destruct s as [|c t]; [reflexivity |]. cbn [span_digits]. rewrite Hs. reflexivity.
Qed.

Lemma regex_match_None s : has_digit s = false -> regex_match s = None.
Proof.
  induction s as [|c t IH]; intros Hs; [reflexivity |].
  simpl in Hs. apply orb_false_iff in Hs as [Hc Ht].
  assert (Hhere : match_here (String c t) = None).
  { assert (Hun : match_unsigned (String c t) = None)
      by (apply match_unsigned_None; exact Hc).
    assert (Ht' : match_unsigned t = None).
    { apply match_unsigned_None. destruct t as [|c' t']; [exact I |].
      simpl in Ht. apply orb_false_iff in Ht as [Hc' _]. exact Hc'. }
    unfold match_here.
    destruct c as [b0 b1 b2 b3 b4 b5 b6 b7].
    destruct b0, b1, b2, b3, b4, b5, b6, b7; try exact Hun.
    rewrite Ht'. reflexivity. }
  cbn [regex_match]. rewrite Hhere. apply IH, Ht.
Qed.

Lemma regex_match_Some s : has_digit s = true -> exists m, regex_match s = Some m.
Proof.
  induction s as [|c t IH]; intros Hs; [discriminate |].
  cbn [regex_match].
  destruct (match_here (String c t)) as [m|] eqn:Hhere; [eauto |].
  simpl in Hs. destruct (is_digit c) eqn:Hc.
  - destruct (match_here_digit c t Hc) as [m Hm]. congruence.
  - apply IH. exact Hs.
Qed.

(** X20: [num] falls back to 0 exactly on the strings without a digit.
    A string with no digit in it reads as 0, whatever else it holds; a
    string with a digit always has a match, and reads as [parseFloat] of
    the leftmost one; a number is returned as it is. *)
Theorem num_fallback s :
  (has_digit s = false -> num (Str s) = of_Z 0) /\
  (has_digit s = true ->
     exists m, regex_match s = Some m /\ num (Str s) = parseFloat m) /\
  (forall x, num (Num x) = x).
Proof.
  split; [| split].
  - intros Hs. unfold num. rewrite (regex_match_None s Hs). reflexivity.
  - intros Hs. destruct (regex_match_Some s Hs) as [m Hm].
    exists m. split; [exact Hm |]. unfold num. rewrite Hm. reflexivity.
  - reflexivity.
Qed.

End Reading.

(** * Badges, the weather card and the initial state *)

Lemma grade_cases lo hi x :
  grade lo hi x = "Low" \/ grade lo hi x = "High" \/ grade lo hi x = "Optimal".
Proof. unfold grade. destruct (ltb x lo); [| destruct (gtb x hi)]; auto. Qed.

Lemma badge_of_status s :
  s = "Low" \/ s = "High" \/ s = "Optimal" ->
  exists b i,
    getStatusBadge s = Some b /\ label b = s /\ getStatusIcon s = Some i.
Proof.
  intros [-> | [-> | ->]]; eexists _, _; repeat split; reflexivity.
Qed.

(** X21: every status the analyzer can write has a badge and an icon,
    and the badge is labelled with that status; so has every entry of the
    record a call returns when the baseline is the module's own, for every
    forecast.  A status that is none of low, optimal, high in any
    capitalisation has neither. *)
Theorem statuses_have_badges base daily h :
  readSoil base h = Some detailedSoilData ->
  (forall lo hi x, exists b i,
      getStatusBadge (grade lo hi x) = Some b /\
      label b = grade lo hi x /\
      getStatusIcon (grade lo hi x) = Some i) /\
  (exists res h' s',
      analyzeWeather base daily h = Some (res, h') /\
      readSoil (adjustedSoil res) h' = Some s' /\
      forall f e, e ∈ get_field f s' ->
        exists b i,
          getStatusBadge (status e) = Some b /\
          label b = status e /\
          getStatusIcon (status e) = Some i) /\
  (forall s, toLowerCase s <> "low" -> toLowerCase s <> "optimal" ->
             toLowerCase s <> "high" ->
             getStatusBadge s = None /\ getStatusIcon s = None).
Proof.
  intros Hread. split; [| split].
  - intros lo hi x. apply badge_of_status, grade_cases.
  - destruct (analyzeWeather_result base daily h _ Hread)
      as (res & h' & Hrun & _ & _ & Hcontent & _).
    eexists res, h', _. split; [exact Hrun |]. split; [exact Hcontent |].
    intros f e He. apply badge_of_status.
    destruct (existsb isHeavyRain daily), (3 <=? longest_run isDryHot daily);
      rewrite ?content_calm, ?content_rain, ?content_heat, ?content_rain_heat in He;
      destruct f; cbn in He;
      repeat (apply elem_of_cons in He as [-> | He]; [cbn; auto |]);
      inversion He.
  - intros s Hl Ho Hh. unfold getStatusBadge, getStatusIcon. cbv zeta.
    apply String.eqb_neq in Hl, Ho, Hh. rewrite Hl, Ho, Hh. split; reflexivity.
Qed.

Lemma statuses_have_badges_witness :
  (forall lo hi x, exists b i,
      getStatusBadge (grade lo hi x) = Some b /\
      label b = grade lo hi x /\
      getStatusIcon (grade lo hi x) = Some i) /\
  (exists res h' s',
      analyzeWeather initial_base hotWeek initial_store = Some (res, h') /\
      readSoil (adjustedSoil res) h' = Some s' /\
      forall f e, e ∈ get_field f s' ->
        exists b i,
          getStatusBadge (status e) = Some b /\
          label b = status e /\
          getStatusIcon (status e) = Some i) /\
  (forall s, toLowerCase s <> "low" -> toLowerCase s <> "optimal" ->
             toLowerCase s <> "high" ->
             getStatusBadge s = None /\ getStatusIcon s = None).
Proof. exact (statuses_have_badges _ hotWeek _ initial_reads). Defined.

Lemma area_cases x :
  (strict_eq x (of_Z 0) = true -> leb x (of_Z 0) = true) /\
  (leb x (of_Z 0) = true -> strict_eq x (of_Z 0) = false -> ltb x (of_Z 0) = true) /\
  (ltb x (of_Z 0) = true -> leb x (of_Z 0) = true /\ strict_eq x (of_Z 0) = false).
Proof.
  destruct x as [[]| [] | | [] m e]; repeat split; intros; try reflexivity;
    try discriminate.
Qed.

(** X22: the card's prompt and the effect's guard.  Whenever the card
    shows the prompt to select a field, the effect sends no request.  The
    other way round, a run that sends no request leaves the prompt on the
    card unless the key is missing or the area is negative: for a negative
    area no request is ever sent, while the card goes on to the forecast
    view. *)
Theorem prompt_and_guard coords area apiKey st :
  (weatherPanel coords area st = Prompt -> requests coords area apiKey = false) /\
  (requests coords area apiKey = false ->
     weatherPanel coords area st = Prompt \/
     nonempty apiKey = false \/ ltb area (of_Z 0) = true) /\
  (present coords = true -> ltb area (of_Z 0) = true ->
     requests coords area apiKey = false /\
     weatherPanel coords area st <> Prompt /\
     forall base reply h,
       fetchWeather coords area apiKey base reply st h = Some (st, h)).
Proof.
  destruct (area_cases area) as (Heq & Hneg & Hlt).
  unfold weatherPanel, requests.
  split; [| split].
  - destruct (present coords); [| reflexivity]. cbn [negb orb andb].
    destruct (strict_eq area (of_Z 0)) eqn:Hz.
    + rewrite (Heq eq_refl). reflexivity.
    + destruct (Weather.weatherLoading st); [discriminate |].
      destruct (nonempty (Weather.weatherError st)); discriminate.
  - destruct (present coords); [| auto]. cbn [negb orb andb].
    destruct (leb area (of_Z 0)) eqn:Hle.
    + intros _. destruct (strict_eq area (of_Z 0)) eqn:Hz; [auto |].
      right; right. apply Hneg; reflexivity.
    + cbn [negb andb]. intros ->. auto.
  - intros Hc Hl. destruct (Hlt Hl) as [Hle Hz]. rewrite Hc, Hle, Hz.
    cbn [negb orb andb]. split; [reflexivity |]. split.
    + destruct (Weather.weatherLoading st); [discriminate |].
      destruct (nonempty (Weather.weatherError st)); discriminate.
    + intros base reply h. apply fetchWeather_skipped. right. exact Hle.
Qed.

(** X23: the state the component starts in is the one a calm forecast
    leads to.  When the first seven days of a reply hold no heavy-rain day
    and no three dry and hot days in a row, a successful run of the effect
    on the module's baseline leaves the three charts as the initial
    constants and the adapted record with the content of the baseline; if
    moreover no day is windy or humid, the headline is the initial one and
    the recommendations are the initial texts. *)
Theorem calm_forecast_is_initial coords area apiKey base reply data st h :
  present coords = true ->
  leb area (of_Z 0) = false ->
  nonempty apiKey = true ->
  replyData reply = Some data ->
  readSoil base h = Some detailedSoilData ->
  existsb isHeavyRain (take 7 (default [] (daily data))) = false ->
  longest_run isDryHot (take 7 (default [] (daily data))) < 3 ->
  exists st' h',
    fetchWeather coords area apiKey base reply st h = Some (st', h') /\
    adaptivePies st' = adaptivePies (Weather.init base) /\
    readSoil (Weather.adaptiveSoil st') h' = Some detailedSoilData /\
    readSoil (Weather.adaptiveSoil (Weather.init base)) h' = Some detailedSoilData /\
    (existsb isWindy (take 7 (default [] (daily data))) = false ->
     existsb (fun d => geb (or0 (humidity d)) (of_Z 90))
       (take 7 (default [] (daily data))) = false ->
     headline st' = headline (Weather.init base) /\
     Weather.adaptiveRecs st' = Weather.adaptiveRecs (Weather.init base)).
Proof.
  intros Hc Ha Hkey Hdata Hread Hrain Hheat.
  destruct (fetchWeather_run coords area apiKey base reply data st h _
              Hc Ha Hkey Hdata Hread)
    as (res & ext & _ & Hal & Hrecs & Hsoil & _ & Hrun).
  cbv zeta in *. set (next7 := take 7 (default [] (daily data))) in *.
  apply Nat.leb_gt in Hheat. rewrite Hrain, Hheat, content_calm in *.
  eexists _, (h ++ ext). split; [exact Hrun |].
  cbn [Weather.weatherAlerts Weather.adaptiveRecs Weather.adaptiveSoil].
  split; [reflexivity |]. split; [exact Hsoil |].
  split; [apply readSoil_app, Hread |].
  intros Hwind Hhumid.
  assert (Hnone : specAlerts next7 = [alert_none]).
  { assert (Hin : forall a, a ∈ specAlerts next7 -> a = alert_none).
    { intros a Hin. apply specAlerts_elem in Hin.
      assert (Hwarm : existsb isHumidWarm next7 = false).
      { clear -Hhumid. induction next7 as [|d l IH]; [reflexivity |].
        cbn [existsb] in *. apply orb_false_iff in Hhumid as [Hd Hl].
        rewrite (IH Hl). unfold isHumidWarm. rewrite Hd. reflexivity. }
      apply Nat.leb_gt in Hheat.
      destruct Hin as [[_ Hx] | [[_ Hx] | [[_ Hx] | [[_ Hx] | [-> _]]]]];
        try congruence; try lia. }
    pose proof (specAlerts_NoDup next7) as Hnd.
    destruct (specAlerts next7) as [|a [|b rest]] eqn:Hs.
    - exfalso. exact (specAlerts_nonempty next7 Hs).
    - rewrite (Hin a) by left. reflexivity.
    - exfalso. assert (a = b).
      { rewrite (Hin a) by left. rewrite (Hin b) by (right; left). reflexivity. }
      subst b. apply NoDup_cons in Hnd as [Hnot _]. apply Hnot. left. }
  split.
  - unfold headline. cbn [Weather.weatherAlerts]. rewrite Hal, Hnone. reflexivity.
  - rewrite Hrecs, dayPass_heavy_count, dayPass_streak.
    rewrite existsb_filter_length in Hrain. apply negb_false_iff in Hrain.
    apply Nat.eqb_eq in Hrain. rewrite Hrain.
    unfold makeRecs. rewrite Hheat, Hhumid. reflexivity.
Qed.

Lemma calm_forecast_is_initial_witness :
  exists st' h',
    fetchWeather sampleCentre sampleArea sampleKey initial_base (okReply calmWeek)
      (Weather.init initial_base) initial_store = Some (st', h') /\
    adaptivePies st' = adaptivePies (Weather.init initial_base) /\
    readSoil (Weather.adaptiveSoil st') h' = Some detailedSoilData /\
    readSoil (Weather.adaptiveSoil (Weather.init initial_base)) h'
      = Some detailedSoilData /\
    (existsb isWindy (take 7 calmWeek) = false ->
     existsb (fun d => geb (or0 (humidity d)) (of_Z 90)) (take 7 calmWeek) = false ->
     headline st' = headline (Weather.init initial_base) /\
     Weather.adaptiveRecs st' = Weather.adaptiveRecs (Weather.init initial_base)).
Proof.
  apply (calm_forecast_is_initial sampleCentre sampleArea sampleKey initial_base
           (okReply calmWeek) (mkOneCall None (Some calmWeek))
           (Weather.init initial_base) initial_store);
    [reflexivity | reflexivity | reflexivity | reflexivity | exact initial_reads
    | reflexivity | vm_compute; lia].
Defined.

(** * Recommendations and alerts *)

Lemma existsb_humid_warm daily :
  existsb isHumidWarm daily = true ->
  existsb (fun d => geb (or0 (humidity d)) (of_Z 90)) daily = true.
Proof.
  induction daily as [|d l IH]; [discriminate |].
  cbn [existsb]. intros H. apply orb_true_iff in H as [H | H].
  - unfold isHumidWarm in H. apply andb_true_iff in H as [H _].
    rewrite H. reflexivity.
  - rewrite (IH H). apply orb_true_r.
Qed.

(** X24: the recommendations go with the alerts.  For every forecast,
    the leaching alert is raised exactly when the fertilizer advice is the
    split application and the pH advice starts with liming; the drought
    alert exactly when the irrigation advice is the shorter, more frequent
    one; the fungal alert comes with the high-humidity pest advice; and
    when the sentinel is the only alert, the fertilizer, zinc, pH and
    irrigation texts are the initial ones. *)
Theorem recommendations_match_alerts base daily h s :
  readSoil base h = Some s ->
  exists res h',
    analyzeWeather base daily h = Some (res, h') /\
    (alert_rain ∈ alerts res <->
       fertilizer (recs res)
       = "Split-apply N & K (e.g., Urea + MOP) after heavy rain; add stabilizers (NBPT) to reduce N losses.") /\
    (alert_rain ∈ alerts res <->
       pH (recs res)
       = "Consider light liming to buffer acidity from rain; Use dolomitic lime if Mg is low.") /\
    (alert_drought ∈ alerts res <->
       irrigation (recs res)
       = "Adopt shorter, more frequent irrigation; mulch to conserve soil moisture.") /\
    (alert_fungal ∈ alerts res ->
       pest (recs res)
       = "High humidity: scout for late blight; preventive Mancozeb/Chlorothalonil spray window.") /\
    (alert_none ∈ alerts res ->
       fertilizer (recs res) = fertilizer defaultRecs /\
       zinc (recs res) = zinc defaultRecs /\
       pH (recs res) = pH defaultRecs /\
       irrigation (recs res) = irrigation defaultRecs).
Proof.
  intros Hread.
  destruct (analyzeWeather_result base daily h s Hread)
    as (res & h' & Hrun & Hal & Hrecs & _).
  exists res, h'. split; [exact Hrun |].
  rewrite Hal, Hrecs, dayPass_heavy_count, dayPass_streak.
  rewrite !specAlerts_elem. unfold makeRecs. cbn [fertilizer pH irrigation pest zinc].
  rewrite <- existsb_filter_length.
  destruct (existsb isHeavyRain daily) eqn:Hrain;
    destruct (Nat.leb_spec 3 (longest_run isDryHot daily)) as [Hheat | Hheat].
  all: repeat split; intros;
    repeat match goal with
           | H : _ \/ _ |- _ => destruct H
           | H : _ /\ _ |- _ => destruct H
           end;
    try discriminate; try lia; try reflexivity; auto 8.
  all: try (rewrite existsb_humid_warm by assumption; reflexivity).
Qed.

Lemma recommendations_match_alerts_witness :
  exists res h',
    analyzeWeather initial_base (wetDay :: hotWeek) initial_store = Some (res, h') /\
    (alert_rain ∈ alerts res <->
       fertilizer (recs res)
       = "Split-apply N & K (e.g., Urea + MOP) after heavy rain; add stabilizers (NBPT) to reduce N losses.") /\
    (alert_rain ∈ alerts res <->
       pH (recs res)
       = "Consider light liming to buffer acidity from rain; Use dolomitic lime if Mg is low.") /\
    (alert_drought ∈ alerts res <->
       irrigation (recs res)
       = "Adopt shorter, more frequent irrigation; mulch to conserve soil moisture.") /\
    (alert_fungal ∈ alerts res ->
       pest (recs res)
       = "High humidity: scout for late blight; preventive Mancozeb/Chlorothalonil spray window.") /\
    (alert_none ∈ alerts res ->
       fertilizer (recs res) = fertilizer defaultRecs /\
       zinc (recs res) = zinc defaultRecs /\
       pH (recs res) = pH defaultRecs /\
       irrigation (recs res) = irrigation defaultRecs).
Proof. exact (recommendations_match_alerts _ (wetDay :: hotWeek) _ _ initial_reads). Defined.

(** * What the analyzer reads of a day *)

Lemma dayStep_signals st d d' : sameSignals d d' -> dayStep st d = dayStep st d'.
Proof.
  intros (Hp & Hr & Hw & Hh & Ht).
  unfold dayStep, isHeavyRain, isDryHot, isWindy, isHumidWarm.
  rewrite Hp, Hr, Hw, Hh, Ht. reflexivity.
Qed.

Lemma dayPass_signals l l' : Forall2 sameSignals l l' -> dayPass l = dayPass l'.
Proof.
  unfold dayPass. generalize (mkPass [] 0 0 0).
  intros st Hall. revert st.
  induction Hall as [|d d' l l' Hd _ IH]; intros st; [reflexivity |].
  cbn [fold_left]. rewrite (dayStep_signals st d d' Hd). apply IH.
Qed.

Lemma humid_signals l l' :
  Forall2 sameSignals l l' ->
  existsb (fun d => geb (or0 (humidity d)) (of_Z 90)) l
  = existsb (fun d => geb (or0 (humidity d)) (of_Z 90)) l'.
Proof.
  intros Hall. induction Hall as [|d d' l l' (_ & _ & _ & Hh & _) _ IH];
    [reflexivity |].
  cbn [existsb]. rewrite Hh, IH. reflexivity.
Qed.

(** X25: of each day the analyzer reads five fields only.  Two forecasts
    whose days agree, one by one, on [pop], [rain], [wind_speed],
    [humidity] and [temp.max] give the same alerts, the same
    recommendations and the same adapted record, in the same store: the
    date, the minimum temperature and the description of the weather play
    no part. *)
Theorem analyzeWeather_reads_five_fields base l l' h :
  Forall2 sameSignals l l' ->
  analyzeWeather base l h = analyzeWeather base l' h.
Proof.
  intros Hall. unfold analyzeWeather, makeRecs. cbv zeta.
  rewrite (dayPass_signals l l' Hall), (humid_signals l l' Hall). reflexivity.
Qed.

Lemma analyzeWeather_reads_five_fields_witness :
  analyzeWeather initial_base [calmDay; wetDay] initial_store
  = analyzeWeather initial_base [calmDayInFull; wetDay] initial_store.
Proof.
  apply (analyzeWeather_reads_five_fields initial_base [calmDay; wetDay]
           [calmDayInFull; wetDay] initial_store).
  repeat constructor.
Defined.
